(** * Notarization fork resolution, transfer scans and the fractional price
      primitive of [src/rpc/pbaasrpc.cpp]

    A shallow embedding of [CalculateFractionalPrice], [GetChainTransfers],
    [GetUnspentChainTransfers] and [GetNotarizationData], followed by the
    properties established about them.

    Further down: the callers [listcurrencies] and [getpendingtransfers],
    [ValidateTransferDestination], [UniObjectToMap] and [MapToUniObject] of
    the same file, [CWalletDB::WriteTxn] and the serialization of
    [CHDChain] and [CKeyMetadata] of [src/wallet/walletdb.h], and the
    inline accessors of [CBasicKeyStore] of [src/keystore.h]. *)

From Stdlib Require Import ZArith List Bool Lia Permutation Arith Sorted.
Import ListNotations.

Local Open Scope Z_scope.

(* ================================================================== *)
(** * Fixed-width integers *)
(* ================================================================== *)

Module Arith256.

(** [arith_uint256]: an unsigned 256-bit integer, every operation reduced
  modulo [2^256]. *)
Definition modulus : Z := 2 ^ 256.
Definition two64 : Z := 2 ^ 64.
Definition two63 : Z := 2 ^ 63.

(** Implicit conversion of an [int64_t] operand: first to [uint64_t]
  (two's complement), then widened by the [uint64_t] constructor. *)
Definition of_int64 (x : Z) : Z := x mod two64.

Definition mul (a b : Z) : Z := (a * b) mod modulus.
Definition sub (a b : Z) : Z := (a - b) mod modulus.

(** [operator/] throws on a zero divisor. *)
Definition div (a b : Z) : option Z :=
  if b =? 0 then None else Some (a / b).

Definition GetLow64 (a : Z) : Z := a mod two64.

(** Conversion of a [uint64_t] to [int64_t]. *)
Definition to_int64 (u : Z) : Z :=
  let v := u mod two64 in if v <? two63 then v else v - two64.

End Arith256.

(** Modelled from the spec: the constant [SATOSHIDEN] is declared outside
    the files at hand; the fixed-point scale is 10^8. *)
Definition SATOSHIDEN : Z := 100000000.

(* ================================================================== *)
(** * CalculateFractionalPrice *)
(* ================================================================== *)

Definition BigSatoshi : Z := Arith256.of_int64 SATOSHIDEN.
Definition BigSatoshiSquared : Z := Arith256.mul BigSatoshi BigSatoshi.

(** [None] stands for the exception raised on division by zero.  The final
    [answer++] is a signed 64-bit increment, written with its wrap-around. *)
Definition CalculateFractionalPrice
           (smallNumerator smallDenominator : Z) (roundup : bool) : option Z :=
  let denominator := Arith256.mul (Arith256.of_int64 smallDenominator) BigSatoshi in
  let numerator := Arith256.mul (Arith256.of_int64 smallNumerator) BigSatoshiSquared in
  match Arith256.div numerator denominator with
  | None => None
  | Some bigAnswer =>
      let remainder :=
        Arith256.to_int64
          (Arith256.GetLow64
             (Arith256.sub numerator (Arith256.mul bigAnswer denominator))) in
      let answer := Arith256.to_int64 (Arith256.GetLow64 bigAnswer) in
      if negb (remainder =? 0) && roundup
      then Some (Arith256.to_int64 (answer + 1))
      else Some answer
  end.

(** The exact quantities the price is meant to compute. *)
Definition exactQuotient (n d : Z) : Z :=
  (n * (SATOSHIDEN * SATOSHIDEN)) / (d * SATOSHIDEN).
Definition exactRemainder (n d : Z) : Z :=
  (n * (SATOSHIDEN * SATOSHIDEN)) mod (d * SATOSHIDEN).

Definition int64_nonneg (x : Z) : Prop := 0 <= x < Arith256.two63.


(* ================================================================== *)
(** * Data model *)
(* ================================================================== *)

Definition uint160 : Type := Z.
Definition uint256 : Type := Z.

(** [IsNull()] of a hash or identifier. *)
Definition IsNull (h : Z) : bool := h =? 0.

(** Output reference: transaction hash and output index ([uint32_t]). *)
Record CUTXORef : Type := mkRef { hash : uint256; n : Z }.

Definition ref_eqb (a b : CUTXORef) : bool :=
  (hash a =? hash b) && (n a =? n b).

(** Ordering of output references, by hash and then by index. *)
Definition ref_ltb (a b : CUTXORef) : bool :=
  (hash a <? hash b) || ((hash a =? hash b) && (n a <? n b)).

(** The default-constructed reference [CUTXORef()], declared outside the
    files at hand: the null outpoint (null hash, index [UINT32_MAX]). *)
Definition nullRef : CUTXORef := mkRef 0 4294967295.

Record CProofRoot : Type := mkProofRoot {
  systemID : uint160;
  rootHeight : Z;
  stateRoot : uint256;
  blockHash : uint256;
  compactPower : uint256
}.

(** Currency-state snapshots, node lists and transfer destinations are
    carried around unopened by the functions modelled here. *)
Definition CCoinbaseCurrencyState : Type := Z.
Definition CTransferDestination : Type := Z.

(** Notarization record.  [IsValid()] is implemented outside the files at
    hand; the record carries its outcome in [valid]. *)
Record CPBaaSNotarization : Type := mkNotarization {
  nVersion : Z;
  flags : Z;
  proposer : CTransferDestination;
  currencyID : uint160;
  currencyState : CCoinbaseCurrencyState;
  notarizationHeight : Z;
  prevNotarization : CUTXORef;
  prevHeight : Z;
  proofRoots : list (uint160 * CProofRoot);
  valid : bool
}.

(** A default-constructed (hence invalid) notarization. *)
Definition invalidNotarization : CPBaaSNotarization :=
  mkNotarization 0 0 0 0 0 0 nullRef 0 [] false.

(** [std::map<uint160, CProofRoot>]: [count] and [operator[]]. *)
Fixpoint findRoot (k : uint160) (m : list (uint160 * CProofRoot)) : option CProofRoot :=
  match m with
  | [] => None
  | (k', r) :: m' => if k' =? k then Some r else findRoot k m'
  end.

Record CObjectFinalization : Type := mkFinalization {
  fin_valid : bool;
  output : CUTXORef
}.

Record CReserveTransfer : Type := mkTransfer {
  rt_valid : bool;
  rt_flags : Z;
  FirstCurrency : uint160;
  destCurrencyID : uint160
}.

Inductive EvalCode : Type :=
| EVAL_NONE
| EVAL_RESERVE_TRANSFER
| EVAL_FINALIZE_NOTARIZATION
| EVAL_EARNEDNOTARIZATION
| EVAL_ACCEPTEDNOTARIZATION
| EVAL_OTHER (code : Z).

Definition isFinalizeEval (e : EvalCode) : bool :=
  match e with EVAL_FINALIZE_NOTARIZATION => true | _ => false end.
Definition isNotarizationEval (e : EvalCode) : bool :=
  match e with
  | EVAL_EARNEDNOTARIZATION | EVAL_ACCEPTEDNOTARIZATION => true
  | _ => false
  end.
Definition isTransferEval (e : EvalCode) : bool :=
  match e with EVAL_RESERVE_TRANSFER => true | _ => false end.

(** Modelled from the spec: the byte-level decoders of the elements of
    [COptCCParams::vData] are not among the files at hand; an element
    either decodes to a record or "deserializes invalidly".  An element is
    represented by the object it decodes to, and decoding it as anything
    else yields an invalid object. *)
Inductive VData : Type :=
| VFinalization (f : CObjectFinalization)
| VNotarization (nz : CPBaaSNotarization)
| VTransfer (rt : CReserveTransfer)
| VMaster (ok : bool)
| VRaw.

Record COptCCParams : Type := mkParams {
  cc_valid : bool;
  version : Z;
  evalCode : EvalCode;
  vData : list VData
}.

(** A script, seen through [IsPayToCryptoCondition(p)]: [None] when the
    test fails, otherwise the parameters it stores in [p]. *)
Record CScript : Type := mkScript { IsPayToCryptoCondition : option COptCCParams }.

Record CTxOut : Type := mkTxOut { scriptPubKey : CScript; nValue : Z }.
Record CTransaction : Type := mkTx { vout : list CTxOut }.

Definition emptyScript : CScript := mkScript None.
Definition nullTxOut : CTxOut := mkTxOut emptyScript (-1).

(** Decoders [CObjectFinalization(v)], [CPBaaSNotarization(v)],
    [CReserveTransfer(v)] and [COptCCParams(v)] of one data element. *)
Definition asFinalization (v : VData) : CObjectFinalization :=
  match v with VFinalization f => f | _ => mkFinalization false nullRef end.
Definition asNotarization (v : VData) : CPBaaSNotarization :=
  match v with VNotarization nz => nz | _ => invalidNotarization end.
Definition asTransfer (v : VData) : CReserveTransfer :=
  match v with VTransfer rt => rt | _ => mkTransfer false 0 0 0 end.
Definition asMasterValid (v : VData) : bool :=
  match v with VMaster ok => ok | _ => false end.

(** Modelled from the spec: the constructor [CPBaaSNotarization(script)] is
    not among the files at hand; a notarization output is resolved "to the
    record it finalizes", that is the record stored as the first data
    element of an earned or accepted notarization output, and anything else
    gives an invalid record. *)
Definition notarizationOfScript (s : CScript) : CPBaaSNotarization :=
  match IsPayToCryptoCondition s with
  | Some p =>
      if cc_valid p && isNotarizationEval (evalCode p)
      then match vData p with
           | v :: _ => asNotarization v
           | [] => invalidNotarization
           end
      else invalidNotarization
  | None => invalidNotarization
  end.

Record CCurrencyDefinition : Type := mkCurrency {
  def_valid : bool;
  IsToken : bool
}.

(** Address-index records. *)
Record CAddressUnspentKey : Type := mkUnspentKey { txhash : uint256; index : Z }.
Record CAddressUnspentValue : Type := mkUnspentValue {
  satoshis : Z;
  script : CScript;
  blockHeight : Z
}.
Record CAddressIndexKey : Type := mkIndexKey {
  ik_txhash : uint256;
  ik_index : Z;
  spending : bool
}.
Record CCoins : Type := mkCoins { coins_vout : list CTxOut; nHeight : Z }.

Definition UnspentEntry : Type := (CAddressUnspentKey * CAddressUnspentValue)%type.

(** [vout[i]] for an in-range index; the source never reads it otherwise
    except where noted. *)
Definition voutAt (outs : list CTxOut) (i : Z) : CTxOut :=
  nth (Z.to_nat i) outs nullTxOut.

Definition sizeGt (outs : list CTxOut) (i : Z) : bool :=
  i <? Z.of_nat (length outs).

(** [CCoins::IsAvailable], declared outside the files at hand: the output
    exists and has not been spent (nulled). *)
Definition IsAvailable (c : CCoins) (i : Z) : bool :=
  sizeGt (coins_vout c) i && negb (nValue (voutAt (coins_vout c) i) =? -1).

(** Everything the functions read from the node: chain state, indexes,
    caches and the constants declared outside the files at hand. *)
Record Env : Type := mkEnv {
  GetCachedCurrency : uint160 -> CCurrencyDefinition;
  chainHeight : Z;
  IsVerusActive : bool;
  ASSETCHAINS_CHAINID : uint160;
  VERUS_NOTARYID : uint160;
  VERUS_DEFAULTID : uint160;
  VERUS_NODEID : uint160;
  GetProofRoot : Z -> CProofRoot;
  GetCurrencyState : Z -> CCoinbaseCurrencyState;
  DestinationToTransferDestination : uint160 -> CTransferDestination;
  GetConditionID : uint160 -> uint160 -> uint160;
  ObjectFinalizationNotarizationKey : uint160;
  ObjectFinalizationConfirmedKey : uint160;
  ObjectFinalizationPendingKey : uint160;
  ReserveTransferKey : uint160;
  GetAddressUnspent : uint160 -> option (list UnspentEntry);
  GetAddressIndex : uint160 -> Z -> Z -> option (list (CAddressIndexKey * Z));
  myGetTransaction : uint256 -> option (CTransaction * uint256);
  GetCoins : uint256 -> option CCoins;
  inActiveChain : uint256 -> bool;
  VERSION_CURRENT : Z;
  FLAG_LAUNCH_CONFIRMED : Z;
  VERSION_V3 : Z;
  RT_VALID : Z;
  IMPORT_TO_SOURCE : Z
}.

(* ================================================================== *)
(** * Multimaps *)
(* ================================================================== *)

(** [std::multimap]: entries kept sorted by key, an inserted entry placed
    after the entries whose key is not greater (insertion order is kept
    among equal keys). *)
Section Multimap.
Context {K V : Type}.
Variable ltb : K -> K -> bool.
Variable eqb : K -> K -> bool.

Fixpoint mm_insert (k : K) (v : V) (m : list (K * V)) : list (K * V) :=
  match m with
  | [] => [(k, v)]
  | e :: m' => if ltb k (fst e) then (k, v) :: m else e :: mm_insert k v m'
  end.

(** [lower_bound(k)]: the suffix starting at the first key not less than [k]. *)
Fixpoint mm_lower_bound (k : K) (m : list (K * V)) : list (K * V) :=
  match m with
  | [] => []
  | e :: m' => if ltb (fst e) k then mm_lower_bound k m' else m
  end.

(** Walk from an iterator while the key equals [k]. *)
Fixpoint mm_while_eq (k : K) (m : list (K * V)) : list (K * V) :=
  match m with
  | [] => []
  | e :: m' => if eqb (fst e) k then e :: mm_while_eq k m' else []
  end.

Definition mm_run (k : K) (m : list (K * V)) : list (K * V) :=
  mm_while_eq k (mm_lower_bound k m).

(** [erase(k)]: drop every entry with that key. *)
Definition mm_erase (k : K) (m : list (K * V)) : list (K * V) :=
  filter (fun e => negb (eqb (fst e) k)) m.
End Multimap.

(* ================================================================== *)
(** * Transfer scans *)
(* ================================================================== *)

Record CInputDescriptor : Type := mkInput {
  in_script : CScript;
  in_nValue : Z;
  txIn : CUTXORef
}.

Inductive Channel : Type := DebugLog | Console.

(** "cannot retrieve transaction <hash>" on the given channel. *)
Record Diagnostic : Type := mkDiag { channel : Channel; subject : uint256 }.

(** Destination of a transfer: its first currency when the import-to-source
    flag is set, its declared destination otherwise. *)
Definition transferDest (env : Env) (rt : CReserveTransfer) : uint160 :=
  if negb (Z.land (rt_flags rt) (IMPORT_TO_SOURCE env) =? 0)
  then FirstCurrency rt else destCurrencyID rt.

Definition RangeTransfers : Type := list (uint160 * (CInputDescriptor * CReserveTransfer)).

(** The test of [GetChainTransfers] on one retrieved output. *)
Definition rangeTransferOf (env : Env) (nofilter : bool) (chainFilter : uint160)
           (flags : Z) (out : CTxOut) : option CReserveTransfer :=
  match IsPayToCryptoCondition (scriptPubKey out) with
  | Some p =>
      if isTransferEval (evalCode p) && (1 <? length (vData p))%nat
      then
        let rt := asTransfer (nth 0 (vData p) VRaw) in
        if rt_valid rt
           && asMasterValid (nth 1 (vData p) VRaw)
           && (nofilter || (transferDest env rt =? chainFilter))
           && (Z.land (rt_flags rt) flags =? flags)
        then Some rt else None
      else None
  | None => None
  end.

(** The loop of [GetChainTransfers]; [ntx.vout[index]] is read unchecked in
    the source, an index past the end is read here as an empty output. *)
Fixpoint chainTransfersLoop (env : Env) (nofilter : bool) (chainFilter : uint160)
         (flags : Z) (addressIndex : list (CAddressIndexKey * Z))
         (inputDescriptors : RangeTransfers) (log : list Diagnostic)
  : bool * RangeTransfers * list Diagnostic :=
  match addressIndex with
  | [] => (true, inputDescriptors, log)
  | it :: rest =>
      if spending (fst it)
      then chainTransfersLoop env nofilter chainFilter flags rest inputDescriptors log
      else
        match myGetTransaction env (ik_txhash (fst it)) with
        | Some (ntx, _) =>
            let out := voutAt (vout ntx) (ik_index (fst it)) in
            let inputDescriptors' :=
              match rangeTransferOf env nofilter chainFilter flags out with
              | Some rt =>
                  mm_insert Z.ltb (transferDest env rt)
                    (mkInput (scriptPubKey out) (nValue out)
                             (mkRef (ik_txhash (fst it)) (ik_index (fst it))), rt)
                    inputDescriptors
              | None => inputDescriptors
              end in
            chainTransfersLoop env nofilter chainFilter flags rest inputDescriptors' log
        | None =>
            (false, inputDescriptors,
             log ++ [mkDiag DebugLog (ik_txhash (fst it));
                     mkDiag Console (ik_txhash (fst it))])
        end
  end.

Definition GetChainTransfers (env : Env) (inputDescriptors : RangeTransfers)
           (chainFilter : uint160) (start end_ : Z) (flags : Z)
  : bool * RangeTransfers * list Diagnostic :=
  let flags := if flags =? 0 then RT_VALID env else flags in
  let nofilter := IsNull chainFilter in
  match GetAddressIndex env (ReserveTransferKey env) start end_ with
  | None => (false, inputDescriptors, [])
  | Some addressIndex =>
      chainTransfersLoop env nofilter chainFilter flags addressIndex inputDescriptors []
  end.

(** [ChainTransferData]: height, input descriptor, transfer. *)
Definition ChainTransferData : Type := (Z * CInputDescriptor * CReserveTransfer)%type.
Definition UnspentTransfers : Type := list (uint160 * ChainTransferData).

(** The test of [GetUnspentChainTransfers] on one available output. *)
Definition unspentTransferOf (env : Env) (nofilter : bool) (chainFilter : uint160)
           (out : CTxOut) : option (uint160 * CReserveTransfer) :=
  match IsPayToCryptoCondition (scriptPubKey out) with
  | Some p =>
      if isTransferEval (evalCode p)
         && negb (length (vData p) =? 0)%nat
         && (VERSION_V3 env <=? version p)
         && asMasterValid (last (vData p) VRaw)
      then
        let rt := asTransfer (nth 0 (vData p) VRaw) in
        let destCID := transferDest env rt in
        if rt_valid rt && negb (IsNull destCID)
           && (nofilter || (destCID =? chainFilter))
        then Some (destCID, rt) else None
      else None
  | None => None
  end.

Fixpoint unspentTransfersLoop (env : Env) (nofilter : bool) (chainFilter : uint160)
         (unspentOutputs : list UnspentEntry)
         (inputDescriptors : UnspentTransfers) (log : list Diagnostic)
  : UnspentTransfers * list Diagnostic :=
  match unspentOutputs with
  | [] => (inputDescriptors, log)
  | it :: rest =>
      match GetCoins env (txhash (fst it)) with
      | Some coins =>
          let inputDescriptors' :=
            if IsAvailable coins (index (fst it))
            then
              let out := voutAt (coins_vout coins) (index (fst it)) in
              match unspentTransferOf env nofilter chainFilter out with
              | Some (destCID, rt) =>
                  mm_insert Z.ltb destCID
                    (nHeight coins,
                     mkInput (scriptPubKey out) (nValue out)
                             (mkRef (txhash (fst it)) (index (fst it))),
                     rt)
                    inputDescriptors
              | None => inputDescriptors
              end
            else inputDescriptors in
          unspentTransfersLoop env nofilter chainFilter rest inputDescriptors' log
      | None =>
          unspentTransfersLoop env nofilter chainFilter rest inputDescriptors
            (log ++ [mkDiag Console (txhash (fst it))])
      end
  end.

Definition GetUnspentChainTransfers (env : Env) (inputDescriptors : UnspentTransfers)
           (chainFilter : uint160) : bool * UnspentTransfers * list Diagnostic :=
  let nofilter := IsNull chainFilter in
  match GetAddressUnspent env (ReserveTransferKey env) with
  | None => (false, inputDescriptors, [])
  | Some unspentOutputs =>
      let '(ins, log) :=
        unspentTransfersLoop env nofilter chainFilter unspentOutputs inputDescriptors [] in
      (true, ins, log)
  end.

(* ================================================================== *)
(** * Chain power *)
(* ================================================================== *)

(** The class [CChainPower] is declared outside the files at hand and is
    taken as a parameter: [GetNotarizationData] uses its default
    constructor, the expansion of a compact power (given the fork index)
    and [operator>]. *)
Class ChainPowerOps (P : Type) : Type := {
  defaultPower : P;
  ExpandCompactPower : uint256 -> Z -> P;
  power_gt : P -> P -> bool
}.

(** Modelled from the spec: the comparison of chain powers is not among the
    files at hand.  It yields an "ordering" and "ties break deterministically
    on fork index (lower wins, as first discovered)": the comparison is a
    strict order whose incomparability is transitive, and of two expansions
    of one compact value the one with the later index never ranks above the
    other. *)
Class ChainPowerOrder (P : Type) `{ChainPowerOps P} : Prop := {
  power_gt_irrefl :
    forall a : P, power_gt a a = false;
  power_gt_trans :
    forall a b c : P, power_gt a b = true -> power_gt b c = true -> power_gt a c = true;
  power_gt_negtrans :
    forall a b c : P, power_gt a b = false -> power_gt b c = false -> power_gt a c = false;
  power_tie_lower :
    forall (c : uint256) (i j : Z), i <= j ->
      power_gt (ExpandCompactPower c j) (ExpandCompactPower c i) = false
}.

Module SpecPower.

(** Modelled from the spec: the Chain-Power Comparator is not among the
  files at hand.  It "expands compact accumulated-power values and
  compares primarily by accumulated work/stake; ties break
  deterministically on fork index (lower wins, as first discovered)". *)
Record CChainPower : Type := mkPower { accumulated : Z; forkIndex : Z }.

Definition expand (compact : uint256) (idx : Z) : CChainPower :=
  mkPower compact idx.

Definition gt (a b : CChainPower) : bool :=
  (accumulated b <? accumulated a)
  || ((accumulated a =? accumulated b) && (forkIndex a <? forkIndex b)).

#[global] Instance ops : ChainPowerOps CChainPower := {
  defaultPower := mkPower 0 0;
  ExpandCompactPower := expand;
  power_gt := gt
  }.

End SpecPower.

(* ================================================================== *)
(** * GetNotarizationData *)
(* ================================================================== *)

Definition Entry : Type := (CUTXORef * CPBaaSNotarization)%type.

Record CChainNotarizationData : Type := mkData {
  vtx : list Entry;
  lastConfirmed : Z;
  forks : list (list nat);
  bestChain : Z
}.

(** [CChainNotarizationData(std::vector<...>())]: no entries, no forks, both
    indexes unset. *)
Definition emptyData : CChainNotarizationData := mkData [] (-1) [] (-1).

Definition defaultEntry : Entry := (nullRef, invalidNotarization).

(** [vtx[fork.back()]] *)
Definition tipEntry (v : list Entry) (f : list nat) : Entry :=
  nth (last f 0%nat) v defaultEntry.

Definition uint32 (x : Z) : Z := x mod 2 ^ 32.

(** ** Seed step *)

Definition localGuard (env : Env) (cur : uint160) : bool :=
  (IsVerusActive env || (uint32 (chainHeight env) =? 0))
  && (cur =? ASSETCHAINS_CHAINID env).

(** The record made for the chain's own currency; it is built by the full
    constructor and counts as valid. *)
Definition localNotarization (env : Env) (cur : uint160) : CPBaaSNotarization :=
  let height := uint32 (chainHeight env) in
  let proposer :=
    if IsNull (VERUS_NOTARYID env)
    then (if IsNull (VERUS_DEFAULTID env) then VERUS_NODEID env else VERUS_DEFAULTID env)
    else VERUS_NOTARYID env in
  mkNotarization (VERSION_CURRENT env) (FLAG_LAUNCH_CONFIRMED env)
                 (DestinationToTransferDestination env proposer)
                 cur (GetCurrencyState env height) height nullRef 0
                 [(ASSETCHAINS_CHAINID env, GetProofRoot env height)] true.

(** The loop choosing the confirmed finalization of greatest block height;
    the first of equal heights is kept. *)
Definition latestConfirmed (first : UnspentEntry) (all : list UnspentEntry) : UnspentEntry :=
  fold_left
    (fun bestIt oneIt =>
       if blockHeight (snd bestIt) <? blockHeight (snd oneIt) then oneIt else bestIt)
    all first.

Definition pushSeed (nd : CChainNotarizationData) (txInfo : CUTXORef)
           (nz : CPBaaSNotarization) : CChainNotarizationData :=
  mkData (vtx nd ++ [(txInfo, nz)]) 0 [[0%nat]] 0.

Inductive SeedOutcome : Type :=
| SeedFailed                                  (* return false *)
| SeedReturn (nd : CChainNotarizationData)    (* return true *)
| SeedNext (nd : CChainNotarizationData).     (* fall through *)

(** A finalization names the output it finalizes; a null hash there means
    the finalization's own transaction. *)
Definition finalizedRef (own : uint256) (f : CObjectFinalization) : CUTXORef :=
  mkRef (if IsNull (hash (output f)) then own else hash (output f)) (n (output f)).

Definition seedFromEntry (env : Env) (chainDef : CCurrencyDefinition) (wantTx : bool)
           (nd : CChainNotarizationData) (bestIt : UnspentEntry) : SeedOutcome :=
  match IsPayToCryptoCondition (script (snd bestIt)) with
  | None => SeedFailed
  | Some p =>
      if negb (cc_valid p)
         || negb (isFinalizeEval (evalCode p) || isNotarizationEval (evalCode p))
         || (length (vData p) =? 0)%nat
      then SeedFailed
      else
        let txInfo := mkRef (txhash (fst bestIt)) (index (fst bestIt)) in
        if isFinalizeEval (evalCode p)
        then
          let txInfo := finalizedRef (hash txInfo) (asFinalization (nth 0 (vData p) VRaw)) in
          match myGetTransaction env (hash txInfo) with
          | Some (nTx, _) =>
              if sizeGt (vout nTx) (n txInfo)
              then
                let thisNotarization :=
                  notarizationOfScript (scriptPubKey (voutAt (vout nTx) (n txInfo))) in
                if negb (valid thisNotarization) then SeedFailed
                else SeedNext (pushSeed nd txInfo thisNotarization)
              else SeedNext nd
          | None => SeedNext nd
          end
        else
          let thisNotarization := asNotarization (nth 0 (vData p) VRaw) in
          if negb (valid thisNotarization) then SeedFailed
          else
            let nd' := pushSeed nd txInfo thisNotarization in
            let txOk :=
              if wantTx
              then match myGetTransaction env (hash txInfo) with
                   | Some (nTx, _) =>
                       sizeGt (vout nTx) (n txInfo)
                       && valid (notarizationOfScript
                                   (scriptPubKey (voutAt (vout nTx) (n txInfo))))
                   | None => false
                   end
              else true in
            if negb txOk then SeedFailed
            else if IsToken chainDef then SeedReturn nd' else SeedNext nd'
  end.

Definition finalizeNotarizationKey (env : Env) (cur : uint160) : uint160 :=
  GetConditionID env cur (ObjectFinalizationNotarizationKey env).
Definition confirmedNotarizationKey (env : Env) (cur : uint160) : uint160 :=
  GetConditionID env (finalizeNotarizationKey env cur) (ObjectFinalizationConfirmedKey env).
Definition pendingNotarizationKey (env : Env) (cur : uint160) : uint160 :=
  GetConditionID env (finalizeNotarizationKey env cur) (ObjectFinalizationPendingKey env).

(** Everything up to the test for a confirmed starting point. *)
Definition seedStep (env : Env) (cur : uint160) (wantTx : bool) : SeedOutcome :=
  let chainDef := GetCachedCurrency env cur in
  if negb (def_valid chainDef) then SeedFailed
  else if localGuard env cur
  then SeedReturn (mkData [(nullRef, localNotarization env cur)] 0 [[0%nat]] 0)
  else
    let afterLookup :=
      match GetAddressUnspent env (confirmedNotarizationKey env cur) with
      | Some (first :: rest) =>
          seedFromEntry env chainDef wantTx emptyData (latestConfirmed first (first :: rest))
      | _ => SeedNext emptyData
      end in
    match afterLookup with
    | SeedNext nd => if (length (vtx nd) =? 0)%nat then SeedFailed else SeedNext nd
    | other => other
    end.

(** ** Growth candidates *)

Definition References : Type := list (CUTXORef * Entry).

(** One pending finalization: the entry it contributes, keyed by the
    notarization it extends, or [None] when it is skipped. *)
Definition resolvePending (env : Env) (it : UnspentEntry) : option (CUTXORef * Entry) :=
  match IsPayToCryptoCondition (script (snd it)) with
  | Some p =>
      if cc_valid p && isFinalizeEval (evalCode p) && negb (length (vData p) =? 0)%nat
      then
        let f := asFinalization (nth 0 (vData p) VRaw) in
        if fin_valid f
        then
          match myGetTransaction env
                  (if IsNull (hash (output f)) then txhash (fst it) else hash (output f)) with
          | Some (nTx, blkHash) =>
              if sizeGt (vout nTx) (n (output f))
              then
                match IsPayToCryptoCondition (scriptPubKey (voutAt (vout nTx) (n (output f)))) with
                | Some p2 =>
                    if cc_valid p2 && isNotarizationEval (evalCode p2)
                       && negb (length (vData p2) =? 0)%nat
                    then
                      let nz := asNotarization (nth 0 (vData p2) VRaw) in
                      if valid nz && negb (IsNull blkHash) && inActiveChain env blkHash
                      then Some (prevNotarization nz, (finalizedRef (txhash (fst it)) f, nz))
                      else None
                    else None
                | None => None
                end
              else None
          | None => None
          end
        else None
      else None
  | None => None
  end.

Definition collectPending (env : Env) (pendingFinalizations : list UnspentEntry) : References :=
  fold_left
    (fun refs it =>
       match resolvePending env it with
       | Some (k, v) => mm_insert ref_ltb k v refs
       | None => refs
       end)
    pendingFinalizations [].

(** ** Fixed-point expansion *)

(** [forks[forkNum].push_back(x)] *)
Fixpoint pushAt (forkNum : nat) (x : nat) (fs : list (list nat)) : list (list nat) :=
  match fs, forkNum with
  | [], _ => []
  | f :: fs', O => (f ++ [x]) :: fs'
  | f :: fs', S k => f :: pushAt k x fs'
  end.

(** A copy of a fork with its last index replaced:
    [forks.push_back(forks[forkNum]); forks.back().back() = x]. *)
Definition cloneWithTip (f : list nat) (x : nat) : list nat := removelast f ++ [x].

(** State of the expansion: the entries, the forks, the references not yet
    consumed and the [somethingAdded] flag. *)
Record Growth : Type := mkGrowth {
  g_vtx : list Entry;
  g_forks : list (list nat);
  g_refs : References;
  somethingAdded : bool
}.

(** The loop over the references whose key is the tip of fork [forkNum]. *)
Fixpoint addMatches (forkNum : nat) (matches : list (CUTXORef * Entry))
         (v : list Entry) (fs : list (list nat)) (newFork added : bool)
  : list Entry * list (list nat) * bool :=
  match matches with
  | [] => (v, fs, added)
  | pendingIt :: rest =>
      let v' := v ++ [snd pendingIt] in
      if newFork
      then addMatches forkNum rest v'
                      (fs ++ [cloneWithTip (nth forkNum fs []) (length v' - 1)%nat])
                      true added
      else addMatches forkNum rest v'
                      (pushAt forkNum (length v' - 1)%nat fs)
                      true true
  end.

(** Body of the loop over fork numbers. *)
Definition growFork (forkNum : nat) (g : Growth) : Growth :=
  let searchRef := fst (tipEntry (g_vtx g) (nth forkNum (g_forks g) [])) in
  let '(v, fs, added) :=
    addMatches forkNum (mm_run ref_ltb ref_eqb searchRef (g_refs g))
               (g_vtx g) (g_forks g) false (somethingAdded g) in
  mkGrowth v fs (mm_erase ref_eqb searchRef (g_refs g)) added.

(** [for (forkNum = from; forkNum < from + count; forkNum++)] *)
Fixpoint growPass (count from : nat) (g : Growth) : Growth :=
  match count with
  | O => g
  | S count' => growPass count' (S from) (growFork from g)
  end.

(** [while (somethingAdded && notarizationReferences.size())], unfolded at
    most [fuel] times. *)
Fixpoint growLoop (fuel : nat) (g : Growth) : Growth :=
  match fuel with
  | O => g
  | S fuel' =>
      if somethingAdded g && negb (length (g_refs g) =? 0)%nat
      then
        let g0 := mkGrowth (g_vtx g) (g_forks g) (g_refs g) false in
        growLoop fuel' (growPass (length (g_forks g0)) 0 g0)
      else g
  end.

(** Every productive pass consumes a reference, so one more unfolding than
    there are references is enough for the loop to stop by itself. *)
Definition growForks (nd : CChainNotarizationData) (refs : References) : Growth :=
  growLoop (S (length refs)) (mkGrowth (vtx nd) (forks nd) refs true).

(** ** Selection *)

Section Selection.
Context {P : Type} `{ChainPowerOps P}.

(** The expanded power of a fork's tip for the currency, if its tip has a
  proof root for it. *)
Definition tipPower (cur : uint160) (v : list Entry) (f : list nat) (i : nat) : option P :=
  match findRoot cur (proofRoots (snd (tipEntry v f))) with
  | Some root => Some (ExpandCompactPower (compactPower root) (Z.of_nat i))
  | None => None
  end.

Fixpoint selectLoop (cur : uint160) (v : list Entry) (fs : list (list nat))
         (i : nat) (best : P) (chosen : Z) : Z :=
  match fs with
  | [] => chosen
  | f :: fs' =>
      match tipPower cur v f i with
      | Some curPower =>
          if power_gt curPower best
          then selectLoop cur v fs' (S i) curPower (Z.of_nat i)
          else selectLoop cur v fs' (S i) best chosen
      | None => selectLoop cur v fs' (S i) best chosen
      end
  end.

Definition selectBestChain (cur : uint160) (v : list Entry) (fs : list (list nat)) : Z :=
  selectLoop cur v fs 0 defaultPower 0.

(** The part run when the pending index is not empty. *)
Definition resolvePendingForks (env : Env) (cur : uint160)
           (nd : CChainNotarizationData) (pendingFinalizations : list UnspentEntry)
  : CChainNotarizationData :=
  let g := growForks nd (collectPending env pendingFinalizations) in
  mkData (g_vtx g) (lastConfirmed nd) (g_forks g)
         (selectBestChain cur (g_vtx g) (g_forks g)).

(** [None] is [return false]; the out-parameter is then not looked at.
  [wantTx] tells whether [optionalTxOut] was passed; the transactions
  pushed to it are not part of the model. *)
Definition GetNotarizationData (env : Env) (cur : uint160) (wantTx : bool)
  : option CChainNotarizationData :=
  match seedStep env cur wantTx with
  | SeedFailed => None
  | SeedReturn nd => Some nd
  | SeedNext nd =>
      let nd' :=
        match GetAddressUnspent env (pendingNotarizationKey env cur) with
        | Some (first :: rest) => resolvePendingForks env cur nd (first :: rest)
        | _ => nd
        end in
      if (length (vtx nd') =? 0)%nat then None else Some nd'
  end.
End Selection.

(* ================================================================== *)
(** * Wallet database: [CWalletDB::WriteTxn] of [src/wallet/walletdb.h] *)
(* ================================================================== *)

(** A [std::string], as its bytes. *)
Definition std_string : Type := list Z.

(** The messages [WriteTxn] logs. *)
Inductive WriteTxnMessage : Type :=
| FailedToBegin          (* "%s: Failed to begin txn, will retry." *)
| FailedToWrite          (* "%s: Failed to write txn, will retry." *)
| FailedToCommit         (* "%s: Failed to commit txn, warning." *)
| FailedRetry (attempts : Z). (* "%s Failed!!! Retry, attempts #%d." *)

(** What [WriteTxn] does to the database and to the outside, in order. *)
Inductive DbEvent : Type :=
| EvTxnBegin (ok : bool)
| EvTxnAbort
| EvTxnSetTimeout
| EvWrite (ok : bool)
| EvTxnCommit (ok : bool)
| EvMilliSleep (ms : Z)
| EvLogPrintf (calling : std_string) (msg : WriteTxnMessage).

(** The operations of [CDB] that [WriteTxn] calls, over a database state
    [DB]; they are declared in [wallet/db.h], outside the files at hand,
    and are taken as they come.  The result of [TxnAbort] is never looked
    at. *)
Record DbOps (DB K T : Type) : Type := mkDbOps {
  TxnBegin : DB -> bool * DB;
  TxnAbort : DB -> DB;
  TxnSetTimeout : DB -> DB;
  Write : K -> T -> bool -> DB -> bool * DB;
  TxnCommit : DB -> bool * DB
}.
Arguments TxnBegin {DB K T}.
Arguments TxnAbort {DB K T}.
Arguments TxnSetTimeout {DB K T}.
Arguments Write {DB K T}.
Arguments TxnCommit {DB K T}.

Section WalletDB.
Context {DB K T : Type}.
Variable ops : DbOps DB K T.

(** The database together with the calls made so far. *)
Definition DbRun : Type := (DB * list DbEvent)%type.

(** The first half of the loop body: one attempt to begin, write and
    commit; the boolean is [txnWrite]. *)
Definition writeAttempt (key : K) (value : T) (calling : std_string) (fOverwrite : bool)
           (run : DbRun) : bool * DbRun :=
  let '(db, trace) := run in
  let '(began, db) := TxnBegin ops db in
  let trace := trace ++ [EvTxnBegin began] in
  if negb began
  then (false, (TxnAbort ops db, trace ++ [EvLogPrintf calling FailedToBegin; EvTxnAbort]))
  else
    let db := TxnSetTimeout ops db in
    let '(txnWrite, db) := Write ops key value fOverwrite db in
    let trace := trace ++ [EvTxnSetTimeout; EvWrite txnWrite] in
    if negb txnWrite
    then (false, (TxnAbort ops db, trace ++ [EvLogPrintf calling FailedToWrite; EvTxnAbort]))
    else
      let '(committed, db) := TxnCommit ops db in
      (true, (db, trace ++ [EvTxnCommit committed]
                        ++ (if negb committed
                            then [EvLogPrintf calling FailedToCommit] else []))).

(** [while(!txnWrite)], unfolded at most [fuel] times; [None] when the
    unfoldings run out. *)
Fixpoint WriteTxnLoop (fuel : nat) (key : K) (value : T) (calling : std_string)
         (fOverwrite : bool) (retries : Z) (run : DbRun) : option (bool * DbRun) :=
  match fuel with
  | O => None
  | S fuel' =>
      let '(txnWrite, (db, trace)) := writeAttempt key value calling fOverwrite run in
      let '(retries, (db, trace)) :=
        if negb txnWrite
        then (retries + 1, (TxnAbort ops db, trace ++ [EvTxnAbort; EvMilliSleep 500]))
        else (retries, (db, trace)) in
      if 3 <? retries
      then Some (false, (db, trace ++ [EvLogPrintf calling (FailedRetry (retries - 1))]))
      else if txnWrite
           then Some (true, (db, trace))
           else WriteTxnLoop fuel' key value calling fOverwrite retries (db, trace)
  end.

(** Four unfoldings are all the loop can take: [retries] starts at 0 and an
    unfolding that does not return adds one to it. *)
Definition WriteTxn (key : K) (value : T) (calling : std_string) (fOverwrite : bool)
           (run : DbRun) : option (bool * DbRun) :=
  WriteTxnLoop 4 key value calling fOverwrite 0 run.
End WalletDB.

(* ================================================================== *)
(** * Wallet records: [CHDChain] and [CKeyMetadata] of [src/wallet/walletdb.h] *)
(* ================================================================== *)

(** A data stream, as its bytes: serializing appends at the end,
    unserializing takes from the front. *)
Definition Stream : Type := list Z.

(** [::Serialize] and [::Unserialize] of a field type; they are declared in
    [serialize.h], outside the files at hand, and are taken as they come.
    [None] stands for the exception raised when the stream does not hold
    the value. *)
Record Codec (A : Type) : Type := mkCodec {
  Serialize : A -> Stream;
  Unserialize : Stream -> option (A * Stream)
}.
Arguments Serialize {A}.
Arguments Unserialize {A}.

Inductive SerAction : Type := CSerActionSerialize | CSerActionUnserialize.

(** [READWRITE(field)]: written to the stream, or read from it into the
    object, according to the action. *)
Definition READWRITE {Obj A : Type} (c : Codec A) (get : Obj -> A) (set : A -> Obj -> Obj)
           (ser_action : SerAction) (st : Stream * Obj) : option (Stream * Obj) :=
  match ser_action with
  | CSerActionSerialize => Some (fst st ++ Serialize c (get (snd st)), snd st)
  | CSerActionUnserialize =>
      match Unserialize c (fst st) with
      | Some (x, rest) => Some (rest, set x (snd st))
      | None => None
      end
  end.

(** Sequencing of the statements of a [SerializationOp]. *)
Definition andThen {St : Type} (first : option St) (next : St -> option St) : option St :=
  match first with
  | Some st => next st
  | None => None
  end.

(** The codecs of the field types used by the two records. *)
Record FieldCodecs : Type := mkFieldCodecs {
  int_codec : Codec Z;
  int64_codec : Codec Z;
  uint32_codec : Codec Z;
  uint256_codec : Codec uint256;
  string_codec : Codec std_string
}.

Module CHDChain.

Definition VERSION_HD_BASE : Z := 1.
Definition CURRENT_VERSION : Z := VERSION_HD_BASE.

Record t : Type := mk {
  nVersion : Z;
  seedFp : uint256;
  nCreateTime : Z;
  saplingAccountCounter : Z
}.

Definition SerializationOp (fc : FieldCodecs) (ser_action : SerAction)
           (st : Stream * t) : option (Stream * t) :=
  andThen (READWRITE (int_codec fc) nVersion
                     (fun x o => mk x (seedFp o) (nCreateTime o) (saplingAccountCounter o))
                     ser_action st) (fun st =>
  andThen (READWRITE (uint256_codec fc) seedFp
                     (fun x o => mk (nVersion o) x (nCreateTime o) (saplingAccountCounter o))
                     ser_action st) (fun st =>
  andThen (READWRITE (int64_codec fc) nCreateTime
                     (fun x o => mk (nVersion o) (seedFp o) x (saplingAccountCounter o))
                     ser_action st) (fun st =>
  READWRITE (uint32_codec fc) saplingAccountCounter
            (fun x o => mk (nVersion o) (seedFp o) (nCreateTime o) x)
            ser_action st))).

Definition SetNull (o : t) : t := mk CURRENT_VERSION 0 0 0.

End CHDChain.

Module CKeyMetadata.

Definition VERSION_BASIC : Z := 1.
Definition VERSION_WITH_HDDATA : Z := 10.
Definition CURRENT_VERSION : Z := VERSION_WITH_HDDATA.

Record t : Type := mk {
  nVersion : Z;
  nCreateTime : Z;
  hdKeypath : std_string;
  seedFp : uint256
}.

(** The HD fields are read or written only when the version, as it stands
    after the first [READWRITE], is at least [VERSION_WITH_HDDATA]. *)
Definition SerializationOp (fc : FieldCodecs) (ser_action : SerAction)
           (st : Stream * t) : option (Stream * t) :=
  andThen (READWRITE (int_codec fc) nVersion
                     (fun x o => mk x (nCreateTime o) (hdKeypath o) (seedFp o))
                     ser_action st) (fun st =>
  andThen (READWRITE (int64_codec fc) nCreateTime
                     (fun x o => mk (nVersion o) x (hdKeypath o) (seedFp o))
                     ser_action st) (fun st =>
  if VERSION_WITH_HDDATA <=? nVersion (snd st)
  then
    andThen (READWRITE (string_codec fc) hdKeypath
                       (fun x o => mk (nVersion o) (nCreateTime o) x (seedFp o))
                       ser_action st) (fun st =>
    READWRITE (uint256_codec fc) seedFp
              (fun x o => mk (nVersion o) (nCreateTime o) (hdKeypath o) x)
              ser_action st)
  else Some st)).

Definition SetNull (o : t) : t := mk CURRENT_VERSION 0 [] 0.

(** [CKeyMetadata()] and [CKeyMetadata(int64_t nCreateTime_)]. *)
Definition fresh : t := SetNull (mk 0 0 [] 0).
Definition created (nCreateTime_ : Z) : t :=
  let o := SetNull (mk 0 0 [] 0) in mk (nVersion o) nCreateTime_ (hdKeypath o) (seedFp o).

End CKeyMetadata.

(* ================================================================== *)
(** * Key store: the inline accessors of [CBasicKeyStore] in [src/keystore.h] *)
(* ================================================================== *)

(** [std::map] and [std::set], as lists in key order, over a key type
    compared by its [operator<] alone: two keys are the same key when
    neither is less than the other. *)
Section OrderedContainers.
Context {K V : Type}.
Variable less : K -> K -> bool.

Definition equivalent (a b : K) : bool := negb (less a b) && negb (less b a).

(** [find(k)]: the value stored under the key, if there is one. *)
Fixpoint map_find (k : K) (m : list (K * V)) : option V :=
  match m with
  | [] => None
  | e :: m' => if equivalent (fst e) k then Some (snd e) else map_find k m'
  end.

(** [count(k)] *)
Definition map_count (k : K) (m : list (K * V)) : nat :=
  length (filter (fun e => equivalent (fst e) k) m).

(** [std::map::insert]: a key already present keeps its value. *)
Fixpoint map_insert (k : K) (v : V) (m : list (K * V)) : list (K * V) :=
  match m with
  | [] => [(k, v)]
  | e :: m' =>
      if less k (fst e) then (k, v) :: m
      else if less (fst e) k then e :: map_insert k v m'
           else m
  end.

(** [std::set::insert] *)
Fixpoint set_insert (x : K) (s : list K) : list K :=
  match s with
  | [] => [x]
  | y :: s' =>
      if less x y then x :: s
      else if less y x then y :: set_insert x s'
           else s
  end.
End OrderedContainers.

(** The key and address types of the store and their orders, declared
    outside the files at hand. *)
Class KeyTypes : Type := {
  CKey : Type;
  SproutPaymentAddress : Type;
  SproutSpendingKey : Type;
  SproutViewingKey : Type;
  ZCNoteDecryption : Type;
  SaplingExtendedFullViewingKey : Type;
  SaplingExtendedSpendingKey : Type;
  SaplingPaymentAddress : Type;
  SaplingIncomingViewingKey : Type;
  sprout_less : SproutPaymentAddress -> SproutPaymentAddress -> bool;
  extfvk_less : SaplingExtendedFullViewingKey -> SaplingExtendedFullViewingKey -> bool;
  sapling_less : SaplingPaymentAddress -> SaplingPaymentAddress -> bool
}.

Definition CKeyID : Type := uint160.

Section KeyStore.
Context `{KeyTypes}.

(** The maps read by the inline accessors. *)
Record CBasicKeyStore : Type := mkKeyStore {
  mapKeys : list (CKeyID * CKey);
  mapSproutSpendingKeys : list (SproutPaymentAddress * SproutSpendingKey);
  mapSproutViewingKeys : list (SproutPaymentAddress * SproutViewingKey);
  mapNoteDecryptors : list (SproutPaymentAddress * ZCNoteDecryption);
  mapSaplingSpendingKeys : list (SaplingExtendedFullViewingKey * SaplingExtendedSpendingKey);
  mapSaplingIncomingViewingKeys : list (SaplingPaymentAddress * SaplingIncomingViewingKey)
}.

(** The accessors with an out-parameter return it next to their result. *)
Definition getFrom {K V : Type} (less : K -> K -> bool) (m : list (K * V))
           (k : K) (out : V) : bool * V :=
  match map_find less k m with
  | Some v => (true, v)
  | None => (false, out)
  end.

(** The loop inserting every key of a map into a set. *)
Definition insertKeys {K V : Type} (less : K -> K -> bool) (m : list (K * V))
           (setAddress : list K) : list K :=
  fold_left (fun s e => set_insert less (fst e) s) m setAddress.

Definition HaveKey (ks : CBasicKeyStore) (address : CKeyID) : bool :=
  (0 <? map_count Z.ltb address (mapKeys ks))%nat.

Definition GetKeys (ks : CBasicKeyStore) (setAddress : list CKeyID) : list CKeyID :=
  let setAddress : list CKeyID := [] in
  insertKeys Z.ltb (mapKeys ks) setAddress.

Definition GetKey (ks : CBasicKeyStore) (address : CKeyID) (keyOut : CKey) : bool * CKey :=
  getFrom Z.ltb (mapKeys ks) address keyOut.

Definition HaveSproutSpendingKey (ks : CBasicKeyStore) (address : SproutPaymentAddress)
  : bool :=
  (0 <? map_count sprout_less address (mapSproutSpendingKeys ks))%nat.

Definition GetSproutSpendingKey (ks : CBasicKeyStore) (address : SproutPaymentAddress)
           (skOut : SproutSpendingKey) : bool * SproutSpendingKey :=
  getFrom sprout_less (mapSproutSpendingKeys ks) address skOut.

Definition GetNoteDecryptor (ks : CBasicKeyStore) (address : SproutPaymentAddress)
           (decOut : ZCNoteDecryption) : bool * ZCNoteDecryption :=
  getFrom sprout_less (mapNoteDecryptors ks) address decOut.

Definition GetSproutPaymentAddresses (ks : CBasicKeyStore)
           (setAddress : list SproutPaymentAddress) : list SproutPaymentAddress :=
  let setAddress : list SproutPaymentAddress := [] in
  let setAddress := insertKeys sprout_less (mapSproutSpendingKeys ks) setAddress in
  insertKeys sprout_less (mapSproutViewingKeys ks) setAddress.

Definition HaveSaplingSpendingKey (ks : CBasicKeyStore)
           (extfvk : SaplingExtendedFullViewingKey) : bool :=
  (0 <? map_count extfvk_less extfvk (mapSaplingSpendingKeys ks))%nat.

Definition GetSaplingSpendingKey (ks : CBasicKeyStore)
           (extfvk : SaplingExtendedFullViewingKey) (skOut : SaplingExtendedSpendingKey)
  : bool * SaplingExtendedSpendingKey :=
  getFrom extfvk_less (mapSaplingSpendingKeys ks) extfvk skOut.

Definition GetSaplingPaymentAddresses (ks : CBasicKeyStore)
           (setAddress : list SaplingPaymentAddress) : list SaplingPaymentAddress :=
  let setAddress : list SaplingPaymentAddress := [] in
  insertKeys sapling_less (mapSaplingIncomingViewingKeys ks) setAddress.
End KeyStore.

(* ================================================================== *)
(** * JSON objects as maps: [UniObjectToMap] and [MapToUniObject] *)
(* ================================================================== *)

(** [operator<] of [std::string]: byte by byte, a proper prefix first. *)
Fixpoint string_less (a b : std_string) : bool :=
  match a, b with
  | _, [] => false
  | [], _ :: _ => true
  | x :: a', y :: b' => (x <? y) || ((x =? y) && string_less a' b')
  end.

(** [UniValue], declared outside the files at hand.  An object holds its
    keys and its values in two vectors of equal length; they are kept here
    as one list of pairs, of which [getKeys] and [getValues] are the two
    sides. *)
#[warnings="-register-all"]
Inductive UniValue : Type :=
| VNULL
| VBOOL (b : bool)
| VNUM (val : std_string)
| VSTR (val : std_string)
| VARR (values : list UniValue)
| VOBJ (entries : list (std_string * UniValue)).

Definition isObject (obj : UniValue) : bool :=
  match obj with VOBJ _ => true | _ => false end.

Definition getKeys (obj : UniValue) : list std_string :=
  match obj with VOBJ entries => map fst entries | _ => [] end.

Definition getValues (obj : UniValue) : list UniValue :=
  match obj with
  | VOBJ entries => map snd entries
  | VARR values => values
  | _ => []
  end.

(** [std::map<std::string, UniValue>] *)
Definition UniMap : Type := list (std_string * UniValue).

(** The loop over [i] reads [keys[i]] and [values[i]] and inserts the pair;
    a key met again keeps the value it has. *)
Definition UniObjectToMap (obj : UniValue) : UniMap :=
  let retVal : UniMap := [] in
  if isObject obj
  then
    let keys := getKeys obj in
    let values := getValues obj in
    fold_left (fun retVal i => map_insert string_less (nth i keys []) (nth i values VNULL) retVal)
              (seq 0 (length keys)) retVal
  else retVal.

Section MapToUniObject.
(** [UniValue::pushKV], declared outside the files at hand. *)
Variable pushKV : std_string -> UniValue -> UniValue -> UniValue.

Definition MapToUniObject (uniMap : UniMap) : UniValue :=
  fold_left (fun retVal oneEl => pushKV (fst oneEl) (snd oneEl) retVal) uniMap (VOBJ []).
End MapToUniObject.

(* ================================================================== *)
(** * Destinations: [ValidateDestination] and [ValidateTransferDestination] *)
(* ================================================================== *)

Module Destinations.

(** [CTxDestination], a variant declared outside the files at hand;
    [which() == COptCCParams::ADDRTYPE_ID] holds of the identity
    alternative, and [CTxDestination()] is [CNoDestination]. *)
Inductive CTxDestination : Type :=
| CNoDestination
| PubKeyDestination (key : Z)
| KeyIDDestination (id : uint160)
| ScriptIDDestination (id : uint160)
| IdentityIDDestination (id : uint160)
| IndexIDDestination (id : uint160)
| QuantumIDDestination (id : uint160).

Definition isID (d : CTxDestination) : bool :=
  match d with IdentityIDDestination _ => true | _ => false end.

(** A gateway converter, reached through a pointer. *)
Record CGateway : Type := mkGateway {
  gw_ValidateDestination : std_string -> bool;
  gw_ToTransferDestination : std_string -> CTransferDestination
}.

(** What the functions call outside the file.  [CleanName] and
    [CIdentity::GetID] take the parent by reference and hand it back;
    [GetGateway] gives a currency definition and a pointer to a converter,
    which may be null. *)
Record Node : Type := mkNode {
  DecodeDestination : std_string -> CTxDestination;
  GetDestinationID : CTxDestination -> uint160;
  LookupIdentityValid : uint160 -> bool;
  CleanName : std_string -> uint160 -> std_string * uint160;
  IdentityGetID : std_string -> uint160 -> uint160 * uint160;
  GetGateway : uint160 -> CCurrencyDefinition * option CGateway;
  DestinationToTransferDestination : CTxDestination -> CTransferDestination
}.

(** A call returns, or dereferences a null pointer. *)
Inductive Outcome (A : Type) : Type :=
| Returned (a : A)
| NullDereference.
Arguments Returned {A}.
Arguments NullDereference {A}.

Definition ValidateDestination (node : Node) (destStr : std_string) : CTxDestination :=
  let destination := DecodeDestination node destStr in
  if isID destination
  then
    if negb (LookupIdentityValid node (GetDestinationID node destination))
    then CNoDestination
    else destination
  else destination.

(** The character ['@']. *)
Definition at_sign : Z := 64.

(** The test [gatewayPair.first.IsValid() &&
    gatewayPair.second->ValidateDestination(str)] is followed by an empty
    statement: it is evaluated, which dereferences the pointer when the
    definition is valid, and its value is dropped; the block after it is
    then run whatever the test gave. *)
Definition ValidateTransferDestination (node : Node) (destStr : std_string)
  : Outcome (uint160 * CTransferDestination) :=
  let parent : uint160 := 0 in
  let destination := CNoDestination in
  if (count_occ Z.eq_dec destStr at_sign =? 1)%nat
  then
    let '(str, parent) := CleanName node destStr parent in
    if negb (length str =? 0)%nat
    then
      let '(destID, parent) := IdentityGetID node str parent in
      if LookupIdentityValid node destID
      then Returned (0, DestinationToTransferDestination node (IdentityIDDestination destID))
      else
        let gatewayPair := GetGateway node parent in
        let test :=
          if def_valid (fst gatewayPair)
          then match snd gatewayPair with
               | Some gateway => Returned (gw_ValidateDestination gateway str)
               | None => NullDereference
               end
          else Returned false in
        match test with
        | NullDereference => NullDereference
        | Returned _ =>
            match snd gatewayPair with
            | Some gateway => Returned (parent, gw_ToTransferDestination gateway str)
            | None => NullDereference
            end
        end
    else Returned (0, DestinationToTransferDestination node destination)
  else
    let destination := DecodeDestination node destStr in
    let destination :=
      if isID destination
      then
        if negb (LookupIdentityValid node (GetDestinationID node destination))
        then CNoDestination
        else destination
      else destination in
    Returned (0, DestinationToTransferDestination node destination).

End Destinations.

(* ================================================================== *)
(** * The out-parameter of [GetNotarizationData] and its callers *)
(* ================================================================== *)

(** How a part of a function ends: with a [return], or by going on. *)
Inductive Flow : Type :=
| Return (result : bool)
| Continue.

(** The seed taken from the best confirmed entry, with the out-parameter
    as the step leaves it, also when it returns [false]. *)
Definition seedFromEntryOut (env : Env) (chainDef : CCurrencyDefinition) (wantTx : bool)
           (notarizationData : CChainNotarizationData) (bestIt : UnspentEntry)
  : Flow * CChainNotarizationData :=
  match IsPayToCryptoCondition (script (snd bestIt)) with
  | None => (Return false, notarizationData)
  | Some p =>
      if negb (cc_valid p)
         || negb (isFinalizeEval (evalCode p) || isNotarizationEval (evalCode p))
         || (length (vData p) =? 0)%nat
      then (Return false, notarizationData)
      else
        let txInfo := mkRef (txhash (fst bestIt)) (index (fst bestIt)) in
        if isFinalizeEval (evalCode p)
        then
          let txInfo := finalizedRef (hash txInfo) (asFinalization (nth 0 (vData p) VRaw)) in
          match myGetTransaction env (hash txInfo) with
          | Some (nTx, _) =>
              if sizeGt (vout nTx) (n txInfo)
              then
                let thisNotarization :=
                  notarizationOfScript (scriptPubKey (voutAt (vout nTx) (n txInfo))) in
                if negb (valid thisNotarization)
                then (Return false, notarizationData)
                else (Continue, pushSeed notarizationData txInfo thisNotarization)
              else (Continue, notarizationData)
          | None => (Continue, notarizationData)
          end
        else
          let thisNotarization := asNotarization (nth 0 (vData p) VRaw) in
          if negb (valid thisNotarization)
          then (Return false, notarizationData)
          else
            let notarizationData := pushSeed notarizationData txInfo thisNotarization in
            let txOk :=
              if wantTx
              then match myGetTransaction env (hash txInfo) with
                   | Some (nTx, _) =>
                       sizeGt (vout nTx) (n txInfo)
                       && valid (notarizationOfScript
                                   (scriptPubKey (voutAt (vout nTx) (n txInfo))))
                   | None => false
                   end
              else true in
            if negb txOk then (Return false, notarizationData)
            else if IsToken chainDef then (Return true, notarizationData)
                 else (Continue, notarizationData)
  end.

Section QueryOut.
Context {P : Type} `{ChainPowerOps P}.

(** [GetNotarizationData] with the out-parameter as it stands on return,
    whatever the result. *)
Definition GetNotarizationDataOut (env : Env) (cur : uint160) (wantTx : bool)
  : bool * CChainNotarizationData :=
  let notarizationData := emptyData in
  let chainDef := GetCachedCurrency env cur in
  if negb (def_valid chainDef) then (false, notarizationData)
  else if localGuard env cur
  then (true, mkData (vtx notarizationData ++ [(nullRef, localNotarization env cur)]) 0
                     (forks notarizationData ++ [[0%nat]]) 0)
  else
    let '(flow, notarizationData) :=
      match GetAddressUnspent env (confirmedNotarizationKey env cur) with
      | Some (first :: rest) =>
          seedFromEntryOut env chainDef wantTx notarizationData
                           (latestConfirmed first (first :: rest))
      | _ => (Continue, notarizationData)
      end in
    match flow with
    | Return result => (result, notarizationData)
    | Continue =>
        if (length (vtx notarizationData) =? 0)%nat then (false, notarizationData)
        else
          let notarizationData :=
            match GetAddressUnspent env (pendingNotarizationKey env cur) with
            | Some (first :: rest) =>
                resolvePendingForks env cur notarizationData (first :: rest)
            | _ => notarizationData
            end in
          (negb (length (vtx notarizationData) =? 0)%nat, notarizationData)
    end.

(** [v[i]] with a signed index; [None] is a read out of bounds. *)
Definition vectorAt {A : Type} (v : list A) (i : Z) : option A :=
  if (0 <=? i) && (i <? Z.of_nat (length v)) then nth_error v (Z.to_nat i) else None.

(** [v.back()]; [None] on an empty vector. *)
Definition vectorBack {A : Type} (v : list A) : option A :=
  match v with
  | [] => None
  | x :: v' => Some (last v' x)
  end.

(** Conversion of a [uint32_t] to [int32_t]. *)
Definition to_int32 (x : Z) : Z := (x + 2 ^ 31) mod 2 ^ 32 - 2 ^ 31.

(** The two heights [listcurrencies] reads from the out-parameter, without
    looking at the result of the call; [None] is a read out of bounds. *)
Definition listedHeights (env : Env) (cur : uint160) : option (Z * Z) :=
  let cnd := snd (GetNotarizationDataOut env cur false) in
  let confirmedHeight :=
    if negb (length (vtx cnd) =? 0)%nat && negb (lastConfirmed cnd =? -1)
    then match vectorAt (vtx cnd) (lastConfirmed cnd) with
         | Some e => Some (to_int32 (notarizationHeight (snd e)))
         | None => None
         end
    else Some (-1) in
  let bestHeight :=
    if negb (length (vtx cnd) =? 0)%nat && negb (bestChain cnd =? -1)
    then match vectorAt (forks cnd) (bestChain cnd) with
         | Some fork =>
             match vectorBack fork with
             | Some i =>
                 match vectorAt (vtx cnd) (Z.of_nat i) with
                 | Some e => Some (to_int32 (notarizationHeight (snd e)))
                 | None => None
                 end
             | None => None
             end
         | None => None
         end
    else Some (-1) in
  match confirmedHeight, bestHeight with
  | Some c, Some b => Some (c, b)
  | _, _ => None
  end.
End QueryOut.

(* ================================================================== *)
(** * The RPC [getpendingtransfers] *)
(* ================================================================== *)

(** How an RPC ends: it throws, or returns the null value or a value. *)
Inductive RpcError : Type :=
| HelpText
| PBaaSNotActivated     (* "PBaaS not activated on blockchain." *)
| InvalidChainName      (* "Invalid chain name or chain ID" *)
| UnrecognizedCurrency. (* "Unrecognized currency name or ID" *)

Inductive RpcResult (A : Type) : Type :=
| RpcThrow (e : RpcError)
| NullUniValue
| RpcValue (a : A).
Arguments RpcThrow {A}.
Arguments NullUniValue {A}.
Arguments RpcValue {A}.

(** One object of the array returned. *)
Record PendingTransfer : Type := mkPendingTransfer {
  pt_currencyid : uint160;
  pt_height : Z;
  pt_txid : uint256;
  pt_n : Z;
  pt_valueout : Z;
  pt_reservetransfer : CReserveTransfer
}.

(** What the RPC calls outside the functions modelled here. *)
Record RpcNode (Param : Type) : Type := mkRpcNode {
  PBaaSAPIsValid : bool;
  GetChainIDFromParam : Param -> uint160;
  GetCurrencyDefinition : uint160 -> bool
}.
Arguments PBaaSAPIsValid {Param}.
Arguments GetChainIDFromParam {Param}.
Arguments GetCurrencyDefinition {Param}.

Definition getpendingtransfers {Param : Type} (env : Env) (node : RpcNode Param)
           (params : list Param) (fHelp : bool) : RpcResult (list PendingTransfer) :=
  match params with
  | [param] =>
      if fHelp then RpcThrow HelpText
      else if negb (PBaaSAPIsValid node) then RpcThrow PBaaSNotActivated
      else
        let chainID := GetChainIDFromParam node param in
        if IsNull chainID then RpcThrow InvalidChainName
        else if GetCurrencyDefinition node chainID
        then
          let '(ok, inputDescriptors, _) := GetUnspentChainTransfers env [] chainID in
          if ok
          then
            let ret :=
              map (fun desc : uint160 * ChainTransferData =>
                     let inpHeight := uint32 (fst (fst (snd desc))) in
                     let inpDesc := snd (fst (snd desc)) in
                     mkPendingTransfer (fst desc) inpHeight (hash (txIn inpDesc))
                                       (to_int32 (n (txIn inpDesc))) (in_nValue inpDesc)
                                       (snd (snd desc)))
                  inputDescriptors in
            if negb (length ret =? 0)%nat then RpcValue ret else NullUniValue
          else NullUniValue
        else RpcThrow UnrecognizedCurrency
  | _ => RpcThrow HelpText
  end.

(* ================================================================== *)
(** * Notions used in the statements *)
(* ================================================================== *)

(** The payload of an output, decoded as a reserve transfer, is valid. *)
Definition transferPayloadValid (out : CTxOut) : bool :=
  match IsPayToCryptoCondition (scriptPubKey out) with
  | Some p => rt_valid (asTransfer (nth 0 (vData p) VRaw))
  | None => false
  end.


(** The same node with other address-index and transaction lookups. *)
Definition withLedger (env : Env)
           (unspent : uint160 -> option (list UnspentEntry))
           (txOf : uint256 -> option (CTransaction * uint256)) : Env :=
  mkEnv (GetCachedCurrency env) (chainHeight env) (IsVerusActive env)
        (ASSETCHAINS_CHAINID env) (VERUS_NOTARYID env) (VERUS_DEFAULTID env)
        (VERUS_NODEID env) (GetProofRoot env) (GetCurrencyState env)
        (DestinationToTransferDestination env) (GetConditionID env)
        (ObjectFinalizationNotarizationKey env) (ObjectFinalizationConfirmedKey env)
        (ObjectFinalizationPendingKey env) (ReserveTransferKey env)
        unspent (GetAddressIndex env) txOf (GetCoins env) (inActiveChain env)
        (VERSION_CURRENT env) (FLAG_LAUNCH_CONFIRMED env) (VERSION_V3 env)
        (RT_VALID env) (IMPORT_TO_SOURCE env).

(** The transaction of [r] can be retrieved and its output [r] holds a valid
    notarization. *)
Definition outputNotarized (env : Env) (r : CUTXORef) : Prop :=
  exists nTx blk,
    myGetTransaction env (hash r) = Some (nTx, blk)
    /\ sizeGt (vout nTx) (n r) = true
    /\ valid (notarizationOfScript (scriptPubKey (voutAt (vout nTx) (n r)))) = true.

(** A confirmed index entry resolves to the record [nz] at output [r]:
    either it is a finalization of a retrievable, valid notarization output,
    or it is itself a valid notarization output (legacy form; when the
    caller asks for transactions, its own transaction must be retrievable
    too). *)
Inductive SeedResolves (env : Env) (wantTx : bool) (e : UnspentEntry)
    : bool -> CUTXORef -> CPBaaSNotarization -> Prop :=
  | resolves_finalization (p : COptCCParams) (nTx : CTransaction) (blk : uint256) :
      IsPayToCryptoCondition (script (snd e)) = Some p ->
      cc_valid p = true ->
      evalCode p = EVAL_FINALIZE_NOTARIZATION ->
      vData p <> [] ->
      let r := finalizedRef (txhash (fst e)) (asFinalization (nth 0 (vData p) VRaw)) in
      myGetTransaction env (hash r) = Some (nTx, blk) ->
      sizeGt (vout nTx) (n r) = true ->
      valid (notarizationOfScript (scriptPubKey (voutAt (vout nTx) (n r)))) = true ->
      SeedResolves env wantTx e false r
                   (notarizationOfScript (scriptPubKey (voutAt (vout nTx) (n r))))
  | resolves_legacy (p : COptCCParams) :
      IsPayToCryptoCondition (script (snd e)) = Some p ->
      cc_valid p = true ->
      isNotarizationEval (evalCode p) = true ->
      vData p <> [] ->
      valid (asNotarization (nth 0 (vData p) VRaw)) = true ->
      (wantTx = true -> outputNotarized env (mkRef (txhash (fst e)) (index (fst e)))) ->
      SeedResolves env wantTx e true (mkRef (txhash (fst e)) (index (fst e)))
                   (asNotarization (nth 0 (vData p) VRaw)).

(** The fork index holding one record only. *)
Definition singleFork (r : CUTXORef) (nz : CPBaaSNotarization) : CChainNotarizationData :=
  mkData [(r, nz)] 0 [[0%nat]] 0.

(** A fork path starts at the seed, entry 0. *)
Definition rooted (f : list nat) : Prop := hd_error f = Some 0%nat.

(** Every fork's last index points into the entries. *)
Definition wfForks (v : list Entry) (fs : list (list nat)) : Prop :=
  Forall (fun f => (last f 0 < length v)%nat) fs.

(** References of the fork tips, in fork order. *)
Definition tips (v : list Entry) (fs : list (list nat)) : list CUTXORef :=
  map (fun f => fst (tipEntry v f)) fs.

(** The expansion keeps the entries it started from, in place, and every
    fork keeps starting at entry 0. *)
Definition keepsSeed (v0 : list Entry) (g : Growth) : Prop :=
  (exists extra, g_vtx g = v0 ++ extra)
  /\ g_forks g <> []
  /\ Forall rooted (g_forks g).

(** Compact power presented for the currency by the tip of fork [j]. *)
Definition forkCompact (cur : uint160) (nd : CChainNotarizationData) (j : nat)
  : option uint256 :=
  match nth_error (forks nd) j with
  | Some f => option_map compactPower (findRoot cur (proofRoots (snd (tipEntry (vtx nd) f))))
  | None => None
  end.

(** Its expansion, as the selection loop computes it. *)
Definition forkPower {P : Type} `{ChainPowerOps P}
           (cur : uint160) (nd : CChainNotarizationData) (j : nat) : option P :=
  match nth_error (forks nd) j with
  | Some f => tipPower cur (vtx nd) f j
  | None => None
  end.

(** Among the forks [fs], numbered from [i], the one at offset [j] has a tip
    of expanded power [p]. *)
Definition powerAt {P : Type} `{ChainPowerOps P} (cur : uint160) (v : list Entry)
           (fs : list (list nat)) (i j : nat) (p : P) : Prop :=
  exists f, nth_error fs j = Some f /\ tipPower cur v f (i + j) = Some p.

(** A multimap keeps its entries in non-decreasing key order. *)
Definition mm_sorted (refs : References) : Prop :=
  StronglySorted (fun a b => ref_ltb (fst b) (fst a) = false) refs.

(** Output references of the records held by the references. *)
Definition valrefs (refs : References) : list CUTXORef :=
  map (fun kv => fst (snd kv)) refs.

(** No reference is keyed by [x]: no pending record extends [x]. *)
Definition childless (refs : References) (x : CUTXORef) : bool :=
  forallb (fun kv => negb (ref_eqb (fst kv) x)) refs.

(** [x] is connected to the root through parent references. *)
Inductive reaches (root : CUTXORef) (refs : References) : CUTXORef -> Prop :=
  | reaches_root : reaches root refs root
  | reaches_child (kv : CUTXORef * Entry) :
      In kv refs -> reaches root refs (fst kv) -> reaches root refs (fst (snd kv)).

(** The pending records, each keyed by its parent reference, form a tree
    rooted at [root]: the records and the root are pairwise distinct
    outputs and every record's parent is connected to the root. *)
Definition formsTree (root : CUTXORef) (refs : References) : Prop :=
  NoDup (root :: valrefs refs)
  /\ forall kv, In kv refs -> reaches root refs (fst kv).

(** Leaves of that tree: the nodes no pending record extends. *)
Definition treeLeaves (root : CUTXORef) (refs : References) : list CUTXORef :=
  filter (childless refs) (root :: valrefs refs).

(** Tips of the forks together with the records still to be placed. *)
Definition frontier (g : Growth) : list CUTXORef :=
  tips (g_vtx g) (g_forks g) ++ valrefs (g_refs g).

(** What each step of the expansion preserves, for references [refs0] at
    the start, entries [v0] at the start and leaves [L0]. *)
Record GrowthInv (refs0 : References) (v0 : list Entry) (L0 : list CUTXORef)
       (g : Growth) : Prop := mkGrowthInv {
  inv_wf : wfForks (g_vtx g) (g_forks g);
  inv_sorted : mm_sorted (g_refs g);
  inv_nodup : NoDup (frontier g);
  inv_closed : forall kv, In kv (g_refs g) -> In (fst kv) (frontier g);
  inv_leaves : Permutation (filter (childless (g_refs g)) (frontier g)) L0;
  inv_sub : incl (g_refs g) refs0;
  inv_vtx : Permutation (g_vtx g ++ map snd (g_refs g)) (v0 ++ map snd refs0)
}.

(** The part of the invariant that holds whatever the references hold. *)
Definition growthShape (g : Growth) : Prop :=
  wfForks (g_vtx g) (g_forks g) /\ mm_sorted (g_refs g).

(* ================================================================== *)
(** * Further notions used in the statements *)
(* ================================================================== *)

(** From entry [a], the indexes [rest] go through later and later entries,
    each extending the one before it. *)
Inductive chainFrom (v : list Entry) : nat -> list nat -> Prop :=
| chain_end (a : nat) : (a < length v)%nat -> chainFrom v a []
| chain_step (a b : nat) (rest : list nat) :
    (a < b)%nat ->
    (a < length v)%nat ->
    prevNotarization (snd (nth b v defaultEntry)) = fst (nth a v defaultEntry) ->
    chainFrom v b rest ->
    chainFrom v a (b :: rest).

(** A fork is a path of parent references starting at entry 0. *)
Definition linkedFork (v : list Entry) (f : list nat) : Prop :=
  exists rest, f = 0%nat :: rest /\ chainFrom v 0 rest.

(** Every reference is keyed by the notarization its record extends. *)
Definition keyedByParent (refs : References) : Prop :=
  Forall (fun kv => fst kv = prevNotarization (snd (snd kv))) refs.

(** What the expansion keeps whatever the references hold: its shape, the
    keying of the references, forks that are linked paths, no more forks
    than entries, and entries and references that are together the entries
    and references it started from. *)
Record PathInv (v0 : list Entry) (refs0 : References) (g : Growth) : Prop := mkPathInv {
  path_shape : growthShape g;
  path_keyed : keyedByParent (g_refs g);
  path_forks : Forall (linkedFork (g_vtx g)) (g_forks g);
  path_count : (length (g_forks g) <= length (g_vtx g))%nat;
  path_content : Permutation (g_vtx g ++ map snd (g_refs g)) (v0 ++ map snd refs0)
}.

(** Every placed entry is the tip of a fork, or no reference left extends
    it. *)
Definition tipsOrDone (g : Growth) : Prop :=
  forall j, (j < length (g_vtx g))%nat ->
    (exists f, In f (g_forks g) /\ last f 0%nat = j)
    \/ childless (g_refs g) (fst (nth j (g_vtx g) defaultEntry)) = true.

(** No reference left extends the tip of a fork. *)
Definition quietTips (g : Growth) : Prop :=
  forall f, In f (g_forks g) ->
    childless (g_refs g) (fst (tipEntry (g_vtx g) f)) = true.

(** The records the pending index entries resolve to, one at most for each
    entry, in index order. *)
Definition resolvedPending (env : Env) (pending : list UnspentEntry) : list Entry :=
  flat_map (fun it => match resolvePending env it with
                      | Some kv => [snd kv]
                      | None => []
                      end) pending.

(** The pending index of a currency as the query reads it; a failed lookup
    reads as no entry. *)
Definition pendingIndex (env : Env) (cur : uint160) : list UnspentEntry :=
  match GetAddressUnspent env (pendingNotarizationKey env cur) with
  | Some l => l
  | None => []
  end.

(** What the unspent scan checks of an entry before it inserts it: the
    transfer is valid, the key is its destination and is not null, the
    filter, when there is one, is that destination, and the entry stands
    for an output of the index that is still available. *)
Definition unspentAdded (env : Env) (chainFilter : uint160) (l : list UnspentEntry)
           (kv : uint160 * ChainTransferData) : Prop :=
  rt_valid (snd (snd kv)) = true
  /\ fst kv = transferDest env (snd (snd kv))
  /\ IsNull (fst kv) = false
  /\ (IsNull chainFilter = false -> fst kv = chainFilter)
  /\ exists it coins,
       In it l
       /\ GetCoins env (txhash (fst it)) = Some coins
       /\ IsAvailable coins (index (fst it)) = true
       /\ fst (fst (snd kv)) = nHeight coins
       /\ txIn (snd (fst (snd kv))) = mkRef (txhash (fst it)) (index (fst it)).

(** The flags the ranged scan tests for: [VALID] when none are asked. *)
Definition effectiveFlags (env : Env) (flags : Z) : Z :=
  if flags =? 0 then RT_VALID env else flags.

(** What the ranged scan checks of an entry before it inserts it. *)
Definition rangeAdded (env : Env) (chainFilter : uint160) (flags : Z)
           (l : list (CAddressIndexKey * Z))
           (kv : uint160 * (CInputDescriptor * CReserveTransfer)) : Prop :=
  rt_valid (snd (snd kv)) = true
  /\ fst kv = transferDest env (snd (snd kv))
  /\ Z.land (rt_flags (snd (snd kv))) (effectiveFlags env flags) = effectiveFlags env flags
  /\ (IsNull chainFilter = false -> fst kv = chainFilter)
  /\ exists it,
       In it l
       /\ spending (fst it) = false
       /\ myGetTransaction env (ik_txhash (fst it)) <> None
       /\ txIn (fst (snd kv)) = mkRef (ik_txhash (fst it)) (ik_index (fst it)).

(** The index entries the ranged scan can get through: those marked as
    spending and those whose transaction can be retrieved. *)
Definition rangeEntryReadable (env : Env) (it : CAddressIndexKey * Z) : bool :=
  spending (fst it)
  || match myGetTransaction env (ik_txhash (fst it)) with Some _ => true | None => false end.

(** The calls of an attempt of [WriteTxn] that does not get to write: the
    transaction does not begin, or it begins and the write fails; either
    way the transaction is aborted twice and half a second is slept. *)
Definition failedAttempt (calling : std_string) (began : bool) : list DbEvent :=
  (if began
   then [EvTxnBegin true; EvTxnSetTimeout; EvWrite false; EvLogPrintf calling FailedToWrite]
   else [EvTxnBegin false; EvLogPrintf calling FailedToBegin])
  ++ [EvTxnAbort; EvTxnAbort; EvMilliSleep 500].

(** The calls of an attempt that writes; a failed commit is logged. *)
Definition writtenAttempt (calling : std_string) (committed : bool) : list DbEvent :=
  [EvTxnBegin true; EvTxnSetTimeout; EvWrite true; EvTxnCommit committed]
  ++ (if committed then [] else [EvLogPrintf calling FailedToCommit]).

Definition isCommit (e : DbEvent) : bool :=
  match e with EvTxnCommit _ => true | _ => false end.

Definition isBegin (e : DbEvent) : bool :=
  match e with EvTxnBegin _ => true | _ => false end.

(** Milliseconds slept over a run. *)
Definition slept (trace : list DbEvent) : Z :=
  fold_right (fun e acc => match e with EvMilliSleep ms => ms + acc | _ => acc end) 0 trace.

(** A codec gives back what it wrote and leaves what follows it. *)
Definition codec_ok {A : Type} (c : Codec A) : Prop :=
  forall (x : A) (rest : Stream), Unserialize c (Serialize c x ++ rest) = Some (x, rest).

(** What is asked of an [operator<] for the containers to work: nothing is
    less than itself, the order is transitive, and two values of which
    neither is less than the other are the same value. *)
Record strictTotal {K : Type} (less : K -> K -> bool) : Prop := mkStrictTotal {
  less_irrefl : forall a, less a a = false;
  less_trans : forall a b c, less a b = true -> less b c = true -> less a c = true;
  less_total : forall a b, less a b = false -> less b a = false -> a = b
}.

(** A set holds its elements in strictly increasing order. *)
Definition isSet {K : Type} (less : K -> K -> bool) (s : list K) : Prop :=
  StronglySorted (fun a b => less a b = true) s.

(** A map holds its entries in strictly increasing key order. *)
Definition isMap {K V : Type} (less : K -> K -> bool) (m : list (K * V)) : Prop :=
  StronglySorted (fun a b => less (fst a) (fst b) = true) m.

(** What is asked of [pushKV]: a key the object does not hold yet is added
    at the end with its value. *)
Definition pushKV_adds (pushKV : std_string -> UniValue -> UniValue -> UniValue) : Prop :=
  forall (entries : list (std_string * UniValue)) (k : std_string) (v : UniValue),
    ~ In k (map fst entries) -> pushKV k v (VOBJ entries) = VOBJ (entries ++ [(k, v)]).

(** An output is a transfer the unspent scan returns, with destination [d]
    and transfer [rt]: a reserve-transfer output of version 3 at least whose
    last element is a valid master and whose first element is a valid
    transfer, to a destination that is not null and that the filter, when
    there is one, names. *)
Definition unspentTransferOutput (env : Env) (chainFilter : uint160) (out : CTxOut)
           (d : uint160) (rt : CReserveTransfer) : Prop :=
  exists p,
    IsPayToCryptoCondition (scriptPubKey out) = Some p
    /\ evalCode p = EVAL_RESERVE_TRANSFER
    /\ vData p <> []
    /\ VERSION_V3 env <= version p
    /\ asMasterValid (last (vData p) VRaw) = true
    /\ rt = asTransfer (nth 0 (vData p) VRaw)
    /\ rt_valid rt = true
    /\ d = transferDest env rt
    /\ IsNull d = false
    /\ (IsNull chainFilter = true \/ d = chainFilter).

(** An entry of the unspent index is valid and stands for the result entry
    [kv]: its coins are found, its output is still available and is a
    transfer the scan returns; [kv] holds the height of the coins, the
    output and the transfer, under the transfer's destination. *)
Definition validUnspentTransfer (env : Env) (chainFilter : uint160) (it : UnspentEntry)
           (kv : uint160 * ChainTransferData) : Prop :=
  exists coins,
    GetCoins env (txhash (fst it)) = Some coins
    /\ IsAvailable coins (index (fst it)) = true
    /\ unspentTransferOutput env chainFilter (voutAt (coins_vout coins) (index (fst it)))
                             (fst kv) (snd (snd kv))
    /\ fst (snd kv)
       = (nHeight coins,
          mkInput (scriptPubKey (voutAt (coins_vout coins) (index (fst it))))
                  (nValue (voutAt (coins_vout coins) (index (fst it))))
                  (mkRef (txhash (fst it)) (index (fst it)))).

(** An output is a transfer the ranged scan returns: a reserve-transfer
    output with two elements at least, the first a valid transfer carrying
    the flags asked for, the second a valid master, to the destination the
    filter names when there is one. *)
Definition rangeTransferOutput (env : Env) (chainFilter : uint160) (flags : Z)
           (out : CTxOut) (rt : CReserveTransfer) : Prop :=
  exists p,
    IsPayToCryptoCondition (scriptPubKey out) = Some p
    /\ evalCode p = EVAL_RESERVE_TRANSFER
    /\ (1 < length (vData p))%nat
    /\ rt = asTransfer (nth 0 (vData p) VRaw)
    /\ rt_valid rt = true
    /\ asMasterValid (nth 1 (vData p) VRaw) = true
    /\ (IsNull chainFilter = true \/ transferDest env rt = chainFilter)
    /\ Z.land (rt_flags rt) (effectiveFlags env flags) = effectiveFlags env flags.

(** An entry of the ranged index is valid and stands for the result entry
    [kv]: it is not marked as spending, its transaction is retrieved and
    its output is a transfer the scan returns. *)
Definition validRangeTransfer (env : Env) (chainFilter : uint160) (flags : Z)
           (it : CAddressIndexKey * Z)
           (kv : uint160 * (CInputDescriptor * CReserveTransfer)) : Prop :=
  spending (fst it) = false
  /\ exists ntx blk,
       myGetTransaction env (ik_txhash (fst it)) = Some (ntx, blk)
       /\ rangeTransferOutput env chainFilter flags
                              (voutAt (vout ntx) (ik_index (fst it))) (snd (snd kv))
       /\ fst kv = transferDest env (snd (snd kv))
       /\ fst (snd kv)
          = mkInput (scriptPubKey (voutAt (vout ntx) (ik_index (fst it))))
                    (nValue (voutAt (vout ntx) (ik_index (fst it))))
                    (mkRef (ik_txhash (fst it)) (ik_index (fst it))).

(** The entries a scan owes its caller for an index: one for each indexed
    entry that stands for something, in the order of the index, and none
    for an entry that stands for nothing. *)
Inductive ValidEntries {A B : Type} (stands : A -> B -> Prop) : list A -> list B -> Prop :=
| ValidEntries_nil : ValidEntries stands [] []
| ValidEntries_keep (it : A) (kv : B) (l : list A) (r : list B) :
    stands it kv -> ValidEntries stands l r -> ValidEntries stands (it :: l) (kv :: r)
| ValidEntries_skip (it : A) (l : list A) (r : list B) :
    (forall kv, ~ stands it kv) -> ValidEntries stands l r -> ValidEntries stands (it :: l) r.

(** The most recent entry of an index: its block height is the greatest,
    and it is the first entry of that height. *)
Definition mostRecent (e : UnspentEntry) (l : list UnspentEntry) : Prop :=
  exists before after,
    l = before ++ e :: after
    /\ Forall (fun x => blockHeight (snd x) < blockHeight (snd e)) before
    /\ Forall (fun x => blockHeight (snd x) <= blockHeight (snd e)) after.

(* ================================================================== *)
(** * Sample ledgers *)
(* ================================================================== *)

(** Small ledgers on which the functions are run further down.  Currency 7
    is a currency notarized on the chain, currency 1 the chain's own. *)
Module Samples.
Import SpecPower.

Definition notz (prev : CUTXORef) (pw : option Z) : CPBaaSNotarization :=
  mkNotarization 1 0 0 7 0 0 prev 0
    (match pw with Some c => [(7, mkProofRoot 7 0 0 0 c)] | None => [] end) true.

Definition nzScript (nz : CPBaaSNotarization) : CScript :=
  mkScript (Some (mkParams true 3 EVAL_EARNEDNOTARIZATION [VNotarization nz])).

Definition finScript (r : CUTXORef) : CScript :=
  mkScript (Some (mkParams true 3 EVAL_FINALIZE_NOTARIZATION
                           [VFinalization (mkFinalization true r)])).

(** A finalization output in transaction [h], finalizing output [r]. *)
Definition finEntry (h : Z) (r : CUTXORef) (height : Z) : UnspentEntry :=
  (mkUnspentKey h 0, mkUnspentValue 0 (finScript r) height).

(** A notarization output indexed directly (legacy form). *)
Definition legacyEntry (h : Z) (nz : CPBaaSNotarization) (height : Z) : UnspentEntry :=
  (mkUnspentKey h 0, mkUnspentValue 0 (nzScript nz) height).

Definition R : CUTXORef := mkRef 100 0.
Definition P1 : CUTXORef := mkRef 101 0.
Definition P2 : CUTXORef := mkRef 102 0.
Definition P3 : CUTXORef := mkRef 103 0.

Definition transferOut : CTxOut :=
  mkTxOut (mkScript (Some (mkParams true 3 EVAL_RESERVE_TRANSFER
                                    [VTransfer (mkTransfer true 1 7 8); VMaster true])))
          5.

(** Transactions 100 to 103 hold the notarizations [R], [P1 -> R],
  [P2 -> R] and [P3 -> P1], the pending ones with equal power;
  transactions 105 and 106 hold two more notarizations extending [R], one
  without a proof root and one presenting power 0; transaction 300 holds a
  reserve transfer; 301 cannot be retrieved. *)
Definition txs (rootPower : option Z) (h : Z) : option (CTransaction * uint256) :=
  if h =? 100 then Some (mkTx [mkTxOut (nzScript (notz nullRef rootPower)) 0], 900)
  else if h =? 101 then Some (mkTx [mkTxOut (nzScript (notz R (Some 9))) 0], 901)
  else if h =? 102 then Some (mkTx [mkTxOut (nzScript (notz R (Some 9))) 0], 902)
  else if h =? 103 then Some (mkTx [mkTxOut (nzScript (notz P1 (Some 9))) 0], 903)
  else if h =? 105 then Some (mkTx [mkTxOut (nzScript (notz R None)) 0], 905)
  else if h =? 106 then Some (mkTx [mkTxOut (nzScript (notz R (Some 0))) 0], 906)
  else if h =? 300 then Some (mkTx [transferOut], 904)
  else None.

Definition coinsOf (h : Z) : option CCoins :=
  if h =? 300 then Some (mkCoins [transferOut] 20) else None.

Definition transferIndex : list (CAddressIndexKey * Z) :=
  [(mkIndexKey 301 0 false, 5); (mkIndexKey 300 0 false, 5)].

Definition transferUnspent : list UnspentEntry :=
  [(mkUnspentKey 301 0, mkUnspentValue 5 emptyScript 20);
   (mkUnspentKey 300 0, mkUnspentValue 5 emptyScript 20)].

(** Keys are derived as [a * 1000 + b]: 7001002 indexes the confirmed and
  7001003 the pending finalizations of currency 7; 4 indexes transfers. *)
Definition ledger (verus : bool) (height : Z) (token : bool) (rootPower : option Z)
           (confirmed pending : uint160 -> list UnspentEntry) : Env :=
  mkEnv (fun _ => mkCurrency true token) height verus 1 0 0 0
        (fun h => mkProofRoot 1 h 0 0 0) (fun _ => 0) (fun x => x)
        (fun a b => a * 1000 + b) 1 2 3 4
        (fun k => if k =? 4 then Some transferUnspent
                  else if k mod 1000 =? 2 then Some (confirmed (k / 1000000))
                  else if k mod 1000 =? 3 then Some (pending (k / 1000000))
                  else Some [])
        (fun _ _ _ => Some transferIndex)
        (txs rootPower) coinsOf (fun _ => true) 1 16 3 1 512.

Definition onlyFor7 (l : list UnspentEntry) (cur : uint160) : list UnspentEntry :=
  if cur =? 7 then l else [].

Definition confirmedR : uint160 -> list UnspentEntry := onlyFor7 [finEntry 200 R 10].

(** The three pending notarizations, in two discovery orders. *)
Definition pendingA : list UnspentEntry :=
  [finEntry 201 P1 11; finEntry 202 P2 11; finEntry 203 P3 12].
Definition pendingB : list UnspentEntry :=
  [finEntry 202 P2 11; finEntry 201 P1 11; finEntry 203 P3 12].

Definition chainA : Env := ledger false 50 false (Some 5) confirmedR (onlyFor7 pendingA).
Definition chainB : Env := ledger false 50 false (Some 5) confirmedR (onlyFor7 pendingB).

(** Only the confirmed notarization, nothing pending. *)
Definition chainQuiet : Env := ledger false 50 false (Some 5) confirmedR (fun _ => []).

(** No tip has a proof root: the root has none and the one pending
  finalization names a transaction that cannot be retrieved. *)
Definition chainRootless : Env :=
  ledger false 50 false None confirmedR (onlyFor7 [finEntry 204 (mkRef 301 0) 11]).

(** The first fork ends in a record without a proof root, the second in a
  record presenting power 0. *)
Definition chainZero : Env :=
  ledger false 50 false (Some 5) confirmedR
         (onlyFor7 [finEntry 205 (mkRef 105 0) 11; finEntry 206 (mkRef 106 0) 11]).

(** A token whose confirmed output is itself a notarization, with the
  three pending finalizations present. *)
Definition chainToken : Env :=
  ledger false 50 true (Some 5)
         (onlyFor7 [legacyEntry 100 (notz nullRef (Some 5)) 10]) (onlyFor7 pendingA).

(** The chain's own currency queried on the Verus chain itself, and on
  another chain past its first block. *)
Definition chainVerus : Env := ledger true 50 false (Some 5) (fun _ => []) (fun _ => []).
Definition chainOther : Env := ledger false 50 false (Some 5) (fun _ => []) (fun _ => []).

(** The references gathered from the first order: [P1] and [P2] keyed by
    [R], [P3] keyed by [P1]. *)
Definition refsA : References := collectPending chainA pendingA.

(** The fork indexes returned for currency 7 under the two orders. *)
Definition resultA : CChainNotarizationData :=
  match GetNotarizationData chainA 7 false with Some nd => nd | None => emptyData end.
Definition resultB : CChainNotarizationData :=
  match GetNotarizationData chainB 7 false with Some nd => nd | None => emptyData end.

(** The tip chosen as best by a query. *)
Definition bestTip (r : option CChainNotarizationData) : option CUTXORef :=
  match r with
  | Some nd => Some (fst (tipEntry (vtx nd) (nth (Z.to_nat (bestChain nd)) (forks nd) [])))
  | None => None
  end.
End Samples.

(** Small databases and codecs on which the wallet functions are run
    further down. *)
Module WalletSamples.

(** A database that counts the writes tried: it refuses the first two and
    never commits. *)
Definition flakyDb : DbOps nat Z Z :=
  mkDbOps nat Z Z
          (fun db => (true, db))
          (fun db => db)
          (fun db => db)
          (fun _ _ _ db => ((2 <=? db)%nat, S db))
          (fun db => (false, db)).

(** One stream element for a number. *)
Definition wordCodec : Codec Z :=
  mkCodec Z (fun x => [x])
          (fun s => match s with x :: rest => Some (x, rest) | [] => None end).

(** A string as its length followed by its bytes. *)
Definition bytesCodec : Codec std_string :=
  mkCodec std_string
          (fun x => Z.of_nat (length x) :: x)
          (fun s => match s with
                    | len :: rest =>
                        if (Z.to_nat len <=? length rest)%nat
                        then Some (firstn (Z.to_nat len) rest, skipn (Z.to_nat len) rest)
                        else None
                    | [] => None
                    end).

Definition codecs : FieldCodecs :=
  mkFieldCodecs wordCodec wordCodec wordCodec wordCodec bytesCodec.

End WalletSamples.

Module KeySamples.

(** Every key and address is a number, ordered as numbers are. *)
#[global] Instance numbers : KeyTypes := {
  CKey := Z;
  SproutPaymentAddress := Z;
  SproutSpendingKey := Z;
  SproutViewingKey := Z;
  ZCNoteDecryption := Z;
  SaplingExtendedFullViewingKey := Z;
  SaplingExtendedSpendingKey := Z;
  SaplingPaymentAddress := Z;
  SaplingIncomingViewingKey := Z;
  sprout_less := Z.ltb;
  extfvk_less := Z.ltb;
  sapling_less := Z.ltb
}.

(** Two transparent keys, a shielded address with a spending key and one
    with a viewing key only. *)
Definition store : CBasicKeyStore :=
  mkKeyStore [(11, 1011); (12, 1012)] [(21, 2021)] [(22, 3022)] [(21, 4021)] [] [(31, 5031)].

End KeySamples.

Module JsonSamples.

(** [pushKV] as an append. *)
Definition pushBack (k : std_string) (v : UniValue) (obj : UniValue) : UniValue :=
  match obj with
  | VOBJ entries => VOBJ (entries ++ [(k, v)])
  | other => other
  end.

(** The object [{"b": 1, "a": 2, "b": 3}] and the map [{"a": 2, "b": 1}]. *)
Definition twice : UniValue :=
  VOBJ [([98], VNUM [49]); ([97], VNUM [50]); ([98], VNUM [51])].
Definition sorted : UniMap := [([97], VNUM [50]); ([98], VNUM [49])].

End JsonSamples.

Module DestinationSamples.
Import Destinations.

(** A gateway converter that accepts no destination. *)
Definition strict : CGateway := mkGateway (fun _ => false) (fun s => Z.of_nat (length s)).

(** A node on which no identity exists, names are clean as they come with
    parent 5, and parent 5 has a converter but no valid definition. *)
Definition node : Node :=
  mkNode (fun _ => CNoDestination)
         (fun _ => 0)
         (fun _ => false)
         (fun s _ => (s, 5))
         (fun s p => (9, p))
         (fun _ => (mkCurrency false false, Some strict))
         (fun d => match d with IdentityIDDestination id => id | _ => 0 end).

(** ["a@"] *)
Definition name : std_string := [97; 64].

End DestinationSamples.

Module RpcSamples.

(** A node on which PBaaS is active, a parameter is the currency id itself
    and every currency is defined. *)
Definition node : RpcNode Z := mkRpcNode Z true (fun param => param) (fun _ => true).

(** The one transfer to currency 8 that the first sample ledger holds
    unspent. *)
Definition pendingFor8 : list PendingTransfer :=
  [mkPendingTransfer 8 20 300 0 5 (mkTransfer true 1 7 8)].

End RpcSamples.

Module SeedSamples.
Import Samples.

(** A token with three confirmed outputs indexed: a finalization of [R] at
    height 9, a notarization output at height 12 and a finalization of
    [P1] at height 11; the three pending finalizations are present. *)
Definition confirmedLate : list UnspentEntry :=
  [finEntry 200 R 9; legacyEntry 100 (notz nullRef (Some 5)) 12; finEntry 201 P1 11].

Definition chainTokenLate : Env :=
  ledger false 50 true (Some 5) (onlyFor7 confirmedLate) (onlyFor7 pendingA).

End SeedSamples.

(* ================================================================== *)
(** * Properties of the price primitive *)
(* ================================================================== *)

Section PriceFacts.

Local Ltac unfold_arith :=
unfold Arith256.of_int64, Arith256.mul, Arith256.sub, Arith256.GetLow64,
       Arith256.modulus, Arith256.two64, Arith256.two63 in *.

Lemma BigSatoshi_value : BigSatoshi = SATOSHIDEN.
Proof. reflexivity. Qed.

Lemma BigSatoshiSquared_value : BigSatoshiSquared = SATOSHIDEN * SATOSHIDEN.
Proof. reflexivity. Qed.

Lemma of_int64_nonneg (x : Z) : int64_nonneg x -> Arith256.of_int64 x = x.
Proof.
unfold int64_nonneg; unfold_arith; intros Hx.
apply Z.mod_small; lia.
Qed.

(** The 256-bit denominator is the exact product. *)
Lemma denominator_exact (d : Z) :
  int64_nonneg d ->
  Arith256.mul (Arith256.of_int64 d) BigSatoshi = d * SATOSHIDEN.
Proof.
intros Hd. rewrite (of_int64_nonneg d Hd), BigSatoshi_value.
unfold int64_nonneg in Hd; unfold_arith; unfold SATOSHIDEN.
apply Z.mod_small; lia.
Qed.

(** The 256-bit numerator is the exact product. *)
Lemma numerator_exact (x : Z) :
  int64_nonneg x ->
  Arith256.mul (Arith256.of_int64 x) BigSatoshiSquared = x * (SATOSHIDEN * SATOSHIDEN).
Proof.
intros Hx. rewrite (of_int64_nonneg x Hx), BigSatoshiSquared_value.
unfold int64_nonneg in Hx; unfold_arith; unfold SATOSHIDEN.
apply Z.mod_small; lia.
Qed.

Lemma to_int64_low64 (a : Z) :
  Arith256.to_int64 (Arith256.GetLow64 a) = Arith256.to_int64 a.
Proof.
unfold Arith256.to_int64, Arith256.GetLow64.
rewrite Z.mod_mod by (unfold Arith256.two64; lia). reflexivity.
Qed.

Lemma to_int64_small (a : Z) : int64_nonneg a -> Arith256.to_int64 a = a.
Proof.
unfold int64_nonneg, Arith256.to_int64; intros Ha.
assert (E : a mod Arith256.two64 = a)
  by (apply Z.mod_small; unfold Arith256.two63, Arith256.two64 in *; lia).
rewrite E. destruct (Z.ltb_spec a Arith256.two63); lia.
Qed.

Lemma to_int64_zero_iff (a : Z) :
  Arith256.to_int64 a = 0 <-> a mod Arith256.two64 = 0.
Proof.
unfold Arith256.to_int64.
pose proof (Z.mod_pos_bound a Arith256.two64 ltac:(unfold Arith256.two64; lia)) as B.
destruct (Z.ltb_spec (a mod Arith256.two64) Arith256.two63);
  unfold Arith256.two63, Arith256.two64 in *; lia.
Qed.

(** What the function computes on non-negative inputs, in exact terms. *)
Lemma CalculateFractionalPrice_exact (x d : Z) (roundup : bool) :
  int64_nonneg x -> int64_nonneg d -> d <> 0 ->
  CalculateFractionalPrice x d roundup =
    Some (if negb (Arith256.to_int64 (exactRemainder x d) =? 0) && roundup
          then Arith256.to_int64 (Arith256.to_int64 (exactQuotient x d) + 1)
          else Arith256.to_int64 (exactQuotient x d)).
Proof.
intros Hx Hd Hd0. unfold CalculateFractionalPrice.
rewrite (denominator_exact d Hd), (numerator_exact x Hx).
unfold Arith256.div.
assert (Hden : 0 < d * SATOSHIDEN)
  by (unfold int64_nonneg, SATOSHIDEN in *; lia).
destruct (Z.eqb_spec (d * SATOSHIDEN) 0) as [E | _]; [lia |].
fold (exactQuotient x d).
assert (Hnum : 0 <= x * (SATOSHIDEN * SATOSHIDEN) < Arith256.modulus)
  by (unfold int64_nonneg, SATOSHIDEN, Arith256.modulus, Arith256.two63 in *; lia).
assert (Hq : 0 <= exactQuotient x d)
  by (unfold exactQuotient; apply Z.div_pos; lia).
pose proof (Z.mul_div_le (x * (SATOSHIDEN * SATOSHIDEN)) (d * SATOSHIDEN) Hden) as Hle.
fold (exactQuotient x d) in Hle.
assert (Hprod : Arith256.mul (exactQuotient x d) (d * SATOSHIDEN)
                = d * SATOSHIDEN * exactQuotient x d).
{ unfold Arith256.mul. rewrite Z.mod_small; [lia |]. split; [nia | lia]. }
rewrite Hprod.
assert (Hrem : Arith256.sub (x * (SATOSHIDEN * SATOSHIDEN))
                            (d * SATOSHIDEN * exactQuotient x d)
               = exactRemainder x d).
{ unfold Arith256.sub, exactRemainder, exactQuotient.
  rewrite <- Z.mod_eq by lia.
  pose proof (Z.mod_pos_bound (x * (SATOSHIDEN * SATOSHIDEN)) (d * SATOSHIDEN) Hden).
  pose proof (Z.mod_le (x * (SATOSHIDEN * SATOSHIDEN)) (d * SATOSHIDEN)
                       ltac:(lia) Hden).
  apply Z.mod_small. lia. }
rewrite Hrem, !to_int64_low64.
destruct (negb _ && roundup); reflexivity.
Qed.

End PriceFacts.

(** C3 (as amended).  With the round-up flag cleared and non-negative 64-bit
    inputs, the denominator being nonzero, the 256-bit intermediates are the
    exact products, and the value returned is the low 64 bits, read as a
    signed integer, of [floor(numerator * scale^2 / (denominator * scale))];
    it is that floor itself whenever the floor is below [2^63].  For
    numerator 1 and denominator 3 the result [r] satisfies
    [r*3*scale <= scale^2 < (r+1)*3*scale]. *)
Theorem CalculateFractionalPrice_round_down (x d : Z) :
  int64_nonneg x -> int64_nonneg d -> d <> 0 ->
  Arith256.mul (Arith256.of_int64 x) BigSatoshiSquared = x * (SATOSHIDEN * SATOSHIDEN)
  /\ Arith256.mul (Arith256.of_int64 d) BigSatoshi = d * SATOSHIDEN
  /\ CalculateFractionalPrice x d false = Some (Arith256.to_int64 (exactQuotient x d))
  /\ (exactQuotient x d < Arith256.two63 ->
      CalculateFractionalPrice x d false = Some (exactQuotient x d))
  /\ (exists r, CalculateFractionalPrice 1 3 false = Some r
                /\ r * 3 * SATOSHIDEN <= 1 * (SATOSHIDEN * SATOSHIDEN)
                   < (r + 1) * 3 * SATOSHIDEN).
Proof.
  intros Hx Hd Hd0.
  pose proof (CalculateFractionalPrice_exact x d false Hx Hd Hd0) as E.
  rewrite andb_false_r in E.
  repeat split.
  - exact (numerator_exact x Hx).
  - exact (denominator_exact d Hd).
  - exact E.
  - intros Hq. rewrite E. f_equal. apply to_int64_small.
    split; [| exact Hq].
    unfold exactQuotient. apply Z.div_pos;
      unfold int64_nonneg, SATOSHIDEN in *; lia.
  - exists 33333333. vm_compute. repeat split; discriminate.
Qed.

Lemma CalculateFractionalPrice_round_down_witness :
  CalculateFractionalPrice 250 7 false = Some (exactQuotient 250 7).
Proof.
  refine (proj1 (proj2 (proj2 (proj2
            (CalculateFractionalPrice_round_down 250 7 _ _ _)))) _);
    unfold int64_nonneg, Arith256.two63; vm_compute; try split; congruence.
Defined.

(** C3 as first stated fails: the quotient of [2^62] by 1 does not fit the
    64-bit result and the function returns 0. *)
Lemma CalculateFractionalPrice_round_down_truncates :
  int64_nonneg (2 ^ 62) /\ int64_nonneg 1
  /\ CalculateFractionalPrice (2 ^ 62) 1 false = Some 0
  /\ exactQuotient (2 ^ 62) 1 = 2 ^ 62 * SATOSHIDEN
  /\ Some (exactQuotient (2 ^ 62) 1) <> CalculateFractionalPrice (2 ^ 62) 1 false.
Proof.
  unfold int64_nonneg. vm_compute. repeat split; congruence.
Qed.

(** C2.  At numerator [2^31] and denominator [142690770762072064] the
    exact remainder is [2^56 * 10^8], nonzero with its low 64 bits all zero:
    the round-up result equals the round-down result instead of exceeding it
    by one. *)
Theorem CalculateFractionalPrice_roundup_missed :
  int64_nonneg 2147483648 /\ int64_nonneg 142690770762072064
  /\ exactRemainder 2147483648 142690770762072064 = 2 ^ 56 * SATOSHIDEN
  /\ exactRemainder 2147483648 142690770762072064 <> 0
  /\ CalculateFractionalPrice 2147483648 142690770762072064 false = Some 1
  /\ CalculateFractionalPrice 2147483648 142690770762072064 true = Some 1.
Proof.
  unfold int64_nonneg. vm_compute. repeat split; congruence.
Qed.

(** Where the round-up is right: the remainder is below [2^64] as soon as
    [denominator * scale] is, and then the flag adds one exactly when the
    remainder is nonzero (the quotient staying clear of [INT64_MAX]). *)
Lemma CalculateFractionalPrice_roundup_narrow (x d : Z) :
  int64_nonneg x -> int64_nonneg d -> d <> 0 ->
  d * SATOSHIDEN < Arith256.two64 ->
  exactQuotient x d < Arith256.two63 - 1 ->
  CalculateFractionalPrice x d true =
    Some (if exactRemainder x d =? 0 then exactQuotient x d else exactQuotient x d + 1)
  /\ CalculateFractionalPrice x d false = Some (exactQuotient x d).
Proof.
  intros Hx Hd Hd0 Hnarrow Hq.
  assert (Hden : 0 < d * SATOSHIDEN) by (unfold int64_nonneg, SATOSHIDEN in *; lia).
  assert (Hq0 : 0 <= exactQuotient x d).
  { unfold exactQuotient. apply Z.div_pos; unfold int64_nonneg, SATOSHIDEN in *; lia. }
  pose proof (Z.mod_pos_bound (x * (SATOSHIDEN * SATOSHIDEN)) (d * SATOSHIDEN) Hden) as Hr.
  fold (exactRemainder x d) in Hr.
  rewrite !CalculateFractionalPrice_exact by assumption.
  rewrite andb_false_r, andb_true_r.
  rewrite (to_int64_small (exactQuotient x d)) by (unfold int64_nonneg; lia).
  split; [| reflexivity].
  assert (Hz : (Arith256.to_int64 (exactRemainder x d) =? 0) = (exactRemainder x d =? 0)).
  { destruct (Z.eqb_spec (exactRemainder x d) 0) as [E | E].
    - rewrite E. reflexivity.
    - apply Z.eqb_neq. rewrite to_int64_zero_iff.
      rewrite Z.mod_small by lia. exact E. }
  rewrite Hz. destruct (exactRemainder x d =? 0); simpl; [reflexivity |].
  f_equal. apply to_int64_small. unfold int64_nonneg. lia.
Qed.

(* ================================================================== *)
(** * Properties of the transfer scans *)
(* ================================================================== *)

Section ScanFacts.
Variable env : Env.
Variables (nofilter : bool) (chainFilter : uint160).

Lemma unspentTransferOf_invalid (out : CTxOut) :
  transferPayloadValid out = false ->
  unspentTransferOf env nofilter chainFilter out = None.
Proof.
unfold transferPayloadValid, unspentTransferOf.
destruct (IsPayToCryptoCondition (scriptPubKey out)) as [p |]; [| reflexivity].
intros ->. simpl. destruct (_ && _ && _ && _); reflexivity.
Qed.

Lemma rangeTransferOf_invalid (flags : Z) (out : CTxOut) :
  transferPayloadValid out = false ->
  rangeTransferOf env nofilter chainFilter flags out = None.
Proof.
unfold transferPayloadValid, rangeTransferOf.
destruct (IsPayToCryptoCondition (scriptPubKey out)) as [p |]; [| reflexivity].
intros ->. simpl. destruct (_ && _); reflexivity.
Qed.

(** *** Unspent scan *)

Lemma unspentLoop_app (l1 l2 : list UnspentEntry) :
  forall ins log,
    unspentTransfersLoop env nofilter chainFilter (l1 ++ l2) ins log =
    unspentTransfersLoop env nofilter chainFilter l2
      (fst (unspentTransfersLoop env nofilter chainFilter l1 ins log))
      (snd (unspentTransfersLoop env nofilter chainFilter l1 ins log)).
Proof.
induction l1 as [| it l1 IH]; intros ins log; simpl; [reflexivity |].
destruct (GetCoins env (txhash (fst it))); apply IH.
Qed.

(** The entries gathered do not depend on the diagnostics so far. *)
Lemma unspentLoop_entries_log (l : list UnspentEntry) :
  forall ins log log',
    fst (unspentTransfersLoop env nofilter chainFilter l ins log) =
    fst (unspentTransfersLoop env nofilter chainFilter l ins log').
Proof.
induction l as [| it l IH]; intros ins log log'; simpl; [reflexivity |].
destruct (GetCoins env (txhash (fst it))); apply IH.
Qed.

Lemma unspentLoop_log_kept (l : list UnspentEntry) (d : Diagnostic) :
  forall ins log,
    In d log -> In d (snd (unspentTransfersLoop env nofilter chainFilter l ins log)).
Proof.
induction l as [| it l IH]; intros ins log Hd; simpl; [exact Hd |].
destruct (GetCoins env (txhash (fst it))); apply IH; [exact Hd |].
apply in_or_app; left; exact Hd.
Qed.

(** An entry that cannot be resolved leaves the entries gathered as if it
  were not indexed and adds its diagnostic. *)
Lemma unspentLoop_skip_unretrievable (l1 l2 : list UnspentEntry) (bad : UnspentEntry) :
  GetCoins env (txhash (fst bad)) = None ->
  forall ins,
    fst (unspentTransfersLoop env nofilter chainFilter (l1 ++ bad :: l2) ins []) =
    fst (unspentTransfersLoop env nofilter chainFilter (l1 ++ l2) ins [])
    /\ In (mkDiag Console (txhash (fst bad)))
          (snd (unspentTransfersLoop env nofilter chainFilter (l1 ++ bad :: l2) ins [])).
Proof.
intros Hbad ins. rewrite !unspentLoop_app. simpl. rewrite Hbad. split.
- apply unspentLoop_entries_log.
- apply unspentLoop_log_kept, in_or_app. right. left. reflexivity.
Qed.

(** An entry with an invalid payload leaves no trace at all. *)
Lemma unspentLoop_skip_invalid (l1 l2 : list UnspentEntry) (bad : UnspentEntry)
      (coins : CCoins) :
  GetCoins env (txhash (fst bad)) = Some coins ->
  transferPayloadValid (voutAt (coins_vout coins) (index (fst bad))) = false ->
  forall ins,
    unspentTransfersLoop env nofilter chainFilter (l1 ++ bad :: l2) ins [] =
    unspentTransfersLoop env nofilter chainFilter (l1 ++ l2) ins [].
Proof.
intros Hc Hbad ins. rewrite !unspentLoop_app. simpl. rewrite Hc.
rewrite (unspentTransferOf_invalid _ Hbad).
destruct (IsAvailable coins (index (fst bad))); reflexivity.
Qed.

(** *** Height-ranged scan *)

Lemma rangeLoop_skip_invalid (flags : Z) (l1 l2 : list (CAddressIndexKey * Z))
      (bad : CAddressIndexKey * Z) (ntx : CTransaction) (blk : uint256) :
  myGetTransaction env (ik_txhash (fst bad)) = Some (ntx, blk) ->
  transferPayloadValid (voutAt (vout ntx) (ik_index (fst bad))) = false ->
  forall ins log,
    chainTransfersLoop env nofilter chainFilter flags (l1 ++ bad :: l2) ins log =
    chainTransfersLoop env nofilter chainFilter flags (l1 ++ l2) ins log.
Proof.
intros Htx Hbad. induction l1 as [| it l1 IH]; intros ins log; simpl.
- rewrite Htx, (rangeTransferOf_invalid _ _ Hbad).
  destruct (spending (fst bad)); reflexivity.
- destruct (spending (fst it)); [apply IH |].
  destruct (myGetTransaction env (ik_txhash (fst it))) as [[t b] |];
    [apply IH | reflexivity].
Qed.

(** One unresolvable entry, wherever it stands, makes the scan fail, with
  the two diagnostics of the first such entry. *)
Lemma rangeLoop_fails (flags : Z) (l : list (CAddressIndexKey * Z))
      (bad : CAddressIndexKey * Z) :
  In bad l -> spending (fst bad) = false ->
  myGetTransaction env (ik_txhash (fst bad)) = None ->
  forall ins log,
  exists ins' h,
    chainTransfersLoop env nofilter chainFilter flags l ins log =
      (false, ins', log ++ [mkDiag DebugLog h; mkDiag Console h])
    /\ myGetTransaction env h = None.
Proof.
intros Hin Hsp Htx. induction l as [| it l IH]; intros ins log; [destruct Hin |].
simpl. destruct (spending (fst it)) eqn:Esp.
- destruct Hin as [-> | Hin]; [congruence | apply IH; exact Hin].
- destruct (myGetTransaction env (ik_txhash (fst it))) as [[t b] |] eqn:Et.
  + destruct Hin as [-> | Hin]; [congruence | apply IH; exact Hin].
  + exists ins, (ik_txhash (fst it)). split; [reflexivity | exact Et].
Qed.
End ScanFacts.

(* ================================================================== *)
(** * Properties of the seed step *)
(* ================================================================== *)

Section SeedFacts.
Variable env : Env.
Variable wantTx : bool.

Lemma length_zero_nil {A : Type} (l : list A) : (length l =? 0)%nat = false <-> l <> [].
Proof. destruct l; simpl; split; intros; congruence. Qed.

(** A resolving entry seeds the fork index with its record. *)
Lemma seedFromEntry_resolves (chainDef : CCurrencyDefinition) (e : UnspentEntry)
      (legacy : bool) (r : CUTXORef) (nz : CPBaaSNotarization) :
  SeedResolves env wantTx e legacy r nz ->
  seedFromEntry env chainDef wantTx emptyData e =
    (if legacy && IsToken chainDef then SeedReturn (singleFork r nz)
     else SeedNext (singleFork r nz))
  /\ valid nz = true.
Proof.
intros Hres. unfold seedFromEntry.
destruct Hres as [p nTx blk Hp Hv He Hd r0 Htx Hsz Hnz | p Hp Hv He Hd Hnz Htx];
  rewrite Hp, Hv.
- rewrite He. simpl. apply length_zero_nil in Hd. rewrite Hd. simpl.
  subst r0. simpl in Htx, Hsz, Hnz. rewrite Htx, Hsz, Hnz. simpl. split; reflexivity.
- rewrite He, orb_true_r. simpl. apply length_zero_nil in Hd. rewrite Hd.
  assert (Hf : isFinalizeEval (evalCode p) = false)
    by (destruct (evalCode p); simpl in *; congruence).
  rewrite Hf, Hnz. simpl.
  assert (Hok :
    (if wantTx
     then match myGetTransaction env (txhash (fst e)) with
          | Some (nTx, _) =>
              sizeGt (vout nTx) (index (fst e))
              && valid (notarizationOfScript
                          (scriptPubKey (voutAt (vout nTx) (index (fst e)))))
          | None => false
          end
     else true) = true).
  { destruct wantTx; [| reflexivity].
    destruct (Htx eq_refl) as (nTx & blk & H1 & H2 & H3). simpl in H1, H2, H3.
    rewrite H1, H2, H3. reflexivity. }
  rewrite Hok. simpl. split; [| reflexivity].
  destruct (IsToken chainDef); reflexivity.
Qed.

(** Conversely, whatever the entry seeds is a record it resolves to. *)
Lemma seedFromEntry_sound (chainDef : CCurrencyDefinition) (e : UnspentEntry)
      (nd : CChainNotarizationData) :
  (seedFromEntry env chainDef wantTx emptyData e = SeedReturn nd
   \/ (seedFromEntry env chainDef wantTx emptyData e = SeedNext nd /\ vtx nd <> [])) ->
  exists legacy r nz, SeedResolves env wantTx e legacy r nz /\ nd = singleFork r nz.
Proof.
unfold seedFromEntry.
destruct (IsPayToCryptoCondition (script (snd e))) as [p |] eqn:Hp;
  [| intros [H | [H _]]; discriminate].
destruct (cc_valid p) eqn:Hv; simpl; [| intros [H | [H _]]; discriminate].
destruct (isFinalizeEval (evalCode p)) eqn:Hf; simpl.
- destruct (length (vData p) =? 0)%nat eqn:Hd; [intros [H | [H _]]; discriminate |].
  apply length_zero_nil in Hd.
  destruct (myGetTransaction env _) as [[nTx blk] |] eqn:Htx.
  + destruct (sizeGt (vout nTx) _) eqn:Hsz.
    * destruct (valid (notarizationOfScript _)) eqn:Hnz; simpl;
        intros [H | [H Hne]]; try discriminate.
      injection H as <-.
      exists false, (finalizedRef (txhash (fst e)) (asFinalization (nth 0 (vData p) VRaw))),
        (notarizationOfScript
           (scriptPubKey
              (voutAt (vout nTx)
                 (n (finalizedRef (txhash (fst e))
                       (asFinalization (nth 0 (vData p) VRaw))))))).
      split; [| reflexivity].
      apply (resolves_finalization env wantTx e p nTx blk); try assumption.
      destruct (evalCode p); simpl in Hf; congruence.
    * intros [H | [H Hne]]; [discriminate |]. injection H as <-. now elim Hne.
  + intros [H | [H Hne]]; [discriminate |]. injection H as <-. now elim Hne.
- destruct (isNotarizationEval (evalCode p)) eqn:He; simpl;
    [| intros [H | [H _]]; discriminate].
  destruct (length (vData p) =? 0)%nat eqn:Hd; [intros [H | [H _]]; discriminate |].
  apply length_zero_nil in Hd.
  destruct (valid (asNotarization (nth 0 (vData p) VRaw))) eqn:Hnz; simpl;
    [| intros [H | [H _]]; discriminate].
  match goal with
  | |- context [negb ?b] => destruct b eqn:Hok
  end; simpl; [| intros [H | [H _]]; discriminate].
  assert (Hout : wantTx = true ->
                 outputNotarized env (mkRef (txhash (fst e)) (index (fst e)))).
  { intros ->. unfold outputNotarized. simpl.
    destruct (myGetTransaction env (txhash (fst e))) as [[nTx blk] |]; [| discriminate].
    apply andb_prop in Hok as [H1 H2]. exists nTx, blk. repeat split; assumption. }
  intros H.
  exists true, (mkRef (txhash (fst e)) (index (fst e))),
    (asNotarization (nth 0 (vData p) VRaw)).
  split; [apply (resolves_legacy env wantTx e p); assumption |].
  destruct (IsToken chainDef); destruct H as [H | [H _]];
    try discriminate; injection H as <-; reflexivity.
Qed.
End SeedFacts.

Section SeedTheorems.
Context {P : Type} `{ChainPowerOps P}.

(** C5 (as amended).  When the chain's own currency is queried, its
  definition being cached, on the Verus chain itself or while the chain
  is at height 0, the query returns one fork of length 1 holding the
  record synthesized from the current height, with best-chain and
  last-confirmed index 0, whatever the address index and the transaction
  store contain. *)
Theorem local_currency_is_synthesized (env : Env) (cur : uint160) (wantTx : bool) :
  def_valid (GetCachedCurrency env cur) = true ->
  cur = ASSETCHAINS_CHAINID env ->
  IsVerusActive env = true \/ uint32 (chainHeight env) = 0 ->
  GetNotarizationData env cur wantTx
    = Some (singleFork nullRef (localNotarization env cur))
  /\ notarizationHeight (localNotarization env cur) = uint32 (chainHeight env)
  /\ forall unspent txOf,
       GetNotarizationData (withLedger env unspent txOf) cur wantTx
         = GetNotarizationData env cur wantTx.
Proof.
intros Hdef Hcur Hguard.
assert (G : forall e, GetCachedCurrency e = GetCachedCurrency env ->
                      chainHeight e = chainHeight env ->
                      IsVerusActive e = IsVerusActive env ->
                      ASSETCHAINS_CHAINID e = ASSETCHAINS_CHAINID env ->
                      localNotarization e cur = localNotarization env cur ->
                      GetNotarizationData e cur wantTx
                        = Some (singleFork nullRef (localNotarization env cur))).
{ intros e E1 E2 E3 E4 E5. unfold GetNotarizationData, seedStep, localGuard.
  rewrite E1, E2, E3, E4, E5, Hdef. simpl.
  replace (cur =? ASSETCHAINS_CHAINID env) with true
    by (symmetry; apply Z.eqb_eq; exact Hcur).
  destruct Hguard as [-> | ->]; simpl; [reflexivity |].
  rewrite orb_true_r. reflexivity. }
split; [apply G; reflexivity |].
split; [reflexivity |].
intros unspent txOf. rewrite (G env) by reflexivity.
apply G; reflexivity.
Qed.

(** The loop over the confirmed index never ends on an entry of lower
    height than the one it started from. *)
Lemma latest_fold_after (e : UnspentEntry) (after : list UnspentEntry) :
  Forall (fun x => blockHeight (snd x) <= blockHeight (snd e)) after ->
  fold_left
    (fun bestIt oneIt =>
       if blockHeight (snd bestIt) <? blockHeight (snd oneIt) then oneIt else bestIt)
    after e = e.
Proof.
induction 1 as [| x after Hx _ IH]; simpl; [reflexivity |].
destruct (Z.ltb_spec (blockHeight (snd e)) (blockHeight (snd x))); [lia | exact IH].
Qed.

Lemma latest_fold_before (h : Z) (before : list UnspentEntry) :
  Forall (fun x => blockHeight (snd x) < h) before ->
  forall b : UnspentEntry,
    blockHeight (snd b) < h ->
    blockHeight
      (snd (fold_left
              (fun bestIt oneIt =>
                 if blockHeight (snd bestIt) <? blockHeight (snd oneIt)
                 then oneIt else bestIt)
              before b)) < h.
Proof.
induction 1 as [| x before Hx _ IH]; intros b Hb; simpl; [exact Hb |].
destruct (blockHeight (snd b) <? blockHeight (snd x)); apply IH; assumption.
Qed.

(** The entry the loop chooses is the most recent one, and no other entry
    is. *)
Lemma mostRecent_latestConfirmed (e first : UnspentEntry) (rest : list UnspentEntry) :
  mostRecent e (first :: rest) -> latestConfirmed first (first :: rest) = e.
Proof.
intros (before & after & Hl & Hb & Ha). unfold latestConfirmed.
destruct before as [| b0 before]; simpl in Hl; injection Hl as <- ->.
- simpl. rewrite Z.ltb_irrefl. apply latest_fold_after. exact Ha.
- inversion Hb as [| ? ? Hfirst Hrest]; subst.
  simpl. rewrite Z.ltb_irrefl. rewrite fold_left_app. simpl.
  pose (step := fun bestIt oneIt : UnspentEntry =>
                  if blockHeight (snd bestIt) <? blockHeight (snd oneIt)
                  then oneIt else bestIt).
  pose (best := fold_left step before first).
  change (fold_left step after
                    (if blockHeight (snd best) <? blockHeight (snd e) then e else best)
          = e).
  assert (Hlt : blockHeight (snd best) < blockHeight (snd e))
    by (apply latest_fold_before; assumption).
  apply Z.ltb_lt in Hlt. rewrite Hlt. apply latest_fold_after. exact Ha.
Qed.

Lemma latest_fold_cases (l : list UnspentEntry) :
  forall b : UnspentEntry,
    let r := fold_left
               (fun bestIt oneIt =>
                  if blockHeight (snd bestIt) <? blockHeight (snd oneIt)
                  then oneIt else bestIt)
               l b in
    (r = b /\ Forall (fun x => blockHeight (snd x) <= blockHeight (snd b)) l)
    \/ (exists l1 l2,
           l = l1 ++ r :: l2
           /\ blockHeight (snd b) < blockHeight (snd r)
           /\ Forall (fun x => blockHeight (snd x) < blockHeight (snd r)) l1
           /\ Forall (fun x => blockHeight (snd x) <= blockHeight (snd r)) l2).
Proof.
induction l as [| a l IH]; intros b; cbv zeta; simpl.
- left. split; [reflexivity | constructor].
- destruct (Z.ltb_spec (blockHeight (snd b)) (blockHeight (snd a))) as [Hlt | Hge].
  + right. destruct (IH a) as [[Er Hall] | (l1 & l2 & El & Hlt' & H1 & H2)];
      cbv zeta in *.
    * exists [], l. rewrite Er. split; [reflexivity |]. split; [exact Hlt |].
      split; [constructor | exact Hall].
    * exists (a :: l1), l2. split; [simpl; f_equal; exact El |].
      split; [lia |]. split; [constructor; assumption | exact H2].
  + destruct (IH b) as [[Er Hall] | (l1 & l2 & El & Hlt' & H1 & H2)]; cbv zeta in *.
    * left. split; [exact Er | constructor; [lia | exact Hall]].
    * right. exists (a :: l1), l2. split; [simpl; f_equal; exact El |].
      split; [exact Hlt' |]. split; [constructor; [lia | exact H1] | exact H2].
Qed.

(** Every index that is not empty has a most recent entry, the one the
    loop chooses. *)
Lemma latestConfirmed_mostRecent (first : UnspentEntry) (rest : list UnspentEntry) :
  mostRecent (latestConfirmed first (first :: rest)) (first :: rest).
Proof.
unfold latestConfirmed, mostRecent. simpl. rewrite Z.ltb_irrefl.
destruct (latest_fold_cases rest first) as [[Er Hall] | (l1 & l2 & El & Hlt & H1 & H2)];
  cbv zeta in *.
- exists [], rest. rewrite Er. split; [reflexivity |]. split; [constructor | exact Hall].
- exists (first :: l1), l2. split; [simpl; f_equal; exact El |].
  split; [constructor; assumption | exact H2].
Qed.

(** C10.  For a token whose most recent unspent confirmed output, the
    entry of greatest block height and the first of that height in the
    index, is itself a valid notarization output, the query returns one
    fork of length 1 with best-chain and last-confirmed index 0, whatever
    the pending index holds; its one entry is the record of that most
    recent output whenever the lookup of confirmed outputs is what seeds
    the query. *)
Theorem legacy_token_returns_seed_only (env : Env) (cur : uint160) (wantTx : bool)
        (first : UnspentEntry) (rest : list UnspentEntry) (e : UnspentEntry)
        (p : COptCCParams) :
  def_valid (GetCachedCurrency env cur) = true ->
  IsToken (GetCachedCurrency env cur) = true ->
  GetAddressUnspent env (confirmedNotarizationKey env cur) = Some (first :: rest) ->
  mostRecent e (first :: rest) ->
  IsPayToCryptoCondition (script (snd e)) = Some p ->
  cc_valid p = true ->
  isNotarizationEval (evalCode p) = true ->
  vData p <> [] ->
  valid (asNotarization (nth 0 (vData p) VRaw)) = true ->
  (wantTx = true -> outputNotarized env (mkRef (txhash (fst e)) (index (fst e)))) ->
  e = latestConfirmed first (first :: rest)
  /\ exists nd,
       GetNotarizationData env cur wantTx = Some nd
       /\ length (vtx nd) = 1%nat
       /\ forks nd = [[0%nat]]
       /\ bestChain nd = 0
       /\ lastConfirmed nd = 0
       /\ (localGuard env cur = false ->
           nd = singleFork (mkRef (txhash (fst e)) (index (fst e)))
                           (asNotarization (nth 0 (vData p) VRaw))).
Proof.
intros Hdef Htok Hidx Hrecent Hp Hv He Hd Hnz Htx.
pose proof (mostRecent_latestConfirmed e first rest Hrecent) as Hlatest.
split; [symmetry; exact Hlatest |].
pose proof (resolves_legacy env wantTx e p Hp Hv He Hd Hnz Htx) as Hres.
destruct (seedFromEntry_resolves env wantTx (GetCachedCurrency env cur) e _ _ _ Hres)
  as [Hseed _].
unfold GetNotarizationData, seedStep.
rewrite Hdef. change (negb true) with false. cbv beta iota zeta.
destruct (localGuard env cur).
- eexists. split; [reflexivity |]. repeat split; try reflexivity. discriminate.
- rewrite Hidx. cbv beta iota zeta.
  rewrite Hlatest, Hseed, Htok.
  eexists. split; [reflexivity |]. repeat split; reflexivity.
Qed.
End SeedTheorems.

(** C5 as first stated fails: on a chain other than Verus, past height 0,
    the chain's own currency goes through the finalization lookup, and with
    no confirmed finalization indexed the query fails. *)
Lemma local_currency_not_synthesized_off_verus :
  def_valid (GetCachedCurrency Samples.chainOther 1) = true
  /\ 1 = ASSETCHAINS_CHAINID Samples.chainOther
  /\ GetNotarizationData Samples.chainOther 1 false = None.
Proof. vm_compute. repeat split; reflexivity. Qed.

Lemma local_currency_is_synthesized_witness :
  GetNotarizationData Samples.chainVerus 1 false
    = Some (singleFork nullRef (localNotarization Samples.chainVerus 1)).
Proof.
  exact (proj1 (local_currency_is_synthesized Samples.chainVerus 1 false
                  eq_refl eq_refl (or_introl eq_refl))).
Defined.

Lemma legacy_token_returns_seed_only_witness :
  Samples.legacyEntry 100 (Samples.notz nullRef (Some 5)) 12
  = latestConfirmed (Samples.finEntry 200 Samples.R 9) SeedSamples.confirmedLate
  /\ exists nd,
       GetNotarizationData SeedSamples.chainTokenLate 7 true = Some nd
       /\ length (vtx nd) = 1%nat
       /\ forks nd = [[0%nat]]
       /\ bestChain nd = 0
       /\ lastConfirmed nd = 0
       /\ (localGuard SeedSamples.chainTokenLate 7 = false ->
           nd = singleFork (mkRef 100 0) (Samples.notz nullRef (Some 5))).
Proof.
refine (legacy_token_returns_seed_only SeedSamples.chainTokenLate 7 true
          (Samples.finEntry 200 Samples.R 9)
          [Samples.legacyEntry 100 (Samples.notz nullRef (Some 5)) 12;
           Samples.finEntry 201 Samples.P1 11]
          (Samples.legacyEntry 100 (Samples.notz nullRef (Some 5)) 12)
          (mkParams true 3 EVAL_EARNEDNOTARIZATION
                    [VNotarization (Samples.notz nullRef (Some 5))])
          eq_refl eq_refl eq_refl _ eq_refl eq_refl eq_refl _ eq_refl _).
- exists [Samples.finEntry 200 Samples.R 9], [Samples.finEntry 201 Samples.P1 11].
  split; [reflexivity |]. split; repeat constructor; simpl; lia.
- discriminate.
- intros _. eexists; eexists. repeat split; reflexivity.
Defined.

(* ================================================================== *)
(** * Shape of the fork expansion *)
(* ================================================================== *)

Section GrowthShape.

Lemma pushAt_length (i x : nat) (fs : list (list nat)) :
  length (pushAt i x fs) = length fs.
Proof.
revert i; induction fs as [| f fs IH]; intros [| i]; simpl; auto.
Qed.

(** [pushAt] touches fork [i] only. *)
Lemma pushAt_split (i x : nat) (fs : list (list nat)) :
  (i < length fs)%nat ->
  fs = firstn i fs ++ nth i fs [] :: skipn (S i) fs
  /\ pushAt i x fs = firstn i fs ++ (nth i fs [] ++ [x]) :: skipn (S i) fs.
Proof.
revert i; induction fs as [| f fs IH]; intros i Hi; simpl in Hi; [lia |].
destruct i as [| i]; simpl; [split; reflexivity |].
destruct (IH i ltac:(lia)) as [E1 E2]. split; f_equal; assumption.
Qed.

Lemma nth_pushAt (i x : nat) (fs : list (list nat)) :
  (i < length fs)%nat -> nth i (pushAt i x fs) [] = nth i fs [] ++ [x].
Proof.
revert i; induction fs as [| f fs IH]; intros i Hi; simpl in Hi; [lia |].
destruct i as [| i]; simpl; [reflexivity | apply IH; lia].
Qed.

(** Once a fork has been extended, every further match adds a copy of it
  with the last index replaced. *)
Lemma addMatches_clones (i : nat) (f : list nat) (a : nat) (added : bool) :
  forall (rest : list (CUTXORef * Entry)) (v : list Entry) (fs : list (list nat)),
    (i < length fs)%nat ->
    nth i fs [] = f ++ [a] ->
    addMatches i rest v fs true added =
      (v ++ map snd rest,
       fs ++ map (fun j => f ++ [j]) (seq (length v) (length rest)),
       added).
Proof.
induction rest as [| m rest IH]; intros v fs Hi Hn; simpl.
- rewrite !app_nil_r. reflexivity.
- rewrite IH.
  + rewrite length_app. simpl.
    replace (length v + 1 - 1)%nat with (length v) by lia.
    replace (length v + 1)%nat with (S (length v)) by lia.
    unfold cloneWithTip. rewrite Hn, removelast_last.
    rewrite <- !app_assoc. reflexivity.
  + rewrite length_app. simpl. lia.
  + rewrite app_nth1 by exact Hi. exact Hn.
Qed.

(** The first match extends the fork in place, the others clone it. *)
Lemma addMatches_first (i : nat) (added : bool) (m : CUTXORef * Entry)
      (rest : list (CUTXORef * Entry)) (v : list Entry) (fs : list (list nat)) :
  (i < length fs)%nat ->
  addMatches i (m :: rest) v fs false added =
    (v ++ map snd (m :: rest),
     pushAt i (length v) fs
       ++ map (fun j => nth i fs [] ++ [j]) (seq (S (length v)) (length rest)),
     true).
Proof.
intros Hi. simpl.
rewrite (addMatches_clones i (nth i fs []) (length v) true).
- rewrite !length_app. simpl.
  replace (length v + 1 - 1)%nat with (length v) by lia.
  replace (length v + 1)%nat with (S (length v)) by lia.
  rewrite <- app_assoc. reflexivity.
- rewrite pushAt_length. exact Hi.
- rewrite length_app. simpl.
  replace (length v + 1 - 1)%nat with (length v) by lia.
  apply nth_pushAt. exact Hi.
Qed.

(** The two cases of one step of the loop over forks. *)
Lemma growFork_cases (i : nat) (g : Growth) :
  (i < length (g_forks g))%nat ->
  let t := fst (tipEntry (g_vtx g) (nth i (g_forks g) [])) in
  match mm_run ref_ltb ref_eqb t (g_refs g) with
  | [] =>
      growFork i g =
        mkGrowth (g_vtx g) (g_forks g) (mm_erase ref_eqb t (g_refs g)) (somethingAdded g)
  | m :: rest =>
      growFork i g =
        mkGrowth (g_vtx g ++ map snd (m :: rest))
                 (pushAt i (length (g_vtx g)) (g_forks g)
                    ++ map (fun j => nth i (g_forks g) [] ++ [j])
                           (seq (S (length (g_vtx g))) (length rest)))
                 (mm_erase ref_eqb t (g_refs g)) true
  end.
Proof.
intros Hi t. unfold growFork. fold t.
destruct (mm_run ref_ltb ref_eqb t (g_refs g)) as [| m rest].
- reflexivity.
- rewrite addMatches_first by exact Hi. reflexivity.
Qed.

(** *** What holds of the expansion whatever the references are *)

Lemma rooted_app (f : list nat) (x : nat) : rooted f -> rooted (f ++ [x]).
Proof. destruct f; unfold rooted; simpl; [discriminate | auto]. Qed.

Lemma growFork_keepsSeed (v0 : list Entry) (i : nat) (g : Growth) :
  (i < length (g_forks g))%nat ->
  keepsSeed v0 g ->
  keepsSeed v0 (growFork i g)
  /\ (length (g_forks g) <= length (g_forks (growFork i g)))%nat.
Proof.
intros Hi ([extra Hv] & Hne & Hr).
pose proof (growFork_cases i g Hi) as Hc. cbv zeta in Hc.
destruct (mm_run _ _ _ _) as [| m rest]; rewrite Hc; simpl.
- split; [| lia]. split; [exists extra; exact Hv | split; assumption].
- destruct (pushAt_split i (length (g_vtx g)) (g_forks g) Hi) as [E1 E2].
  assert (Hf : rooted (nth i (g_forks g) [])).
  { rewrite Forall_forall in Hr. apply Hr. apply nth_In. exact Hi. }
  split.
  + split; [| split].
    * exists (extra ++ snd m :: map snd rest). rewrite Hv, <- app_assoc. reflexivity.
    * intros E. apply app_eq_nil in E as [E _].
      apply (f_equal (@length _)) in E. rewrite pushAt_length in E.
      simpl in E. lia.
    * apply Forall_app. split.
      -- rewrite E2. rewrite E1 in Hr.
         apply Forall_app in Hr as [H1 H2]. apply Forall_app. split; [exact H1 |].
         inversion H2; subst. constructor; [apply rooted_app; assumption | assumption].
      -- apply Forall_forall. intros f Hin. apply in_map_iff in Hin as (j & <- & _).
         apply rooted_app. exact Hf.
  + rewrite length_app, pushAt_length. lia.
Qed.

Lemma growPass_keepsSeed (v0 : list Entry) (count : nat) :
  forall (from : nat) (g : Growth),
    (from + count <= length (g_forks g))%nat ->
    keepsSeed v0 g ->
    keepsSeed v0 (growPass count from g).
Proof.
induction count as [| count IH]; intros from g Hle Hk; simpl; [exact Hk |].
destruct (growFork_keepsSeed v0 from g ltac:(lia) Hk) as [Hk' Hlen].
apply IH; [lia | exact Hk'].
Qed.

Lemma growLoop_keepsSeed (v0 : list Entry) (fuel : nat) :
  forall g : Growth, keepsSeed v0 g -> keepsSeed v0 (growLoop fuel g).
Proof.
induction fuel as [| fuel IH]; intros g Hk; simpl; [exact Hk |].
destruct (somethingAdded g && negb (length (g_refs g) =? 0)%nat); [| exact Hk].
apply IH. apply growPass_keepsSeed; simpl; [lia | exact Hk].
Qed.

Lemma growForks_keepsSeed (nd : CChainNotarizationData) (refs : References) :
  forks nd <> [] -> Forall rooted (forks nd) ->
  keepsSeed (vtx nd) (growForks nd refs).
Proof.
intros Hne Hr. apply growLoop_keepsSeed.
split; [exists []; simpl; rewrite app_nil_r; reflexivity | split; assumption].
Qed.

(** With no reference at all the loop is not entered. *)
Lemma growForks_nil (nd : CChainNotarizationData) :
  growForks nd [] = mkGrowth (vtx nd) (forks nd) [] true.
Proof. reflexivity. Qed.
End GrowthShape.

(* ================================================================== *)
(** * Multimap facts *)
(* ================================================================== *)

Section RefOrder.

Lemma ref_eqb_eq (a b : CUTXORef) : ref_eqb a b = true <-> a = b.
Proof.
destruct a as [h1 n1], b as [h2 n2]; unfold ref_eqb; simpl. split.
- intros E. apply andb_prop in E as [E1 E2].
  apply Z.eqb_eq in E1, E2. congruence.
- intros E. injection E as -> ->. rewrite !Z.eqb_refl. reflexivity.
Qed.

Lemma ref_eqb_refl (a : CUTXORef) : ref_eqb a a = true.
Proof. apply ref_eqb_eq. reflexivity. Qed.

Lemma ref_eqb_neq (a b : CUTXORef) : ref_eqb a b = false <-> a <> b.
Proof.
split.
- intros E Heq. apply ref_eqb_eq in Heq. congruence.
- intros Hne. destruct (ref_eqb a b) eqn:E; [| reflexivity].
  apply ref_eqb_eq in E. contradiction.
Qed.

Lemma ref_eqb_sym (a b : CUTXORef) : ref_eqb a b = ref_eqb b a.
Proof.
destruct a, b; unfold ref_eqb; simpl. rewrite (Z.eqb_sym hash0), (Z.eqb_sym n0). reflexivity.
Qed.

Lemma ref_ltb_not_eq (a b : CUTXORef) : ref_ltb a b = true -> ref_eqb a b = false.
Proof. destruct a, b; unfold ref_ltb, ref_eqb; simpl. lia. Qed.

(** [k < e] and [e <= x] give [k <= x]. *)
Lemma ref_lt_le (k e x : CUTXORef) :
  ref_ltb k e = true -> ref_ltb x e = false -> ref_ltb x k = false.
Proof. destruct k, e, x; unfold ref_ltb; simpl. lia. Qed.

(** [k <= e] and [e <= x] give [k <= x]. *)
Lemma ref_le_le (k e x : CUTXORef) :
  ref_ltb e k = false -> ref_ltb x e = false -> ref_ltb x k = false.
Proof. destruct k, e, x; unfold ref_ltb; simpl. lia. Qed.

(** [k < e] (as [k <= e], [k <> e]) and [e <= x] give [x <> k]. *)
Lemma ref_lt_le_neq (k e x : CUTXORef) :
  ref_ltb e k = false -> ref_eqb e k = false -> ref_ltb x e = false ->
  ref_eqb x k = false.
Proof. destruct k, e, x; unfold ref_ltb, ref_eqb; simpl. lia. Qed.
End RefOrder.

Section ListFacts.
Context {A : Type}.

Lemma filter_none (f : A -> bool) (l : list A) :
  Forall (fun x => f x = false) l -> filter f l = [].
Proof.
induction 1 as [| x l Hx _ IH]; simpl; [reflexivity |]. rewrite Hx. exact IH.
Qed.

Lemma filter_all (f : A -> bool) (l : list A) :
  Forall (fun x => f x = true) l -> filter f l = l.
Proof.
induction 1 as [| x l Hx _ IH]; simpl; [reflexivity |]. rewrite Hx, IH. reflexivity.
Qed.

Lemma filter_nil_Forall (f : A -> bool) (l : list A) :
  filter f l = [] -> Forall (fun x => f x = false) l.
Proof.
induction l as [| x l IH]; simpl; intros E; [constructor |].
destruct (f x) eqn:Hx; [discriminate |]. constructor; [exact Hx | apply IH; exact E].
Qed.

(** A list splits, up to order, into what a test keeps and what it drops. *)
Lemma filter_split_perm (f : A -> bool) (l : list A) :
  Permutation l (filter f l ++ filter (fun x => negb (f x)) l).
Proof.
induction l as [| x l IH]; simpl; [constructor |].
destruct (f x); simpl.
- constructor. exact IH.
- apply Permutation_cons_app. exact IH.
Qed.

Lemma filter_perm (f : A -> bool) (l l' : list A) :
  Permutation l l' -> Permutation (filter f l) (filter f l').
Proof.
induction 1 as [| x l l' _ IH | x y l | l l' l'' _ IH1 _ IH2]; simpl.
- constructor.
- destruct (f x); [constructor |]; exact IH.
- destruct (f x), (f y); try apply Permutation_refl. apply perm_swap.
- exact (Permutation_trans IH1 IH2).
Qed.

Lemma filter_length_lt (f : A -> bool) (l : list A) (x : A) :
  In x l -> f x = false -> (length (filter f l) < length l)%nat.
Proof.
induction l as [| y l IH]; intros Hin Hx; [destruct Hin |]. simpl.
destruct Hin as [-> | Hin].
- rewrite Hx. pose proof (filter_length_le f l). lia.
- specialize (IH Hin Hx). destruct (f y); simpl; lia.
Qed.

Lemma NoDup_map_inj {B : Type} (f : A -> B) (l : list A) (a b : A) :
  NoDup (map f l) -> In a l -> In b l -> f a = f b -> a = b.
Proof.
induction l as [| x l IH]; simpl; intros Hnd Ha Hb E; [destruct Ha |].
inversion Hnd as [| y m Hnotin Hnd']; subst.
destruct Ha as [-> | Ha], Hb as [-> | Hb].
- reflexivity.
- exfalso. apply Hnotin. rewrite E. apply in_map. exact Hb.
- exfalso. apply Hnotin. rewrite <- E. apply in_map. exact Ha.
- apply IH; assumption.
Qed.
End ListFacts.

Section MultimapFacts.

Lemma mm_insert_perm (k : CUTXORef) (e : Entry) (m : References) :
  Permutation (mm_insert ref_ltb k e m) ((k, e) :: m).
Proof.
induction m as [| x m IH]; simpl; [apply Permutation_refl |].
destruct (ref_ltb k (fst x)); [apply Permutation_refl |].
apply Permutation_trans with (x :: (k, e) :: m); [constructor; exact IH | apply perm_swap].
Qed.

Lemma mm_insert_sorted (k : CUTXORef) (e : Entry) (m : References) :
  mm_sorted m -> mm_sorted (mm_insert ref_ltb k e m).
Proof.
unfold mm_sorted. induction 1 as [| x m Hs IH Hx]; simpl.
- repeat constructor.
- destruct (ref_ltb k (fst x)) eqn:Hk.
  + constructor; [constructor; assumption |].
    constructor.
    * simpl. destruct (ref_ltb (fst x) k) eqn:E; [| reflexivity].
      destruct k, (fst x); unfold ref_ltb in *; simpl in *; lia.
    * rewrite Forall_forall in *. intros y Hy. simpl.
      apply (ref_lt_le k (fst x) (fst y) Hk). apply Hx. exact Hy.
  + constructor; [exact IH |].
    apply (Permutation_Forall (Permutation_sym (mm_insert_perm k e m))).
    constructor; [exact Hk | exact Hx].
Qed.

Lemma mm_erase_sorted (k : CUTXORef) (m : References) :
  mm_sorted m -> mm_sorted (mm_erase ref_eqb k m).
Proof.
unfold mm_sorted, mm_erase. induction 1 as [| x m Hs IH Hx]; simpl; [constructor |].
destruct (negb (ref_eqb (fst x) k)); [| exact IH].
constructor; [exact IH |].
rewrite Forall_forall in *. intros y Hy. apply filter_In in Hy as [Hy _]. apply Hx. exact Hy.
Qed.

(** From an iterator past every smaller key, walking while the key equals
    [k] visits every entry keyed by [k]. *)
Lemma mm_while_eq_filter (k : CUTXORef) (m : References) :
  mm_sorted m ->
  Forall (fun x => ref_ltb (fst x) k = false) m ->
  mm_while_eq ref_eqb k m = filter (fun x => ref_eqb (fst x) k) m.
Proof.
unfold mm_sorted. induction 1 as [| x m Hs IH Hx]; intros Hge; simpl; [reflexivity |].
inversion Hge as [| y l Hxk Hge']; subst.
destruct (ref_eqb (fst x) k) eqn:E.
- rewrite IH by exact Hge'. reflexivity.
- symmetry. apply filter_none.
  rewrite Forall_forall in *. intros y Hy.
  apply (ref_lt_le_neq k (fst x) (fst y) Hxk E). apply Hx. exact Hy.
Qed.

(** The run visited from [lower_bound(k)] is the list of entries keyed by
    [k], in their order. *)
Lemma mm_run_filter (k : CUTXORef) (m : References) :
  mm_sorted m ->
  mm_run ref_ltb ref_eqb k m = filter (fun x => ref_eqb (fst x) k) m.
Proof.
unfold mm_run. intros Hs. pose proof Hs as Hs'. unfold mm_sorted in Hs'.
induction Hs' as [| x m Hsm IH Hx]; simpl; [reflexivity |].
destruct (ref_ltb (fst x) k) eqn:Hlt.
- rewrite (ref_ltb_not_eq _ _ Hlt). apply IH. exact Hsm.
- apply (mm_while_eq_filter k (x :: m) Hs).
  constructor; [exact Hlt |].
  rewrite Forall_forall in *. intros y Hy.
  apply (ref_le_le k (fst x) (fst y) Hlt). apply Hx. exact Hy.
Qed.

Lemma collectPending_sorted (env : Env) (pending : list UnspentEntry) :
  mm_sorted (collectPending env pending).
Proof.
unfold collectPending.
assert (G : forall acc, mm_sorted acc ->
              mm_sorted (fold_left
                (fun refs it =>
                   match resolvePending env it with
                   | Some (k, v) => mm_insert ref_ltb k v refs
                   | None => refs
                   end) pending acc)).
{ induction pending as [| it l IH]; intros acc Hacc; simpl; [exact Hacc |].
  apply IH. destruct (resolvePending env it) as [[k e] |]; [| exact Hacc].
  apply mm_insert_sorted. exact Hacc. }
apply G. constructor.
Qed.

(** Every reference is keyed by the notarization its record extends. *)
Lemma collectPending_keyed (env : Env) (pending : list UnspentEntry) :
  Forall (fun kv => fst kv = prevNotarization (snd (snd kv))) (collectPending env pending).
Proof.
unfold collectPending.
assert (G : forall acc,
              Forall (fun kv : CUTXORef * Entry =>
                        fst kv = prevNotarization (snd (snd kv))) acc ->
              Forall (fun kv : CUTXORef * Entry =>
                        fst kv = prevNotarization (snd (snd kv)))
                (fold_left
                   (fun refs it =>
                      match resolvePending env it with
                      | Some (k, v) => mm_insert ref_ltb k v refs
                      | None => refs
                      end) pending acc)).
{ induction pending as [| it l IH]; intros acc Hacc; simpl; [exact Hacc |].
  apply IH. destruct (resolvePending env it) as [[k e] |] eqn:Hr; [| exact Hacc].
  apply (Permutation_Forall (Permutation_sym (mm_insert_perm k e acc))).
  constructor; [| exact Hacc]. simpl.
  unfold resolvePending in Hr.
  repeat match type of Hr with
         | match ?x with _ => _ end = _ => destruct x; try discriminate
         | (if ?b then _ else _) = _ => destruct b; try discriminate
         | (let (_, _) := ?x in _) = _ => destruct x
         end.
  injection Hr as <- <-. reflexivity. }
apply G. constructor.
Qed.
End MultimapFacts.

(* ================================================================== *)
(** * One step of the expansion *)
(* ================================================================== *)

Section GrowthStep.

Lemma tipEntry_app (v extra : list Entry) (f : list nat) :
  (last f 0 < length v)%nat -> tipEntry (v ++ extra) f = tipEntry v f.
Proof. intros Hf. unfold tipEntry. apply app_nth1. exact Hf. Qed.

Lemma tips_app (v extra : list Entry) (fs : list (list nat)) :
  wfForks v fs -> tips (v ++ extra) fs = tips v fs.
Proof.
unfold wfForks, tips. induction 1 as [| f fs Hf _ IH]; simpl; [reflexivity |].
rewrite (tipEntry_app v extra f Hf), IH. reflexivity.
Qed.

Lemma tipEntry_snoc (v : list Entry) (f : list nat) (j : nat) :
  tipEntry v (f ++ [j]) = nth j v defaultEntry.
Proof. unfold tipEntry. rewrite last_last. reflexivity. Qed.

(** The clones made for the matches after the first have these matches as
    tips. *)
Lemma tips_clones (f : list nat) (rest : list (CUTXORef * Entry)) :
  forall pre : list Entry,
    tips (pre ++ map snd rest)
         (map (fun j => f ++ [j]) (seq (length pre) (length rest)))
    = valrefs rest.
Proof.
unfold tips, valrefs.
induction rest as [| m rest IH]; intros pre; simpl; [reflexivity |].
rewrite tipEntry_snoc, nth_middle. f_equal.
specialize (IH (pre ++ [snd m])).
rewrite <- app_assoc, length_app in IH. simpl in IH.
replace (length pre + 1)%nat with (S (length pre)) in IH by lia.
exact IH.
Qed.

Lemma wfForks_app (v : list Entry) (fs1 fs2 : list (list nat)) :
  wfForks v (fs1 ++ fs2) <-> wfForks v fs1 /\ wfForks v fs2.
Proof. unfold wfForks. apply Forall_app. Qed.

Lemma wfForks_grow (v extra : list Entry) (fs : list (list nat)) :
  wfForks v fs -> wfForks (v ++ extra) fs.
Proof.
unfold wfForks. intros Hw. eapply Forall_impl; [| exact Hw].
intros f Hf. simpl in Hf. rewrite length_app. lia.
Qed.

Lemma perm_swap_in {A : Type} (t c : A) (TA TB R : list A) :
  Permutation (t :: TA ++ c :: TB ++ R) ((TA ++ t :: TB) ++ c :: R).
Proof.
apply Permutation_trans with (t :: c :: TA ++ TB ++ R).
- constructor. apply Permutation_sym. apply Permutation_middle.
- apply Permutation_trans with (c :: t :: TA ++ TB ++ R); [apply perm_swap |].
  apply Permutation_trans with (c :: (TA ++ t :: TB) ++ R).
  + constructor. rewrite <- app_assoc. simpl. apply Permutation_middle.
  + apply Permutation_middle.
Qed.

(** The effect of one step on the entries, the forks and their tips when
    the tip of fork [i] has the matches [m :: rest]. *)
Lemma extended_tips (v : list Entry) (fs : list (list nat)) (i : nat)
      (m : CUTXORef * Entry) (rest : list (CUTXORef * Entry)) :
  wfForks v fs -> (i < length fs)%nat ->
  let t := fst (tipEntry v (nth i fs [])) in
  let v' := v ++ map snd (m :: rest) in
  let fs' := pushAt i (length v) fs
               ++ map (fun j => nth i fs [] ++ [j]) (seq (S (length v)) (length rest)) in
  wfForks v' fs'
  /\ In t (tips v fs)
  /\ Permutation (t :: tips v' fs') (tips v fs ++ valrefs (m :: rest)).
Proof.
intros Hw Hi t v' fs'.
destruct (pushAt_split i (length v) fs Hi) as [E1 E2].
set (A := firstn i fs) in *. set (B := skipn (S i) fs) in *. set (f := nth i fs []) in *.
assert (HwA : wfForks v A /\ wfForks v (f :: B)).
{ apply wfForks_app. rewrite <- E1. exact Hw. }
destruct HwA as [HwA HwfB].
assert (HwB : wfForks v B) by (inversion HwfB; assumption).
assert (Hlen : length v' = (S (length v) + length rest)%nat).
{ unfold v'. rewrite length_app. simpl. rewrite length_map. lia. }
assert (Hclone : tips v' (map (fun j => f ++ [j]) (seq (S (length v)) (length rest)))
                 = valrefs rest).
{ unfold v'. simpl.
  replace (v ++ snd m :: map snd rest) with ((v ++ [snd m]) ++ map snd rest)
    by (rewrite <- app_assoc; reflexivity).
  replace (S (length v)) with (length (v ++ [snd m]))
    by (rewrite length_app; simpl; lia).
  apply tips_clones. }
split; [| split].
- unfold fs'. apply wfForks_app. split.
  + rewrite E2. apply wfForks_app. split; [apply wfForks_grow; exact HwA |].
    constructor; [| apply wfForks_grow; exact HwB].
    rewrite last_last, Hlen. lia.
  + unfold wfForks. apply Forall_forall. intros f' Hin.
    apply in_map_iff in Hin as (j & <- & Hj). apply in_seq in Hj.
    rewrite last_last, Hlen. lia.
- unfold t, tips. apply in_map_iff. exists f. split; [reflexivity |].
  rewrite E1. apply in_or_app. right. left. reflexivity.
- assert (Ht : tips v fs = tips v A ++ t :: tips v B).
  { rewrite E1 at 1. unfold tips. rewrite map_app. reflexivity. }
  assert (Ht' : tips v' fs' = tips v A ++ fst (snd m) :: tips v B ++ valrefs rest).
  { unfold fs'. rewrite E2. unfold tips at 1. rewrite !map_app. simpl.
    fold (tips v' A). fold (tips v' B).
    fold (tips v' (map (fun j => f ++ [j]) (seq (S (length v)) (length rest)))).
    rewrite Hclone. unfold v'.
    rewrite (tips_app v _ A HwA), (tips_app v _ B HwB).
    rewrite tipEntry_snoc. simpl. rewrite nth_middle.
    rewrite <- app_assoc. reflexivity. }
  rewrite Ht, Ht'. simpl. apply perm_swap_in.
Qed.

Lemma erase_nothing (t : CUTXORef) (refs : References) :
  filter (fun x => ref_eqb (fst x) t) refs = [] ->
  mm_erase ref_eqb t refs = refs.
Proof.
intros E. unfold mm_erase. apply filter_all.
apply filter_nil_Forall in E. eapply Forall_impl; [| exact E].
intros x Hx. simpl in Hx. rewrite Hx. reflexivity.
Qed.

Lemma valrefs_split (t : CUTXORef) (refs : References) :
  Permutation (valrefs refs)
    (valrefs (filter (fun x => ref_eqb (fst x) t) refs)
       ++ valrefs (mm_erase ref_eqb t refs)).
Proof.
unfold valrefs, mm_erase. rewrite <- map_app. apply Permutation_map.
apply filter_split_perm.
Qed.

(** One step either changes nothing, the tip having no match, or takes the
    matches of the tip out of the references and makes them the new tips in
    its place. *)
Lemma growFork_step (i : nat) (g : Growth) :
  wfForks (g_vtx g) (g_forks g) -> mm_sorted (g_refs g) ->
  (i < length (g_forks g))%nat ->
  let t := fst (tipEntry (g_vtx g) (nth i (g_forks g) [])) in
  let ms := filter (fun x => ref_eqb (fst x) t) (g_refs g) in
  (ms = [] /\ growFork i g = g)
  \/ (ms <> []
      /\ In t (tips (g_vtx g) (g_forks g))
      /\ wfForks (g_vtx (growFork i g)) (g_forks (growFork i g))
      /\ Permutation (t :: frontier (growFork i g)) (frontier g)
      /\ g_refs (growFork i g) = mm_erase ref_eqb t (g_refs g)
      /\ g_vtx (growFork i g) = g_vtx g ++ map snd ms
      /\ somethingAdded (growFork i g) = true
      /\ (length (g_forks g) <= length (g_forks (growFork i g)))%nat).
Proof.
intros Hw Hs Hi t ms.
pose proof (growFork_cases i g Hi) as Hc. cbv zeta in Hc. fold t in Hc.
rewrite (mm_run_filter t (g_refs g) Hs) in Hc. fold ms in Hc.
destruct ms as [| m rest] eqn:Ems.
- left. split; [reflexivity |]. rewrite Hc, (erase_nothing t (g_refs g) Ems).
  destruct g; reflexivity.
- right. split; [discriminate |].
  destruct (extended_tips (g_vtx g) (g_forks g) i m rest Hw Hi) as (Hw' & Hin & Hperm).
  fold t in Hin, Hperm.
  rewrite Hc. simpl. split; [exact Hin |]. split; [exact Hw' |].
  split; [| split; [reflexivity | split; [reflexivity | split; [reflexivity |]]]].
  + unfold frontier. simpl.
    apply Permutation_trans
      with ((tips (g_vtx g) (g_forks g) ++ valrefs (m :: rest))
              ++ valrefs (mm_erase ref_eqb t (g_refs g))).
    * apply (Permutation_app_tail _ Hperm).
    * rewrite <- app_assoc. apply Permutation_app_head.
      apply Permutation_sym. rewrite <- Ems. apply valrefs_split.
  + rewrite length_app, pushAt_length. lia.
Qed.
End GrowthStep.

(* ================================================================== *)
(** * Progress of the expansion *)
(* ================================================================== *)

Section GrowthProgress.

Lemma growFork_shape (i : nat) (g : Growth) :
  growthShape g -> (i < length (g_forks g))%nat ->
  growthShape (growFork i g)
  /\ (length (g_forks g) <= length (g_forks (growFork i g)))%nat.
Proof.
intros [Hw Hs] Hi.
destruct (growFork_step i g Hw Hs Hi)
  as [[_ ->] | (_ & _ & Hw' & _ & Hrefs & _ & _ & Hle)].
- split; [split; assumption | lia].
- split; [split; [exact Hw' |] | exact Hle].
  rewrite Hrefs. apply mm_erase_sorted. exact Hs.
Qed.

Lemma filter_eq_nil_childless (refs : References) (x : CUTXORef) :
  filter (fun kv => ref_eqb (fst kv) x) refs = [] -> childless refs x = true.
Proof.
unfold childless. induction refs as [| kv refs IH]; simpl; [reflexivity |].
destruct (ref_eqb (fst kv) x); simpl; [discriminate | exact IH].
Qed.

(** A step that finds a match sets the flag and consumes a reference;
    otherwise it changes nothing. *)
Lemma growFork_progress (i : nat) (g : Growth) :
  growthShape g -> (i < length (g_forks g))%nat ->
  (growFork i g = g
   /\ childless (g_refs g) (fst (tipEntry (g_vtx g) (nth i (g_forks g) []))) = true)
  \/ (somethingAdded (growFork i g) = true
      /\ (length (g_refs (growFork i g)) < length (g_refs g))%nat).
Proof.
intros [Hw Hs] Hi.
destruct (growFork_step i g Hw Hs Hi)
  as [[Hms ->] | (Hms & _ & _ & _ & Hrefs & _ & Hadd & _)].
- left. split; [reflexivity |]. apply filter_eq_nil_childless. exact Hms.
- right. split; [exact Hadd |]. rewrite Hrefs. unfold mm_erase.
  set (t := fst (tipEntry (g_vtx g) (nth i (g_forks g) []))) in *.
  destruct (filter (fun x => ref_eqb (fst x) t) (g_refs g)) as [| m rest] eqn:E;
    [contradiction |].
  assert (Hm : In m (filter (fun x => ref_eqb (fst x) t) (g_refs g)))
    by (rewrite E; left; reflexivity).
  apply filter_In in Hm as [Hm Hk].
  apply (filter_length_lt _ _ m Hm). rewrite Hk. reflexivity.
Qed.

Lemma growPass_shape (count : nat) :
  forall (from : nat) (g : Growth),
    (from + count <= length (g_forks g))%nat -> growthShape g ->
    growthShape (growPass count from g).
Proof.
induction count as [| count IH]; intros from g Hle Hsh; simpl; [exact Hsh |].
destruct (growFork_shape from g Hsh ltac:(lia)) as [Hsh' Hfl].
apply IH; [lia | exact Hsh'].
Qed.

(** Once the flag is set a pass keeps it and does not add references. *)
Lemma growPass_after_progress (count : nat) :
  forall (from : nat) (g : Growth),
    (from + count <= length (g_forks g))%nat -> growthShape g ->
    somethingAdded g = true ->
    somethingAdded (growPass count from g) = true
    /\ (length (g_refs (growPass count from g)) <= length (g_refs g))%nat.
Proof.
induction count as [| count IH]; intros from g Hle Hsh Hadd; simpl;
  [split; [exact Hadd | lia] |].
assert (Hi : (from < length (g_forks g))%nat) by lia.
destruct (growFork_shape from g Hsh Hi) as [Hsh' Hfl].
destruct (growFork_progress from g Hsh Hi) as [[E _] | [Hadd' Hlt]].
- rewrite E. apply IH; [lia | exact Hsh | exact Hadd].
- destruct (IH (S from) (growFork from g) ltac:(lia) Hsh' Hadd') as [H1 H2].
  split; [exact H1 | lia].
Qed.

(** A pass either consumes a reference and sets the flag, or changes
    nothing, none of the tips it visited having a match. *)
Lemma growPass_progress (count : nat) :
  forall (from : nat) (g : Growth),
    (from + count <= length (g_forks g))%nat -> growthShape g ->
    (growPass count from g = g
     /\ forall i, (from <= i < from + count)%nat ->
          childless (g_refs g) (fst (tipEntry (g_vtx g) (nth i (g_forks g) []))) = true)
    \/ (somethingAdded (growPass count from g) = true
        /\ (length (g_refs (growPass count from g)) < length (g_refs g))%nat).
Proof.
induction count as [| count IH]; intros from g Hle Hsh; simpl.
- left. split; [reflexivity | intros i Hi; lia].
- assert (Hi : (from < length (g_forks g))%nat) by lia.
  destruct (growFork_shape from g Hsh Hi) as [Hsh' Hfl].
  destruct (growFork_progress from g Hsh Hi) as [[E Hch] | [Hadd Hlt]].
  + rewrite E. destruct (IH (S from) g ltac:(lia) Hsh) as [[E' Hall] | Hprog].
    * left. split; [exact E' |]. intros i Hrange.
      destruct (Nat.eq_dec i from) as [-> | Hne]; [exact Hch | apply Hall; lia].
    * right. exact Hprog.
  + right.
    destruct (growPass_after_progress count (S from) (growFork from g) ltac:(lia) Hsh' Hadd)
      as [H1 H2].
    split; [exact H1 | lia].
Qed.

Lemma growLoop_flag_clear (fuel : nat) (g : Growth) :
  somethingAdded g = false -> growLoop fuel g = g.
Proof. intros E. destruct fuel; simpl; [reflexivity |]. rewrite E. reflexivity. Qed.

(** The number of unfoldings given to the loop is enough: with more
    unfoldings than references, the loop stops because its own condition
    fails, and further unfoldings change nothing. *)
Lemma growLoop_stops (fuel : nat) :
  forall g : Growth,
    growthShape g ->
    (length (g_refs g) < fuel)%nat ->
    (somethingAdded (growLoop fuel g) && negb (length (g_refs (growLoop fuel g)) =? 0)%nat
     = false)
    /\ forall more, growLoop (fuel + more) g = growLoop fuel g.
Proof.
induction fuel as [| fuel IH]; intros g Hsh Hlen; [lia |].
simpl.
destruct (somethingAdded g && negb (length (g_refs g) =? 0)%nat) eqn:Hcond.
- assert (Hsh0 : growthShape (mkGrowth (g_vtx g) (g_forks g) (g_refs g) false))
    by exact Hsh.
  destruct (growPass_progress (length (g_forks g)) 0
              (mkGrowth (g_vtx g) (g_forks g) (g_refs g) false)
              ltac:(simpl; lia) Hsh0)
    as [[E _] | [Hadd Hlt]].
  + rewrite E.
    rewrite (growLoop_flag_clear fuel
               (mkGrowth (g_vtx g) (g_forks g) (g_refs g) false) eq_refl).
    simpl.
    split; [reflexivity | intros more].
    apply (growLoop_flag_clear (fuel + more)
             (mkGrowth (g_vtx g) (g_forks g) (g_refs g) false) eq_refl).
  + apply IH.
    * apply growPass_shape; [simpl; lia | exact Hsh0].
    * simpl in Hlt. lia.
- split; [exact Hcond | intros more; reflexivity].
Qed.

(** In the query the loop always runs on a seed fork and a sorted multimap:
    it stops by itself. *)
Lemma growForks_stops (r : CUTXORef) (nz : CPBaaSNotarization) (env : Env)
      (pending : list UnspentEntry) :
  let g := growForks (singleFork r nz) (collectPending env pending) in
  somethingAdded g && negb (length (g_refs g) =? 0)%nat = false.
Proof.
apply growLoop_stops; [| simpl; lia].
split; simpl; [repeat constructor | apply collectPending_sorted].
Qed.
End GrowthProgress.

(* ================================================================== *)
(** * The expansion over a tree of pending records *)
(* ================================================================== *)

Section ChildlessFacts.

Lemma childless_true_iff (refs : References) (x : CUTXORef) :
  childless refs x = true <-> filter (fun kv => ref_eqb (fst kv) x) refs = [].
Proof.
unfold childless. induction refs as [| kv refs IH]; simpl; [tauto |].
destruct (ref_eqb (fst kv) x); simpl; [split; discriminate | exact IH].
Qed.

Lemma childless_has_child (refs : References) (kv : CUTXORef * Entry) :
  In kv refs -> childless refs (fst kv) = false.
Proof.
intros Hin. destruct (childless refs (fst kv)) eqn:E; [| reflexivity].
unfold childless in E. rewrite forallb_forall in E.
specialize (E kv Hin). rewrite ref_eqb_refl in E. discriminate.
Qed.

(** Erasing the references keyed by [t] changes nothing for another node. *)
Lemma childless_erase (refs : References) (t x : CUTXORef) :
  x <> t -> childless (mm_erase ref_eqb t refs) x = childless refs x.
Proof.
intros Hne. unfold childless, mm_erase.
induction refs as [| kv refs IH]; simpl; [reflexivity |].
destruct (ref_eqb (fst kv) t) eqn:E; simpl.
- apply ref_eqb_eq in E. rewrite E.
  replace (ref_eqb t x) with false
    by (symmetry; apply ref_eqb_neq; congruence).
  simpl. exact IH.
- rewrite IH. reflexivity.
Qed.
End ChildlessFacts.

Section TreeGrowth.
Variables (refs0 : References) (v0 : list Entry) (L0 : list CUTXORef).

Lemma Inv_flag (g : Growth) (b : bool) :
  GrowthInv refs0 v0 L0 g -> GrowthInv refs0 v0 L0 (mkGrowth (g_vtx g) (g_forks g) (g_refs g) b).
Proof. intros [H1 H2 H3 H4 H5 H6 H7]. constructor; assumption. Qed.

(** Each step of the loop over forks preserves the invariant. *)
Lemma growFork_inv (i : nat) (g : Growth) :
  GrowthInv refs0 v0 L0 g -> (i < length (g_forks g))%nat -> GrowthInv refs0 v0 L0 (growFork i g).
Proof.
intros HI Hi. pose proof HI as [Hw Hs Hnd Hcl Hlv Hsub Hvx].
destruct (growFork_step i g Hw Hs Hi)
  as [[_ ->] | (Hms & Hin & Hw' & Hperm & Hrefs & Hv & _ & _)]; [exact HI |].
set (t := fst (tipEntry (g_vtx g) (nth i (g_forks g) []))) in *.
assert (Hnd' : NoDup (t :: frontier (growFork i g))).
{ apply (Permutation_NoDup (Permutation_sym Hperm)). exact Hnd. }
inversion Hnd' as [| y l Hnotin Hnd'']; subst y l.
assert (Hchild : childless (g_refs g) t = false).
{ destruct (childless (g_refs g) t) eqn:E; [| reflexivity].
  apply childless_true_iff in E. contradiction. }
constructor.
- exact Hw'.
- rewrite Hrefs. apply mm_erase_sorted. exact Hs.
- exact Hnd''.
- intros kv Hkv. rewrite Hrefs in Hkv. unfold mm_erase in Hkv.
  apply filter_In in Hkv as [Hkv Hne].
  pose proof (Permutation_in _ (Permutation_sym Hperm) (Hcl kv Hkv)) as [E | Hin'];
    [| exact Hin'].
  rewrite <- E, ref_eqb_refl in Hne. discriminate.
- apply Permutation_trans with (filter (childless (g_refs g)) (frontier g)); [| exact Hlv].
  apply Permutation_trans
    with (filter (childless (g_refs g)) (t :: frontier (growFork i g)));
    [| apply filter_perm; exact Hperm].
  simpl. rewrite Hchild. rewrite Hrefs.
  rewrite (filter_ext_in (childless (mm_erase ref_eqb t (g_refs g)))
                         (childless (g_refs g))); [apply Permutation_refl |].
  intros x Hx. apply childless_erase. intros ->. contradiction.
- rewrite Hrefs. intros kv Hkv. apply Hsub. unfold mm_erase in Hkv.
  apply filter_In in Hkv as [Hkv _]. exact Hkv.
- apply Permutation_trans with (g_vtx g ++ map snd (g_refs g)); [| exact Hvx].
  rewrite Hv, Hrefs, <- app_assoc. apply Permutation_app_head.
  unfold mm_erase. rewrite <- map_app. apply Permutation_map.
  apply Permutation_sym. apply filter_split_perm.
Qed.

Lemma Inv_shape (g : Growth) : GrowthInv refs0 v0 L0 g -> growthShape g.
Proof. intros [Hw Hs _ _ _ _ _]. split; assumption. Qed.

Lemma growPass_inv (count : nat) :
  forall (from : nat) (g : Growth),
    (from + count <= length (g_forks g))%nat ->
    GrowthInv refs0 v0 L0 g -> GrowthInv refs0 v0 L0 (growPass count from g).
Proof.
induction count as [| count IH]; intros from g Hle HI; simpl; [exact HI |].
apply IH.
- pose proof (proj2 (growFork_shape from g (Inv_shape g HI) ltac:(lia))). lia.
- apply growFork_inv; [exact HI | lia].
Qed.

(** *** The tree *)

Variable root : CUTXORef.
Hypothesis Htree : formsTree root refs0.

(** While every tip is without a match, no record connected to the root
    can be left among the references. *)
Lemma connected_not_left (g : Growth) :
  GrowthInv refs0 v0 L0 g ->
  (forall t, In t (tips (g_vtx g) (g_forks g)) -> childless (g_refs g) t = true) ->
  forall x, reaches root refs0 x -> ~ In x (valrefs (g_refs g)).
Proof.
intros [_ _ _ Hcl _ Hsub _] Hquiet. destruct Htree as [Hnd _].
assert (Hsubv : forall x, In x (valrefs (g_refs g)) -> In x (valrefs refs0)).
{ intros x Hx. unfold valrefs in Hx |- *. apply in_map_iff in Hx as (kv & <- & Hkv).
  apply in_map_iff. exists kv. split; [reflexivity | apply Hsub; exact Hkv]. }
induction 1 as [| kv0 Hkv0 _ IH].
- intros Hin. inversion Hnd as [| y l Hnotin _]; subst. apply Hnotin. apply Hsubv. exact Hin.
- intros Hin. unfold valrefs in Hin. apply in_map_iff in Hin as (kv & E & Hkv).
  assert (kv = kv0).
  { inversion Hnd as [| y l _ Hnd']; subst.
    apply (NoDup_map_inj (fun kv => fst (snd kv)) refs0 kv kv0 Hnd');
      [apply Hsub; exact Hkv | exact Hkv0 | exact E]. }
  subst kv0.
  pose proof (Hcl kv Hkv) as Hfront. unfold frontier in Hfront.
  apply in_app_or in Hfront as [Htip | Hleft].
  + specialize (Hquiet (fst kv) Htip).
    discriminate (eq_trans (eq_sym Hquiet) (childless_has_child (g_refs g) kv Hkv)).
  + exact (IH Hleft).
Qed.

(** A quiet state has placed every record. *)
Lemma quiet_is_done (g : Growth) :
  GrowthInv refs0 v0 L0 g ->
  (forall t, In t (tips (g_vtx g) (g_forks g)) -> childless (g_refs g) t = true) ->
  g_refs g = [].
Proof.
intros HI Hquiet.
assert (Hnone : forall kv, ~ In kv (g_refs g));
  [| destruct (g_refs g) as [| kv rest]; [reflexivity | elim (Hnone kv); left; reflexivity]].
intros kv Hkv.
destruct Htree as [_ Hreach].
assert (Hin0 : In kv refs0) by (apply (inv_sub _ _ _ _ HI); exact Hkv).
apply (connected_not_left g HI Hquiet (fst (snd kv))).
- apply reaches_child; [exact Hin0 | apply Hreach; exact Hin0].
- unfold valrefs. apply in_map_iff. exists kv. split; [reflexivity | exact Hkv].
Qed.

Lemma tips_all (g : Growth) :
  (forall i, (i < length (g_forks g))%nat ->
     childless (g_refs g) (fst (tipEntry (g_vtx g) (nth i (g_forks g) []))) = true) ->
  forall t, In t (tips (g_vtx g) (g_forks g)) -> childless (g_refs g) t = true.
Proof.
intros Hall t Hin. unfold tips in Hin. apply in_map_iff in Hin as (f & <- & Hf).
destruct (In_nth _ _ [] Hf) as (i & Hi & <-). apply Hall. exact Hi.
Qed.

(** The loop, given one more unfolding than there are references, stops
    with every reference consumed. *)
Lemma growLoop_done (fuel : nat) :
  forall g : Growth,
    GrowthInv refs0 v0 L0 g ->
    somethingAdded g = true ->
    (length (g_refs g) < fuel)%nat ->
    GrowthInv refs0 v0 L0 (growLoop fuel g) /\ g_refs (growLoop fuel g) = [].
Proof.
induction fuel as [| fuel IH]; intros g HI Hadd Hlen; [lia |].
simpl. rewrite Hadd. simpl.
destruct (length (g_refs g) =? 0)%nat eqn:Hz; simpl.
- split; [exact HI |]. apply Nat.eqb_eq in Hz. destruct (g_refs g); [reflexivity | discriminate].
- set (g0 := mkGrowth (g_vtx g) (g_forks g) (g_refs g) false).
  assert (HI0 : GrowthInv refs0 v0 L0 g0) by (apply Inv_flag; exact HI).
  destruct (growPass_progress (length (g_forks g0)) 0 g0 ltac:(simpl; lia)
              (Inv_shape g0 HI0))
    as [[E Hall] | [Hadd' Hlt]].
  + exfalso. assert (Hdone : g_refs g0 = []).
    { apply quiet_is_done; [exact HI0 |]. apply tips_all.
      intros i Hi. apply Hall. lia. }
    simpl in Hdone. rewrite Hdone in Hz. discriminate.
  + apply IH.
    * apply growPass_inv; [simpl; lia | exact HI0].
    * exact Hadd'.
    * simpl in Hlt. lia.
Qed.
End TreeGrowth.

(* ================================================================== *)
(** * Success and failure of the query *)
(* ================================================================== *)

Section QueryFacts.
Context {P : Type} `{ChainPowerOps P}.

Lemma selectBestChain_single (cur : uint160) (v : list Entry) (f : list nat) :
  selectBestChain cur v [f] = 0.
Proof.
unfold selectBestChain. simpl.
destruct (tipPower cur v f 0) as [pw |]; [| reflexivity].
destruct (power_gt pw defaultPower); reflexivity.
Qed.

Lemma latestConfirmed_single (e : UnspentEntry) : latestConfirmed e [e] = e.
Proof. unfold latestConfirmed. simpl. rewrite Z.ltb_irrefl. reflexivity. Qed.

(** The pending part never loses the seed. *)
Lemma resolvePendingForks_keepsSeed (env : Env) (cur : uint160)
      (r : CUTXORef) (nz : CPBaaSNotarization) (pending : list UnspentEntry) :
  let nd := resolvePendingForks env cur (singleFork r nz) pending in
  (exists extra, vtx nd = (r, nz) :: extra)
  /\ forks nd <> [] /\ Forall rooted (forks nd) /\ lastConfirmed nd = 0.
Proof.
unfold resolvePendingForks. simpl.
destruct (growForks_keepsSeed (singleFork r nz) (collectPending env pending))
  as ([extra Hv] & Hne & Hr).
- discriminate.
- repeat constructor.
- repeat split; try assumption. exists extra. exact Hv.
Qed.

(** Once the seed is resolved the query succeeds. *)
Lemma query_after_seed (env : Env) (cur : uint160) (wantTx : bool)
      (first : UnspentEntry) (rest : list UnspentEntry)
      (legacy : bool) (r : CUTXORef) (nz : CPBaaSNotarization) :
  def_valid (GetCachedCurrency env cur) = true ->
  localGuard env cur = false ->
  GetAddressUnspent env (confirmedNotarizationKey env cur) = Some (first :: rest) ->
  SeedResolves env wantTx (latestConfirmed first (first :: rest)) legacy r nz ->
  GetNotarizationData env cur wantTx =
    Some (if legacy && IsToken (GetCachedCurrency env cur)
          then singleFork r nz
          else match GetAddressUnspent env (pendingNotarizationKey env cur) with
               | Some (p1 :: ps) => resolvePendingForks env cur (singleFork r nz) (p1 :: ps)
               | _ => singleFork r nz
               end).
Proof.
intros Hdef Hloc Hidx Hres.
destruct (seedFromEntry_resolves env wantTx (GetCachedCurrency env cur) _ _ _ _ Hres)
  as [Hseed _].
unfold GetNotarizationData, seedStep.
rewrite Hdef, Hloc, Hidx. change (negb true) with false. cbv beta iota zeta.
rewrite Hseed.
destruct (legacy && IsToken (GetCachedCurrency env cur)); [reflexivity |].
change (length (vtx (singleFork r nz)) =? 0)%nat with false. cbv iota.
destruct (GetAddressUnspent env (pendingNotarizationKey env cur)) as [[| p1 ps] |];
  try reflexivity.
destruct (resolvePendingForks_keepsSeed env cur r nz (p1 :: ps)) as ([extra Hv] & _).
rewrite Hv. reflexivity.
Qed.

(** C9.  The query fails exactly when the seed step does: the currency
  definition is not found, or (on the lookup path) no confirmed
  finalization is indexed or the latest one does not resolve to a valid
  record.  Whenever the latest confirmed finalization resolves, the
  query succeeds, its first entry is the seed record, and every fork
  starts from it, whatever the pending index holds. *)
Theorem query_fails_only_at_seed (env : Env) (cur : uint160) (wantTx : bool) :
  (GetNotarizationData env cur wantTx = None <->
     def_valid (GetCachedCurrency env cur) = false
     \/ (localGuard env cur = false
         /\ forall first rest legacy r nz,
             GetAddressUnspent env (confirmedNotarizationKey env cur)
               = Some (first :: rest) ->
             ~ SeedResolves env wantTx (latestConfirmed first (first :: rest))
                 legacy r nz))
  /\ (forall first rest legacy r nz,
         def_valid (GetCachedCurrency env cur) = true ->
         localGuard env cur = false ->
         GetAddressUnspent env (confirmedNotarizationKey env cur) = Some (first :: rest) ->
         SeedResolves env wantTx (latestConfirmed first (first :: rest)) legacy r nz ->
         exists nd extra,
           GetNotarizationData env cur wantTx = Some nd
           /\ vtx nd = (r, nz) :: extra
           /\ forks nd <> []
           /\ Forall rooted (forks nd)
           /\ lastConfirmed nd = 0).
Proof.
assert (Part2 : forall first rest legacy r nz,
       def_valid (GetCachedCurrency env cur) = true ->
       localGuard env cur = false ->
       GetAddressUnspent env (confirmedNotarizationKey env cur) = Some (first :: rest) ->
       SeedResolves env wantTx (latestConfirmed first (first :: rest)) legacy r nz ->
       exists nd extra,
         GetNotarizationData env cur wantTx = Some nd
         /\ vtx nd = (r, nz) :: extra
         /\ forks nd <> []
         /\ Forall rooted (forks nd)
         /\ lastConfirmed nd = 0).
{ intros first rest legacy r nz Hdef Hloc Hidx Hres.
  rewrite (query_after_seed env cur wantTx first rest legacy r nz Hdef Hloc Hidx Hres).
  assert (Single : exists extra,
             vtx (singleFork r nz) = (r, nz) :: extra
             /\ forks (singleFork r nz) <> []
             /\ Forall rooted (forks (singleFork r nz))
             /\ lastConfirmed (singleFork r nz) = 0).
  { exists []. repeat split; [discriminate | repeat constructor]. }
  destruct (legacy && IsToken (GetCachedCurrency env cur)).
  - destruct Single as [extra S]. eexists; exists extra; split; [reflexivity | exact S].
  - destruct (GetAddressUnspent env (pendingNotarizationKey env cur)) as [[| p1 ps] |].
    + destruct Single as [extra S]. eexists; exists extra; split; [reflexivity | exact S].
    + destruct (resolvePendingForks_keepsSeed env cur r nz (p1 :: ps))
        as ([extra Hv] & Hrest).
      eexists; exists extra. split; [reflexivity | split; [exact Hv | exact Hrest]].
    + destruct Single as [extra S]. eexists; exists extra; split; [reflexivity | exact S]. }
split; [| exact Part2].
split.
- intros Hnone.
  destruct (def_valid (GetCachedCurrency env cur)) eqn:Hdef; [right | left; reflexivity].
  destruct (localGuard env cur) eqn:Hloc.
  + unfold GetNotarizationData, seedStep in Hnone.
    rewrite Hdef, Hloc in Hnone. discriminate.
  + split; [reflexivity |].
    intros first rest legacy r nz Hidx Hres.
    destruct (Part2 first rest legacy r nz eq_refl eq_refl Hidx Hres)
      as (nd & extra & E & _).
    congruence.
- intros [Hdef | [Hloc Hno]]; unfold GetNotarizationData, seedStep.
  + rewrite Hdef. reflexivity.
  + destruct (def_valid (GetCachedCurrency env cur)); [| reflexivity].
    rewrite Hloc. change (negb true) with false. cbv beta iota zeta.
    destruct (GetAddressUnspent env (confirmedNotarizationKey env cur))
      as [[| first rest] |] eqn:Hidx; try reflexivity.
    destruct (seedFromEntry env (GetCachedCurrency env cur) wantTx emptyData
                (latestConfirmed first (first :: rest))) as [| nd | nd] eqn:Hseed.
    * reflexivity.
    * exfalso.
      destruct (seedFromEntry_sound env wantTx _ _ nd (or_introl Hseed))
        as (legacy & r & nz & Hres & _).
      exact (Hno first rest legacy r nz eq_refl Hres).
    * destruct (length (vtx nd) =? 0)%nat eqn:Hlen; [reflexivity |].
      exfalso. apply length_zero_nil in Hlen.
      destruct (seedFromEntry_sound env wantTx _ _ nd (or_intror (conj Hseed Hlen)))
        as (legacy & r & nz & Hres & _).
      exact (Hno first rest legacy r nz eq_refl Hres).
Qed.

(** C8.  With one confirmed finalization indexed, resolving to a valid
  record, and no valid pending notarization, the query succeeds with
  exactly one fork of length 1, best-chain and last-confirmed index 0;
  on the lookup path its one entry is the confirmed record. *)
Theorem single_confirmed_single_fork (env : Env) (cur : uint160) (wantTx : bool)
        (e : UnspentEntry) (legacy : bool) (r : CUTXORef) (nz : CPBaaSNotarization) :
  def_valid (GetCachedCurrency env cur) = true ->
  GetAddressUnspent env (confirmedNotarizationKey env cur) = Some [e] ->
  SeedResolves env wantTx e legacy r nz ->
  (forall pending,
      GetAddressUnspent env (pendingNotarizationKey env cur) = Some pending ->
      collectPending env pending = []) ->
  exists nd,
    GetNotarizationData env cur wantTx = Some nd
    /\ length (vtx nd) = 1%nat
    /\ forks nd = [[0%nat]]
    /\ bestChain nd = 0
    /\ lastConfirmed nd = 0
    /\ (localGuard env cur = false -> vtx nd = [(r, nz)]).
Proof.
intros Hdef Hidx Hres Hpend.
rewrite <- (latestConfirmed_single e) in Hres.
destruct (localGuard env cur) eqn:Hloc.
- exists (singleFork nullRef (localNotarization env cur)).
  unfold GetNotarizationData, seedStep. rewrite Hdef, Hloc. simpl.
  repeat split; try reflexivity. discriminate.
- rewrite (query_after_seed env cur wantTx e [] legacy r nz Hdef Hloc Hidx Hres).
  assert (Single : singleFork r nz = singleFork r nz
                   /\ length (vtx (singleFork r nz)) = 1%nat
                   /\ forks (singleFork r nz) = [[0%nat]]
                   /\ bestChain (singleFork r nz) = 0
                   /\ lastConfirmed (singleFork r nz) = 0
                   /\ (false = false -> vtx (singleFork r nz) = [(r, nz)]))
    by (repeat split; reflexivity).
  destruct (legacy && IsToken (GetCachedCurrency env cur)).
  + eexists; split; [reflexivity | exact (proj2 Single)].
  + destruct (GetAddressUnspent env (pendingNotarizationKey env cur))
      as [[| p1 ps] |] eqn:Hp.
    * eexists; split; [reflexivity | exact (proj2 Single)].
    * eexists; split; [reflexivity |].
      unfold resolvePendingForks. rewrite (Hpend _ eq_refl), growForks_nil. simpl.
      rewrite selectBestChain_single. repeat split; reflexivity.
    * eexists; split; [reflexivity | exact (proj2 Single)].
Qed.
End QueryFacts.

Lemma query_fails_only_at_seed_witness :
  exists nd extra,
    GetNotarizationData Samples.chainA 7 false = Some nd
    /\ vtx nd = (Samples.R, Samples.notz nullRef (Some 5)) :: extra
    /\ forks nd <> []
    /\ Forall rooted (forks nd)
    /\ lastConfirmed nd = 0.
Proof.
  refine (proj2 (query_fails_only_at_seed Samples.chainA 7 false)
            (Samples.finEntry 200 Samples.R 10) [] false Samples.R
            (Samples.notz nullRef (Some 5)) eq_refl eq_refl eq_refl _).
  refine (resolves_finalization Samples.chainA false
            (Samples.finEntry 200 Samples.R 10)
            (mkParams true 3 EVAL_FINALIZE_NOTARIZATION
                      [VFinalization (mkFinalization true Samples.R)])
            (mkTx [mkTxOut (Samples.nzScript (Samples.notz nullRef (Some 5))) 0]) 900
            eq_refl eq_refl eq_refl _ eq_refl eq_refl eq_refl).
  discriminate.
Defined.

Lemma single_confirmed_single_fork_witness :
  exists nd,
    GetNotarizationData Samples.chainQuiet 7 false = Some nd
    /\ length (vtx nd) = 1%nat
    /\ forks nd = [[0%nat]]
    /\ bestChain nd = 0
    /\ lastConfirmed nd = 0
    /\ (localGuard Samples.chainQuiet 7 = false
        -> vtx nd = [(Samples.R, Samples.notz nullRef (Some 5))]).
Proof.
  refine (single_confirmed_single_fork Samples.chainQuiet 7 false
            (Samples.finEntry 200 Samples.R 10) false Samples.R
            (Samples.notz nullRef (Some 5)) eq_refl eq_refl _ _).
  - refine (resolves_finalization Samples.chainQuiet false
              (Samples.finEntry 200 Samples.R 10)
              (mkParams true 3 EVAL_FINALIZE_NOTARIZATION
                        [VFinalization (mkFinalization true Samples.R)])
              (mkTx [mkTxOut (Samples.nzScript (Samples.notz nullRef (Some 5))) 0]) 900
              eq_refl eq_refl eq_refl _ eq_refl eq_refl eq_refl).
    discriminate.
  - intros pending Hp. vm_compute in Hp. injection Hp as <-. reflexivity.
Defined.

(* ================================================================== *)
(** * Properties of the selection *)
(* ================================================================== *)

#[global] Instance SpecPower_order : ChainPowerOrder SpecPower.CChainPower.
Proof.
split; simpl; unfold SpecPower.gt, SpecPower.expand.
- intros [a i]; simpl. lia.
- intros [a i] [b j] [c k]; simpl. lia.
- intros [a i] [b j] [c k]; simpl. lia.
- intros c i j Hij; simpl. lia.
Qed.

Section SelectionFacts.
Context {P : Type} `{ChainPowerOrder P}.
Variables (cur : uint160) (v : list Entry).

Lemma power_gt_asym (a b : P) : power_gt a b = true -> power_gt b a = false.
Proof.
intros Hab. destruct (power_gt b a) eqn:Hba; [| reflexivity].
pose proof (power_gt_trans a b a Hab Hba) as Haa.
rewrite power_gt_irrefl in Haa. discriminate.
Qed.

Lemma powerAt_tail (f : list nat) (fs : list (list nat)) (i j : nat) (p : P) :
  powerAt cur v (f :: fs) i (S j) p <-> powerAt cur v fs (S i) j p.
Proof.
unfold powerAt. simpl. replace (i + S j)%nat with (S (i + j)) by lia. reflexivity.
Qed.

Lemma powerAt_head (f : list nat) (fs : list (list nat)) (i : nat) (p : P) :
  powerAt cur v (f :: fs) i 0 p <-> tipPower cur v f i = Some p.
Proof.
unfold powerAt. simpl. rewrite Nat.add_0_r. split.
- intros (f' & E & Hp). injection E as <-. exact Hp.
- intros Hp. exists f. split; [reflexivity | exact Hp].
Qed.

(** Either no remaining fork beats [best], or some does. *)
Lemma beaten_or_not (fs : list (list nat)) :
  forall (i : nat) (best : P),
    (forall j p, powerAt cur v fs i j p -> power_gt p best = false)
    \/ (exists j p, powerAt cur v fs i j p /\ power_gt p best = true).
Proof.
induction fs as [| f fs IH]; intros i best.
- left. intros j p (f & E & _). destruct j; discriminate.
- destruct (IH (S i) best) as [Hno | (j & p & Hp & Hgt)].
+ destruct (tipPower cur v f i) as [p0 |] eqn:Hp0.
  * destruct (power_gt p0 best) eqn:Hgt.
    -- right. exists 0%nat, p0. split; [apply (proj2 (powerAt_head _ _ _ _)); exact Hp0 | exact Hgt].
    -- left. intros [| j] p Hp.
       ++ apply powerAt_head in Hp. congruence.
       ++ apply powerAt_tail in Hp. exact (Hno j p Hp).
  * left. intros [| j] p Hp.
    -- apply powerAt_head in Hp. congruence.
    -- apply powerAt_tail in Hp. exact (Hno j p Hp).
+ right. exists (S j), p. split; [apply (proj2 (powerAt_tail _ _ _ _ _)); exact Hp | exact Hgt].
Qed.

(** When nothing beats [best] the index chosen so far is kept. *)
Lemma selectLoop_kept (fs : list (list nat)) :
  forall (i : nat) (best : P) (chosen : Z),
    (forall j p, powerAt cur v fs i j p -> power_gt p best = false) ->
    selectLoop cur v fs i best chosen = chosen.
Proof.
induction fs as [| f fs IH]; intros i best chosen Hno; simpl; [reflexivity |].
assert (Htail : forall j p, powerAt cur v fs (S i) j p -> power_gt p best = false).
{ intros j p Hp. apply (Hno (S j) p). apply powerAt_tail. exact Hp. }
destruct (tipPower cur v f i) as [p0 |] eqn:Hp0; [| apply IH; exact Htail].
rewrite (Hno 0%nat p0) by (apply (proj2 (powerAt_head _ _ _ _)); exact Hp0).
apply IH; exact Htail.
Qed.

(** When something beats [best], the index returned is that of a fork whose
  tip beats [best], is beaten by no tip, and beats every tip before it. *)
Lemma selectLoop_moved (fs : list (list nat)) :
  forall (i : nat) (best : P) (chosen : Z),
    (exists j p, powerAt cur v fs i j p /\ power_gt p best = true) ->
    exists k pk,
      powerAt cur v fs i k pk
      /\ selectLoop cur v fs i best chosen = Z.of_nat (i + k)
      /\ power_gt pk best = true
      /\ (forall j p, powerAt cur v fs i j p -> power_gt p pk = false)
      /\ (forall j p, (j < k)%nat -> powerAt cur v fs i j p -> power_gt pk p = true).
Proof.
induction fs as [| f fs IH]; intros i best chosen (j & p & Hp & Hgt).
- destruct Hp as (f & E & _). destruct j; discriminate.
- simpl. destruct (tipPower cur v f i) as [p0 |] eqn:Hp0.
+ destruct (power_gt p0 best) eqn:Hgt0.
  * (* the head takes over *)
    destruct (beaten_or_not fs (S i) p0) as [Hno | Hyes].
    -- exists 0%nat, p0. rewrite (selectLoop_kept fs (S i) p0 _ Hno).
       split; [apply (proj2 (powerAt_head _ _ _ _)); exact Hp0 |].
       split; [f_equal; lia |]. split; [exact Hgt0 |]. split.
       ++ intros [| j'] p' Hp'.
          ** apply powerAt_head in Hp'. replace p' with p0 by congruence.
             apply power_gt_irrefl.
          ** apply powerAt_tail in Hp'. exact (Hno j' p' Hp').
       ++ intros j' p' Hlt. lia.
    -- destruct (IH (S i) p0 (Z.of_nat i) Hyes) as (k & pk & Hk & Hsel & Hgtk & Hmax & Hfirst).
       exists (S k), pk. rewrite Hsel.
       split; [apply (proj2 (powerAt_tail _ _ _ _ _)); exact Hk |].
       split; [f_equal; lia |].
       split; [exact (power_gt_trans pk p0 best Hgtk Hgt0) |]. split.
       ++ intros [| j'] p' Hp'.
          ** apply powerAt_head in Hp'. replace p' with p0 by congruence.
             apply power_gt_asym. exact Hgtk.
          ** apply powerAt_tail in Hp'. exact (Hmax j' p' Hp').
       ++ intros [| j'] p' Hlt Hp'.
          ** apply powerAt_head in Hp'. replace p' with p0 by congruence. exact Hgtk.
          ** apply powerAt_tail in Hp'. apply (Hfirst j' p'); [lia | exact Hp'].
  * (* the head does not beat [best] *)
    assert (Hyes : exists j p, powerAt cur v fs (S i) j p /\ power_gt p best = true).
    { destruct j as [| j'].
      - apply powerAt_head in Hp. congruence.
      - exists j', p. split; [exact (proj1 (powerAt_tail f fs i j' p) Hp) | exact Hgt]. }
    destruct (IH (S i) best chosen Hyes) as (k & pk & Hk & Hsel & Hgtk & Hmax & Hfirst).
    exists (S k), pk. rewrite Hsel.
    split; [apply (proj2 (powerAt_tail _ _ _ _ _)); exact Hk |].
    split; [f_equal; lia |]. split; [exact Hgtk |]. split.
    -- intros [| j'] p' Hp'.
       ++ apply powerAt_head in Hp'. replace p' with p0 by congruence.
          destruct (power_gt p0 pk) eqn:E; [| reflexivity].
          rewrite (power_gt_trans p0 pk best E Hgtk) in Hgt0. discriminate.
       ++ apply powerAt_tail in Hp'. exact (Hmax j' p' Hp').
    -- intros [| j'] p' Hlt Hp'.
       ++ apply powerAt_head in Hp'. replace p' with p0 by congruence.
          destruct (power_gt pk p0) eqn:E; [reflexivity |].
          rewrite (power_gt_negtrans pk p0 best E Hgt0) in Hgtk. discriminate.
       ++ apply powerAt_tail in Hp'. apply (Hfirst j' p'); [lia | exact Hp'].
+ (* the head has no proof root *)
  assert (Hyes : exists j p, powerAt cur v fs (S i) j p /\ power_gt p best = true).
  { destruct j as [| j'].
    - apply powerAt_head in Hp. congruence.
    - exists j', p. split; [exact (proj1 (powerAt_tail f fs i j' p) Hp) | exact Hgt]. }
  destruct (IH (S i) best chosen Hyes) as (k & pk & Hk & Hsel & Hgtk & Hmax & Hfirst).
  exists (S k), pk. rewrite Hsel.
  split; [apply (proj2 (powerAt_tail _ _ _ _ _)); exact Hk |].
  split; [f_equal; lia |]. split; [exact Hgtk |]. split.
  -- intros [| j'] p' Hp'.
     ++ apply powerAt_head in Hp'. congruence.
     ++ apply powerAt_tail in Hp'. exact (Hmax j' p' Hp').
  -- intros [| j'] p' Hlt Hp'.
     ++ apply powerAt_head in Hp'. congruence.
     ++ apply powerAt_tail in Hp'. apply (Hfirst j' p'); [lia | exact Hp'].
Qed.

(** The two outcomes of the selection over all forks. *)
Lemma selectBestChain_cases (fs : list (list nat)) :
  let pw j := match nth_error fs j with
              | Some f => tipPower cur v f j
              | None => None
              end in
  ((forall j p, pw j = Some p -> power_gt p defaultPower = false)
   /\ selectBestChain cur v fs = 0)
  \/ (exists k pk,
         pw k = Some pk
         /\ selectBestChain cur v fs = Z.of_nat k
         /\ power_gt pk defaultPower = true
         /\ (forall j p, pw j = Some p -> power_gt p pk = false)
         /\ (forall j p, (j < k)%nat -> pw j = Some p -> power_gt pk p = true)).
Proof.
intros pw.
assert (Hpw : forall j p, pw j = Some p <-> powerAt cur v fs 0 j p).
{ intros j p. unfold pw, powerAt. simpl. split.
- destruct (nth_error fs j) as [f |]; [| discriminate].
  intros Hp. exists f. split; [reflexivity | exact Hp].
- intros (f & -> & Hp). exact Hp. }
unfold selectBestChain.
destruct (beaten_or_not fs 0 defaultPower) as [Hno | Hyes].
- left. split.
+ intros j p Hp. apply (Hno j p). apply Hpw. exact Hp.
+ apply selectLoop_kept. exact Hno.
- right. destruct (selectLoop_moved fs 0 defaultPower 0 Hyes)
  as (k & pk & Hk & Hsel & Hgtk & Hmax & Hfirst).
exists k, pk. split; [apply Hpw; exact Hk |].
split; [exact Hsel |]. split; [exact Hgtk |]. split.
+ intros j p Hp. apply (Hmax j p). apply Hpw. exact Hp.
+ intros j p Hlt Hp. apply (Hfirst j p Hlt). apply Hpw. exact Hp.
Qed.
End SelectionFacts.

(* ================================================================== *)
(** * One fork per leaf *)
(* ================================================================== *)

Section ForksAndLeaves.

Lemma reaches_node (root : CUTXORef) (refs : References) (x : CUTXORef) :
  reaches root refs x -> In x (root :: valrefs refs).
Proof.
destruct 1 as [| kv Hkv _]; [left; reflexivity |].
right. unfold valrefs. apply in_map_iff. exists kv. split; [reflexivity | exact Hkv].
Qed.

(** The invariant holds when the expansion starts from the seed. *)
Lemma growth_starts (r : CUTXORef) (nz : CPBaaSNotarization) (refs : References) :
  mm_sorted refs -> formsTree r refs ->
  GrowthInv refs [(r, nz)] (treeLeaves r refs) (mkGrowth [(r, nz)] [[0%nat]] refs true).
Proof.
intros Hs [Hnd Hreach]. constructor; simpl.
- repeat constructor.
- exact Hs.
- exact Hnd.
- intros kv Hkv. apply (reaches_node r refs). apply Hreach. exact Hkv.
- apply Permutation_refl.
- intros kv Hkv. exact Hkv.
- apply Permutation_refl.
Qed.

Lemma childless_nil (x : CUTXORef) : childless [] x = true.
Proof. reflexivity. Qed.

(** What the expansion has done once no reference is left. *)
Lemma growth_ends (refs : References) (v0 : list Entry) (L0 : list CUTXORef) (g : Growth) :
  GrowthInv refs v0 L0 g -> g_refs g = [] ->
  Permutation (tips (g_vtx g) (g_forks g)) L0
  /\ length (g_forks g) = length L0
  /\ Permutation (g_vtx g) (v0 ++ map snd refs).
Proof.
intros [_ _ _ _ Hlv _ Hvx] E. unfold frontier in Hlv. rewrite E in Hlv, Hvx.
simpl in Hlv, Hvx. rewrite !app_nil_r in *.
rewrite filter_all in Hlv by (apply Forall_forall; intros; reflexivity).
split; [exact Hlv | split; [| exact Hvx]].
rewrite <- (Permutation_length Hlv). unfold tips. rewrite length_map. reflexivity.
Qed.
End ForksAndLeaves.

(** C6.  When the pending records, keyed by parent reference, form a tree
    rooted at the confirmed seed, the expansion ends with one fork per leaf
    of the tree: the fork tips are the leaves, each once; no reference is
    left; the entries are the seed and every pending record exactly once.
    In each step the first record matching a fork tip is appended to that
    fork in place, and every further match adds a fork made of the same
    prefix ending in that record.  This holds in particular of the forks
    returned by the query. *)
Theorem expansion_one_fork_per_leaf
        (r : CUTXORef) (nz : CPBaaSNotarization) (refs : References) :
  mm_sorted refs -> formsTree r refs ->
  let g := growForks (singleFork r nz) refs in
  Permutation (tips (g_vtx g) (g_forks g)) (treeLeaves r refs)
  /\ length (g_forks g) = length (treeLeaves r refs)
  /\ g_refs g = []
  /\ Permutation (g_vtx g) ((r, nz) :: map snd refs)
  /\ NoDup (map fst (g_vtx g))
  /\ (forall (g0 : Growth) (i : nat) m rest,
         (i < length (g_forks g0))%nat ->
         mm_run ref_ltb ref_eqb
                (fst (tipEntry (g_vtx g0) (nth i (g_forks g0) []))) (g_refs g0)
           = m :: rest ->
         g_vtx (growFork i g0) = g_vtx g0 ++ map snd (m :: rest)
         /\ g_forks (growFork i g0) =
              pushAt i (length (g_vtx g0)) (g_forks g0)
                ++ map (fun j => nth i (g_forks g0) [] ++ [j])
                       (seq (S (length (g_vtx g0))) (length rest))
         /\ g_refs (growFork i g0) =
              mm_erase ref_eqb (fst (tipEntry (g_vtx g0) (nth i (g_forks g0) []))) (g_refs g0))
  /\ (forall (P : Type) (ops : ChainPowerOps P) (env : Env) (cur : uint160) (wantTx : bool)
             first rest legacy p1 ps,
         def_valid (GetCachedCurrency env cur) = true ->
         localGuard env cur = false ->
         GetAddressUnspent env (confirmedNotarizationKey env cur) = Some (first :: rest) ->
         SeedResolves env wantTx (latestConfirmed first (first :: rest)) legacy r nz ->
         legacy && IsToken (GetCachedCurrency env cur) = false ->
         GetAddressUnspent env (pendingNotarizationKey env cur) = Some (p1 :: ps) ->
         refs = collectPending env (p1 :: ps) ->
         exists nd,
           GetNotarizationData env cur wantTx = Some nd
           /\ Permutation (tips (vtx nd) (forks nd)) (treeLeaves r refs)
           /\ length (forks nd) = length (treeLeaves r refs)).
Proof.
intros Hs Htree g.
destruct (growLoop_done refs [(r, nz)] (treeLeaves r refs) r Htree (S (length refs))
            (mkGrowth [(r, nz)] [[0%nat]] refs true)
            (growth_starts r nz refs Hs Htree) eq_refl ltac:(simpl; lia))
  as [HI Hdone].
fold (growForks (singleFork r nz) refs) in HI, Hdone. fold g in HI, Hdone.
destruct (growth_ends refs _ _ g HI Hdone) as (Htips & Hlen & Hvtx).
simpl in Hvtx.
split; [exact Htips |]. split; [exact Hlen |]. split; [exact Hdone |].
split; [exact Hvtx |]. split; [| split].
- apply (Permutation_NoDup (l := r :: valrefs refs)); [| exact (proj1 Htree)].
  apply Permutation_sym.
  apply Permutation_trans with (map fst ((r, nz) :: map snd refs));
    [apply Permutation_map; exact Hvtx |].
  simpl. unfold valrefs. rewrite map_map. apply Permutation_refl.
- intros g0 i m rest Hi Hrun.
  pose proof (growFork_cases i g0 Hi) as Hc. cbv zeta in Hc. rewrite Hrun in Hc.
  rewrite Hc. simpl. repeat split; reflexivity.
- intros P Hops env cur wantTx first rest legacy p1 ps Hdef Hloc Hidx Hres Hleg Hpend ->.
  rewrite (query_after_seed env cur wantTx first rest legacy r nz Hdef Hloc Hidx Hres).
  rewrite Hleg, Hpend.
  eexists. split; [reflexivity |]. unfold resolvePendingForks. simpl.
  fold g. split; [exact Htips | exact Hlen].
Qed.

Lemma expansion_one_fork_per_leaf_witness :
  let g := growForks (singleFork Samples.R (Samples.notz nullRef (Some 5))) Samples.refsA in
  Permutation (tips (g_vtx g) (g_forks g)) (treeLeaves Samples.R Samples.refsA)
  /\ length (g_forks g) = length (treeLeaves Samples.R Samples.refsA).
Proof.
assert (Hs : mm_sorted Samples.refsA).
{ unfold mm_sorted. vm_compute. repeat constructor. }
assert (Ht : formsTree Samples.R Samples.refsA).
{ split.
  - vm_compute.
    repeat (constructor; [simpl; intuition congruence |]). constructor.
  - intros kv Hin.
    assert (Hin' : In kv Samples.refsA) by exact Hin.
    vm_compute in Hin.
    destruct Hin as [E | [E | [E | []]]]; subst kv.
    + apply reaches_root.
    + apply reaches_root.
    + refine (reaches_child Samples.R Samples.refsA
                (Samples.R, (Samples.P1, Samples.notz Samples.R (Some 9))) _
                (reaches_root _ _)).
      vm_compute. left. reflexivity. }
pose proof (expansion_one_fork_per_leaf Samples.R (Samples.notz nullRef (Some 5))
              Samples.refsA Hs Ht) as (H1 & H2 & _).
split; [exact H1 | exact H2].
Defined.

(* ================================================================== *)
(** * The best-chain index of a query *)
(* ================================================================== *)

Section BestChainFacts.
Context {P : Type} `{ChainPowerOrder P}.

(** Whatever the seed step hands on is a single fork of one record. *)
Lemma seedStep_shape (env : Env) (cur : uint160) (wantTx : bool)
      (nd : CChainNotarizationData) :
  seedStep env cur wantTx = SeedReturn nd \/ seedStep env cur wantTx = SeedNext nd ->
  exists r nz, nd = singleFork r nz.
Proof.
unfold seedStep.
destruct (def_valid (GetCachedCurrency env cur));
  [change (negb true) with false | intros [E | E]; discriminate].
cbv beta iota zeta.
destruct (localGuard env cur).
- intros [E | E]; [| discriminate]. injection E as <-. eexists; eexists; reflexivity.
- destruct (GetAddressUnspent env (confirmedNotarizationKey env cur))
    as [[| first rest] |]; try (intros [E | E]; discriminate).
  destruct (seedFromEntry env (GetCachedCurrency env cur) wantTx emptyData
              (latestConfirmed first (first :: rest))) as [| nd' | nd'] eqn:Hseed.
  + intros [E | E]; discriminate.
  + intros [E | E]; [| discriminate]. injection E as <-.
    destruct (seedFromEntry_sound env wantTx _ _ nd' (or_introl Hseed))
      as (legacy & r & nz & _ & ->).
    eexists; eexists; reflexivity.
  + destruct (length (vtx nd') =? 0)%nat eqn:Hlen; intros [E | E]; try discriminate.
    injection E as <-. apply length_zero_nil in Hlen.
    destruct (seedFromEntry_sound env wantTx _ _ nd' (or_intror (conj Hseed Hlen)))
      as (legacy & r & nz & _ & ->).
    eexists; eexists; reflexivity.
Qed.

(** The best-chain index of a successful query is the one the selection
    loop computes over the forks returned. *)
Lemma query_bestChain (env : Env) (cur : uint160) (wantTx : bool)
      (nd : CChainNotarizationData) :
  GetNotarizationData env cur wantTx = Some nd ->
  bestChain nd = selectBestChain cur (vtx nd) (forks nd).
Proof.
unfold GetNotarizationData.
destruct (seedStep env cur wantTx) as [| nd0 | nd0] eqn:Hseed; [discriminate | |].
- intros E; injection E as <-.
  destruct (seedStep_shape env cur wantTx nd0 (or_introl Hseed)) as (r & nz & ->).
  simpl. rewrite selectBestChain_single. reflexivity.
- destruct (seedStep_shape env cur wantTx nd0 (or_intror Hseed)) as (r & nz & ->).
  destruct (GetAddressUnspent env (pendingNotarizationKey env cur)) as [[| p1 ps] |].
  + simpl. intros E; injection E as <-. simpl. rewrite selectBestChain_single. reflexivity.
  + destruct (length (vtx (resolvePendingForks env cur (singleFork r nz) (p1 :: ps))) =? 0)%nat;
      [discriminate |].
    intros E; injection E as <-. reflexivity.
  + simpl. intros E; injection E as <-. simpl. rewrite selectBestChain_single. reflexivity.
Qed.

Lemma forkPower_compact (cur : uint160) (nd : CChainNotarizationData) (j : nat) :
  forkPower cur nd j =
    option_map (fun c => ExpandCompactPower c (Z.of_nat j)) (forkCompact cur nd j).
Proof.
unfold forkPower, forkCompact, tipPower.
destruct (nth_error (forks nd) j) as [f |]; [| reflexivity].
destruct (findRoot cur (proofRoots (snd (tipEntry (vtx nd) f)))); reflexivity.
Qed.

(** C1 (as amended).  In every successful query the best-chain index is
    the one computed by the selection over exactly the forks whose tip
    presents a proof root for the currency: when the power of at least one
    such tip exceeds the default power, it names a fork with such a tip
    that no such tip exceeds and that exceeds every such tip before it;
    when no tip does (in particular when no fork presents a proof root) it
    is 0, and the query has succeeded all the same. *)
Theorem best_chain_strongest_tip (env : Env) (cur : uint160) (wantTx : bool)
        (nd : CChainNotarizationData) :
  GetNotarizationData env cur wantTx = Some nd ->
  ((forall j, forkCompact cur nd j = None) -> bestChain nd = 0)
  /\ ((forall j p, forkPower cur nd j = Some p -> power_gt p defaultPower = false) ->
      bestChain nd = 0)
  /\ ((exists j p, forkPower cur nd j = Some p /\ power_gt p defaultPower = true) ->
      exists k pk,
        bestChain nd = Z.of_nat k
        /\ forkPower cur nd k = Some pk
        /\ forkCompact cur nd k <> None
        /\ (forall j p, forkPower cur nd j = Some p -> power_gt p pk = false)
        /\ (forall j p, (j < k)%nat -> forkPower cur nd j = Some p -> power_gt pk p = true)).
Proof.
intros Hq. rewrite (query_bestChain env cur wantTx nd Hq).
pose proof (selectBestChain_cases cur (vtx nd) (forks nd)) as Hc. cbv zeta in Hc.
fold (forkPower cur nd) in Hc.
assert (Hweak : (forall j p, forkPower cur nd j = Some p -> power_gt p defaultPower = false) ->
                selectBestChain cur (vtx nd) (forks nd) = 0).
{ intros Hno. destruct Hc as [[_ E] | (k & pk & Hk & _ & Hgt & _)]; [exact E |].
  rewrite (Hno k pk Hk) in Hgt. discriminate. }
split; [| split].
- intros Hnone. apply Hweak. intros j p Hp.
  rewrite forkPower_compact, (Hnone j) in Hp. discriminate.
- exact Hweak.
- intros (j & p & Hp & Hgt).
  destruct Hc as [[Hno _] | (k & pk & Hk & Hsel & _ & Hmax & Hfirst)].
  + rewrite (Hno j p Hp) in Hgt. discriminate.
  + exists k, pk. repeat split; try assumption.
    intros Hnone. rewrite forkPower_compact, Hnone in Hk. discriminate.
Qed.

(** C7 (as amended).  Among forks whose tips present proof roots of equal
    compact power, the selection never prefers a higher index: the fork
    chosen has the lowest index of those presenting the power of its tip;
    when all forks present the same power, fork 0 is chosen.  Which tip
    that is follows the order in which the forks were discovered. *)
Theorem equal_power_lower_index_wins (env : Env) (cur : uint160) (wantTx : bool)
        (nd : CChainNotarizationData) :
  GetNotarizationData env cur wantTx = Some nd ->
  (forall j c,
      forkCompact cur nd (Z.to_nat (bestChain nd)) = Some c ->
      forkCompact cur nd j = Some c ->
      bestChain nd <= Z.of_nat j)
  /\ (forall c,
         (forall j, (j < length (forks nd))%nat -> forkCompact cur nd j = Some c) ->
         bestChain nd = 0).
Proof.
intros Hq. rewrite (query_bestChain env cur wantTx nd Hq).
pose proof (selectBestChain_cases cur (vtx nd) (forks nd)) as Hc. cbv zeta in Hc.
fold (forkPower cur nd) in Hc.
assert (Low : forall j c,
           forkCompact cur nd (Z.to_nat (selectBestChain cur (vtx nd) (forks nd))) = Some c ->
           forkCompact cur nd j = Some c ->
           selectBestChain cur (vtx nd) (forks nd) <= Z.of_nat j).
{ intros j c Hb Hj.
  destruct Hc as [[_ ->] | (k & pk & Hk & Hsel & _ & _ & Hfirst)]; [lia |].
  rewrite Hsel in *. rewrite Nat2Z.id in Hb.
  destruct (Nat.lt_ge_cases j k) as [Hlt | Hge]; [exfalso | lia].
  assert (Hpj : forkPower cur nd j = Some (ExpandCompactPower c (Z.of_nat j)))
    by (rewrite forkPower_compact, Hj; reflexivity).
  assert (Hpk : pk = ExpandCompactPower c (Z.of_nat k))
    by (rewrite forkPower_compact, Hb in Hk; simpl in Hk; congruence).
  pose proof (Hfirst j _ Hlt Hpj) as Hgt. rewrite Hpk in Hgt.
  rewrite (power_tie_lower c (Z.of_nat j) (Z.of_nat k)) in Hgt by lia.
  discriminate. }
split; [exact Low |].
intros c Hall.
destruct Hc as [[_ E] | (k & pk & Hk & Hsel & _ & _ & _)]; [exact E |].
assert (Hklt : (k < length (forks nd))%nat).
{ apply nth_error_Some. unfold forkPower in Hk.
  destruct (nth_error (forks nd) k); [discriminate | discriminate Hk]. }
assert (H0lt : (0 < length (forks nd))%nat) by lia.
pose proof (Low 0%nat c) as L. rewrite Hsel in L. rewrite Nat2Z.id in L.
specialize (L (Hall k Hklt) (Hall 0%nat H0lt)). rewrite Hsel. lia.
Qed.
End BestChainFacts.

(** C1 as first stated fails.  On the first ledger no fork tip presents a
    proof root for the currency, and the query succeeds with fork 0
    designated as best.  On the second, fork 1 is the only one whose tip
    presents a proof root, its power does not exceed the default power, and
    fork 0 is designated. *)
Lemma rootless_forks_still_succeed :
  (exists nd,
      GetNotarizationData Samples.chainRootless 7 false = Some nd
      /\ GetAddressUnspent Samples.chainRootless
           (pendingNotarizationKey Samples.chainRootless 7) <> Some []
      /\ (forall j, forkCompact 7 nd j = None)
      /\ bestChain nd = 0)
  /\ (exists nd,
         GetNotarizationData Samples.chainZero 7 false = Some nd
         /\ length (forks nd) = 2%nat
         /\ forkCompact 7 nd 0 = None
         /\ forkCompact 7 nd 1 = Some 0
         /\ bestChain nd = 0).
Proof.
split.
- eexists. split; [vm_compute; reflexivity |]. split; [vm_compute; discriminate |].
  split; [| reflexivity].
  intros [| [| j]]; reflexivity.
- eexists. split; [vm_compute; reflexivity |]. repeat split; reflexivity.
Qed.

Lemma best_chain_strongest_tip_witness :
  exists k pk,
    bestChain Samples.resultA = Z.of_nat k
    /\ forkPower 7 Samples.resultA k = Some pk
    /\ forkCompact 7 Samples.resultA k <> None
    /\ (forall j p, forkPower 7 Samples.resultA j = Some p -> power_gt p pk = false)
    /\ (forall j p, (j < k)%nat -> forkPower 7 Samples.resultA j = Some p
                    -> power_gt pk p = true).
Proof.
refine (proj2 (proj2 (best_chain_strongest_tip Samples.chainA 7 false Samples.resultA
                        eq_refl)) _).
exists 0%nat, (SpecPower.mkPower 9 0). split; reflexivity.
Defined.

(** C7 as first stated fails: the two ledgers hold the same pending
    notarizations, indexed in two orders; the forks are the same two paths,
    both tips present power 9, and the tip selected is [P3] under one order
    and [P2] under the other. *)
Lemma selected_tip_depends_on_discovery_order :
  Permutation Samples.pendingA Samples.pendingB
  /\ forkCompact 7 Samples.resultA 0 = Some 9
  /\ forkCompact 7 Samples.resultA 1 = Some 9
  /\ forkCompact 7 Samples.resultB 0 = Some 9
  /\ forkCompact 7 Samples.resultB 1 = Some 9
  /\ Samples.bestTip (GetNotarizationData Samples.chainA 7 false) = Some Samples.P3
  /\ Samples.bestTip (GetNotarizationData Samples.chainB 7 false) = Some Samples.P2
  /\ Samples.bestTip (GetNotarizationData Samples.chainA 7 false)
     <> Samples.bestTip (GetNotarizationData Samples.chainB 7 false).
Proof.
split; [apply perm_swap |].
repeat split; try (vm_compute; reflexivity).
vm_compute. discriminate.
Qed.

Lemma equal_power_lower_index_wins_witness :
  bestChain Samples.resultA <= Z.of_nat 1.
Proof.
exact (proj1 (equal_power_lower_index_wins Samples.chainA 7 false Samples.resultA eq_refl)
             1%nat 9 eq_refl eq_refl).
Defined.

(* ================================================================== *)
(** * Forks as linked paths *)
(* ================================================================== *)

Section PathFacts.

Lemma chainFrom_grow (v extra : list Entry) (a : nat) (rest : list nat) :
  chainFrom v a rest -> chainFrom (v ++ extra) a rest.
Proof.
induction 1 as [a Ha | a b rest Hab Ha Hlink Hrest IH].
- constructor. rewrite length_app. lia.
- assert (Hb : (b < length v)%nat) by (inversion Hrest; assumption).
  constructor; [exact Hab | rewrite length_app; lia | | exact IH].
  rewrite !app_nth1 by assumption. exact Hlink.
Qed.

Lemma chainFrom_last (v : list Entry) (a : nat) (rest : list nat) :
  chainFrom v a rest -> (last (a :: rest) 0 < length v)%nat.
Proof.
induction 1 as [a Ha | a b rest Hab Ha Hlink Hrest IH]; [exact Ha |].
replace (last (a :: b :: rest) 0%nat) with (last (b :: rest) 0%nat) by reflexivity.
exact IH.
Qed.

(** A path can be continued by a later entry that extends its last one. *)
Lemma chainFrom_snoc (v : list Entry) (a : nat) (rest : list nat) (x : nat) :
  chainFrom v a rest ->
  (last (a :: rest) 0 < x)%nat -> (x < length v)%nat ->
  prevNotarization (snd (nth x v defaultEntry))
    = fst (nth (last (a :: rest) 0%nat) v defaultEntry) ->
  chainFrom v a (rest ++ [x]).
Proof.
induction 1 as [a Ha | a b rest Hab Ha Hlink Hrest IH]; intros Hlt Hx Hl.
- simpl in *. constructor; [exact Hlt | exact Ha | exact Hl | constructor; exact Hx].
- simpl app. constructor; [exact Hab | exact Ha | exact Hlink |].
  apply IH; assumption.
Qed.

Lemma linkedFork_grow (v extra : list Entry) (f : list nat) :
  linkedFork v f -> linkedFork (v ++ extra) f.
Proof.
intros (rest & -> & Hc). exists rest. split; [reflexivity | apply chainFrom_grow; exact Hc].
Qed.

Lemma linkedFork_snoc (v : list Entry) (f : list nat) (x : nat) :
  linkedFork v f ->
  (last f 0 < x)%nat -> (x < length v)%nat ->
  prevNotarization (snd (nth x v defaultEntry)) = fst (tipEntry v f) ->
  linkedFork v (f ++ [x]).
Proof.
intros (rest & -> & Hc) Hlt Hx Hl. exists (rest ++ [x]). split; [reflexivity |].
apply chainFrom_snoc; assumption.
Qed.

Lemma linkedFork_bounds (v : list Entry) (f : list nat) :
  linkedFork v f ->
  f <> [] /\ hd_error f = Some 0%nat /\ (last f 0 < length v)%nat
  /\ Forall (fun i => (i < length v)%nat) f.
Proof.
intros (rest & -> & Hc). split; [discriminate |]. split; [reflexivity |].
split; [apply chainFrom_last; exact Hc |].
induction Hc as [a Ha | a b rest Hab Ha Hlink Hrest IH].
- repeat constructor. exact Ha.
- constructor; [exact Ha | exact IH].
Qed.

Lemma keyedByParent_erase (t : CUTXORef) (refs : References) :
  keyedByParent refs -> keyedByParent (mm_erase ref_eqb t refs).
Proof.
unfold keyedByParent, mm_erase. intros Hk. apply Forall_forall. intros kv Hin.
apply filter_In in Hin as [Hin _]. rewrite Forall_forall in Hk. apply Hk. exact Hin.
Qed.

(** The entry a match is stored at, once the matches are appended. *)
Lemma nth_appended (v : list Entry) (ms : list (CUTXORef * Entry)) (j : nat) :
  (j < length ms)%nat ->
  exists kv, In kv ms /\ nth (length v + j) (v ++ map snd ms) defaultEntry = snd kv.
Proof.
intros Hj. rewrite app_nth2 by lia.
replace (length v + j - length v)%nat with j by lia.
exists (nth j ms (nullRef, defaultEntry)). split; [apply nth_In; exact Hj |].
rewrite <- (map_nth snd). reflexivity.
Qed.

(** One step keeps the forks linked paths. *)
Lemma growFork_paths (v0 : list Entry) (refs0 : References) (i : nat) (g : Growth) :
  PathInv v0 refs0 g -> (i < length (g_forks g))%nat -> PathInv v0 refs0 (growFork i g).
Proof.
intros [Hsh Hk Hf Hcnt Hcont] Hi. pose proof Hsh as [Hw Hs].
pose proof (growFork_cases i g Hi) as Hc. cbv zeta in Hc.
rewrite (mm_run_filter _ (g_refs g) Hs) in Hc.
set (t := fst (tipEntry (g_vtx g) (nth i (g_forks g) []))) in *.
destruct (filter (fun x => ref_eqb (fst x) t) (g_refs g)) as [| m rest] eqn:Ems.
- rewrite Hc, (erase_nothing t (g_refs g) Ems). constructor; assumption.
- set (ms := m :: rest) in *.
  assert (Hms : forall kv, In kv ms ->
                  prevNotarization (snd (snd kv)) = t /\ In kv (g_refs g)).
  { intros kv Hin. rewrite <- Ems in Hin.
    apply filter_In in Hin as [Hin Heq]. apply ref_eqb_eq in Heq.
    unfold keyedByParent in Hk. rewrite Forall_forall in Hk.
    split; [exact (eq_trans (eq_sym (Hk kv Hin)) Heq) | exact Hin]. }
  set (f := nth i (g_forks g) []) in *.
  assert (Hfi : linkedFork (g_vtx g) f).
  { rewrite Forall_forall in Hf. apply Hf. apply nth_In. exact Hi. }
  assert (Hlast : (last f 0 < length (g_vtx g))%nat)
    by (apply linkedFork_bounds; exact Hfi).
  assert (Hnew : forall x, (length (g_vtx g) <= x < length (g_vtx g) + length ms)%nat ->
            linkedFork (g_vtx g ++ map snd ms) (f ++ [x])).
  { intros x Hx. apply linkedFork_snoc.
    - apply linkedFork_grow. exact Hfi.
    - lia.
    - rewrite length_app, length_map. lia.
    - destruct (nth_appended (g_vtx g) ms (x - length (g_vtx g))%nat ltac:(lia))
        as (kv & Hin & E).
      replace (length (g_vtx g) + (x - length (g_vtx g)))%nat with x in E by lia.
      rewrite E, (tipEntry_app _ _ f Hlast). apply Hms. exact Hin. }
  destruct (pushAt_split i (length (g_vtx g)) (g_forks g) Hi) as [E1 E2].
  fold f in E1, E2.
  destruct (growFork_shape i g Hsh Hi) as [Hsh' _].
  rewrite Hc in Hsh' |- *. constructor; cbn [g_vtx g_forks g_refs somethingAdded].
  + exact Hsh'.
  + apply keyedByParent_erase. exact Hk.
  + apply Forall_app. split.
    * rewrite E2. rewrite E1 in Hf. apply Forall_app in Hf as [H1 H2].
      apply Forall_app. split.
      -- eapply Forall_impl; [| exact H1]. intros a Ha. apply linkedFork_grow. exact Ha.
      -- inversion H2 as [| y l _ H3]; subst. constructor.
         ++ apply Hnew. simpl. lia.
         ++ eapply Forall_impl; [| exact H3]. intros a Ha. apply linkedFork_grow. exact Ha.
    * apply Forall_forall. intros f' Hin. apply in_map_iff in Hin as (j & <- & Hj).
      apply in_seq in Hj. apply Hnew. simpl. lia.
  + unfold ms. simpl. rewrite !length_app, pushAt_length, !length_map, length_seq. simpl. rewrite !length_map. lia.
  + apply Permutation_trans with (g_vtx g ++ map snd (g_refs g)); [| exact Hcont].
    rewrite <- app_assoc. apply Permutation_app_head.
    rewrite <- Ems. unfold mm_erase. rewrite <- map_app.
    apply Permutation_map. apply Permutation_sym. apply filter_split_perm.
Qed.

Lemma growPass_paths (v0 : list Entry) (refs0 : References) (count : nat) :
  forall (from : nat) (g : Growth),
    (from + count <= length (g_forks g))%nat ->
    PathInv v0 refs0 g -> PathInv v0 refs0 (growPass count from g).
Proof.
induction count as [| count IH]; intros from g Hle HI; simpl; [exact HI |].
apply IH.
- pose proof (proj2 (growFork_shape from g (path_shape _ _ _ HI) ltac:(lia))). lia.
- apply growFork_paths; [exact HI | lia].
Qed.

Lemma growLoop_paths (v0 : list Entry) (refs0 : References) (fuel : nat) :
  forall g : Growth, PathInv v0 refs0 g -> PathInv v0 refs0 (growLoop fuel g).
Proof.
induction fuel as [| fuel IH]; intros g HI; simpl; [exact HI |].
destruct (somethingAdded g && negb (length (g_refs g) =? 0)%nat); [| exact HI].
apply IH. apply growPass_paths; [simpl; lia |].
destruct HI as [H1 H2 H3 H4 H5]. constructor; assumption.
Qed.

(** The invariant holds of the expansion run by the query. *)
Lemma growForks_paths (r : CUTXORef) (nz : CPBaaSNotarization) (env : Env)
      (pending : list UnspentEntry) :
  PathInv [(r, nz)] (collectPending env pending)
          (growForks (singleFork r nz) (collectPending env pending)).
Proof.
apply growLoop_paths. constructor; simpl.
- split; simpl; [repeat constructor | apply collectPending_sorted].
- apply collectPending_keyed.
- repeat constructor. exists []. split; [reflexivity | constructor; simpl; lia].
- lia.
- apply Permutation_refl.
Qed.
End PathFacts.
(* ================================================================== *)
(** * The expansion leaves no extension of a placed record behind *)
(* ================================================================== *)

Section ClosureFacts.

Lemma childless_erased (refs : References) (t : CUTXORef) :
  childless (mm_erase ref_eqb t refs) t = true.
Proof.
unfold childless, mm_erase. apply forallb_forall. intros kv Hin.
apply filter_In in Hin as [_ Hk]. exact Hk.
Qed.

Lemma childless_erase_keeps (refs : References) (t x : CUTXORef) :
  childless refs x = true -> childless (mm_erase ref_eqb t refs) x = true.
Proof.
unfold childless, mm_erase. rewrite !forallb_forall. intros Hall kv Hin.
apply filter_In in Hin as [Hin _]. apply Hall. exact Hin.
Qed.

(** One step keeps every placed entry a tip or without extension. *)
Lemma growFork_tipsOrDone (i : nat) (g : Growth) :
  growthShape g -> tipsOrDone g -> (i < length (g_forks g))%nat ->
  tipsOrDone (growFork i g).
Proof.
intros Hsh Hinv Hi. pose proof Hsh as [Hw Hs].
pose proof (growFork_cases i g Hi) as Hc. cbv zeta in Hc.
rewrite (mm_run_filter _ (g_refs g) Hs) in Hc.
set (t := fst (tipEntry (g_vtx g) (nth i (g_forks g) []))) in *.
destruct (filter (fun x => ref_eqb (fst x) t) (g_refs g)) as [| m rest] eqn:Ems.
- rewrite Hc, (erase_nothing t (g_refs g) Ems). exact Hinv.
- set (f := nth i (g_forks g) []) in *.
  destruct (pushAt_split i (length (g_vtx g)) (g_forks g) Hi) as [E1 E2].
  fold f in E1, E2.
  rewrite Hc. intros j Hj. cbn [g_vtx g_forks g_refs somethingAdded] in Hj |- *.
  rewrite length_app, length_map in Hj. cbn [length] in Hj.
  destruct (Nat.lt_ge_cases j (length (g_vtx g))) as [Hold | Hnew].
  + rewrite app_nth1 by exact Hold.
    destruct (Hinv j Hold) as [(f' & Hin & Hlast) | Hdone].
    * rewrite E1 in Hin. apply in_app_or in Hin as [Hin | [<- | Hin]].
      -- left. exists f'. split; [| exact Hlast]. apply in_or_app. left.
         rewrite E2. apply in_or_app. left. exact Hin.
      -- right. rewrite <- Hlast. apply childless_erased.
      -- left. exists f'. split; [| exact Hlast]. apply in_or_app. left.
         rewrite E2. apply in_or_app. right. right. exact Hin.
    * right. apply childless_erase_keeps. exact Hdone.
  + left. exists (f ++ [j]). split; [| apply last_last].
    destruct (Nat.eq_dec j (length (g_vtx g))) as [-> | Hne].
    * apply in_or_app. left. rewrite E2. apply in_or_app. right. left. reflexivity.
    * apply in_or_app. right. apply in_map_iff. exists j. split; [reflexivity |].
      apply in_seq. lia.
Qed.

Lemma growPass_tipsOrDone (count : nat) :
  forall (from : nat) (g : Growth),
    (from + count <= length (g_forks g))%nat ->
    growthShape g -> tipsOrDone g -> tipsOrDone (growPass count from g).
Proof.
induction count as [| count IH]; intros from g Hle Hsh Hinv; simpl; [exact Hinv |].
destruct (growFork_shape from g Hsh ltac:(lia)) as [Hsh' Hfl].
apply IH; [lia | exact Hsh' |].
apply growFork_tipsOrDone; [exact Hsh | exact Hinv | lia].
Qed.

(** Until the flag is set again, no reference extends a tip. *)
Lemma growLoop_settles (fuel : nat) :
  forall g : Growth,
    growthShape g -> tipsOrDone g ->
    somethingAdded g = true \/ quietTips g ->
    growthShape (growLoop fuel g) /\ tipsOrDone (growLoop fuel g)
    /\ (somethingAdded (growLoop fuel g) = true \/ quietTips (growLoop fuel g)).
Proof.
induction fuel as [| fuel IH]; intros g Hsh Hinv Hq; simpl;
  [split; [exact Hsh | split; [exact Hinv | exact Hq]] |].
destruct (somethingAdded g && negb (length (g_refs g) =? 0)%nat) eqn:Hcond;
  [| split; [exact Hsh | split; [exact Hinv | exact Hq]]].
assert (Hsh0 : growthShape (mkGrowth (g_vtx g) (g_forks g) (g_refs g) false))
  by exact Hsh.
assert (Hinv0 : tipsOrDone (mkGrowth (g_vtx g) (g_forks g) (g_refs g) false))
  by exact Hinv.
apply IH.
- apply growPass_shape; [simpl; lia | exact Hsh0].
- apply growPass_tipsOrDone; [simpl; lia | exact Hsh0 | exact Hinv0].
- destruct (growPass_progress (length (g_forks g)) 0
              (mkGrowth (g_vtx g) (g_forks g) (g_refs g) false)
              ltac:(simpl; lia) Hsh0)
    as [[E Hall] | [Hadd _]]; [| left; exact Hadd].
  right. rewrite E. intros f Hin. cbn [g_vtx g_forks g_refs] in *.
  destruct (In_nth _ _ [] Hin) as (k & Hk & <-). apply Hall. lia.
Qed.

(** When the expansion run by the query stops, no reference left extends
    any placed entry. *)
Lemma growForks_settled (r : CUTXORef) (nz : CPBaaSNotarization) (env : Env)
      (pending : list UnspentEntry) :
  let g := growForks (singleFork r nz) (collectPending env pending) in
  forall e, In e (g_vtx g) -> childless (g_refs g) (fst e) = true.
Proof.
intros g e Hin.
assert (Hsh : growthShape (mkGrowth [(r, nz)] [[0%nat]] (collectPending env pending) true))
  by (split; simpl; [repeat constructor | apply collectPending_sorted]).
assert (Hinv : tipsOrDone (mkGrowth [(r, nz)] [[0%nat]] (collectPending env pending) true)).
{ intros j Hj. simpl in Hj. left. exists [0%nat]. split; [left; reflexivity |].
  simpl. lia. }
pose proof (growLoop_settles (S (length (collectPending env pending))) _ Hsh Hinv
              (or_introl eq_refl)) as Hend.
change (growthShape g /\ tipsOrDone g /\ (somethingAdded g = true \/ quietTips g)) in Hend.
destruct Hend as (_ & Hdone & Hq).
pose proof (growForks_stops r nz env pending) as Hstop.
change (somethingAdded g && negb (length (g_refs g) =? 0)%nat = false) in Hstop.
destruct (In_nth _ _ defaultEntry Hin) as (j & Hj & <-).
destruct (length (g_refs g) =? 0)%nat eqn:Hlen.
- apply Nat.eqb_eq in Hlen. destruct (g_refs g); [reflexivity | discriminate].
- rewrite andb_true_r in Hstop.
  destruct Hq as [Hadd | Hq]; [rewrite Hadd in Hstop; discriminate |].
  destruct (Hdone j Hj) as [(f & Hf & Hlast) | Hch]; [| exact Hch].
  rewrite <- Hlast. apply Hq. exact Hf.
Qed.
End ClosureFacts.
(* ================================================================== *)
(** * Shape of every successful query *)
(* ================================================================== *)

Section PendingFacts.
Variable env : Env.

(** A pending entry that resolves yields a valid record, keyed by the
    notarization it names as its predecessor. *)
Lemma resolvePending_sound (it : UnspentEntry) (k : CUTXORef) (e : Entry) :
  resolvePending env it = Some (k, e) ->
  valid (snd e) = true /\ k = prevNotarization (snd e).
Proof.
unfold resolvePending.
destruct (IsPayToCryptoCondition (script (snd it))) as [p |]; [| discriminate].
destruct (cc_valid p && isFinalizeEval (evalCode p) && negb (length (vData p) =? 0)%nat);
  [| discriminate].
cbv zeta.
destruct (fin_valid (asFinalization (nth 0 (vData p) VRaw))); [| discriminate].
destruct (myGetTransaction env _) as [[nTx blk] |]; [| discriminate].
destruct (sizeGt (vout nTx) _); [| discriminate].
destruct (IsPayToCryptoCondition _) as [p2 |]; [| discriminate].
destruct (cc_valid p2 && isNotarizationEval (evalCode p2)
          && negb (length (vData p2) =? 0)%nat); [| discriminate].
destruct (valid (asNotarization (nth 0 (vData p2) VRaw))) eqn:Hv; simpl; [| discriminate].
destruct (negb (IsNull blk) && inActiveChain env blk); [| discriminate].
intros E. injection E as <- <-. simpl. split; [exact Hv | reflexivity].
Qed.

Lemma resolvedPending_length (l : list UnspentEntry) :
  (length (resolvedPending env l) <= length l)%nat.
Proof.
unfold resolvedPending. induction l as [| it l IH]; simpl; [lia |].
rewrite length_app. destruct (resolvePending env it); simpl; lia.
Qed.

Lemma resolvedPending_In (l : list UnspentEntry) (e : Entry) :
  In e (resolvedPending env l) <->
  exists it k, In it l /\ resolvePending env it = Some (k, e).
Proof.
unfold resolvedPending. rewrite in_flat_map. split.
- intros (it & Hin & He). exists it.
  destruct (resolvePending env it) as [[k e'] |]; [| contradiction].
  destruct He as [<- | []]. exists k. split; [exact Hin | reflexivity].
- intros (it & k & Hin & E). exists it. split; [exact Hin |]. rewrite E. left. reflexivity.
Qed.

(** The multimap holds the resolved records, each once. *)
Lemma collectPending_resolved (l : list UnspentEntry) :
  Permutation (map snd (collectPending env l)) (resolvedPending env l).
Proof.
unfold collectPending, resolvedPending.
assert (G : forall acc : References,
          Permutation
            (map snd (fold_left
                        (fun refs it =>
                           match resolvePending env it with
                           | Some (k, v) => mm_insert ref_ltb k v refs
                           | None => refs
                           end) l acc))
            (map snd acc
               ++ flat_map (fun it => match resolvePending env it with
                                      | Some kv => [snd kv]
                                      | None => []
                                      end) l)).
{ induction l as [| it l IH]; intros acc; simpl.
  - rewrite app_nil_r. apply Permutation_refl.
  - eapply Permutation_trans; [apply IH |].
    destruct (resolvePending env it) as [[k v] |]; simpl; [| apply Permutation_refl].
    apply Permutation_trans with ((v :: map snd acc)
      ++ flat_map (fun it => match resolvePending env it with
                             | Some kv => [snd kv]
                             | None => []
                             end) l).
    + apply Permutation_app_tail.
      exact (Permutation_map snd (mm_insert_perm k v acc)).
    + simpl. apply Permutation_middle. }
exact (G []).
Qed.
End PendingFacts.

Section QueryShape.
Context {P : Type} `{ChainPowerOps P}.

(** The loop keeps the index it was given or moves to the number of a fork
    it visited; no law of the power order is needed for that. *)
Lemma selectLoop_range (cur : uint160) (v : list Entry) (fs : list (list nat)) :
  forall (i : nat) (best : P) (chosen : Z),
    selectLoop cur v fs i best chosen = chosen
    \/ Z.of_nat i <= selectLoop cur v fs i best chosen < Z.of_nat (i + length fs).
Proof.
induction fs as [| f fs IH]; intros i best chosen; simpl; [left; reflexivity |].
destruct (tipPower cur v f i) as [p |].
- destruct (power_gt p best).
  + right. destruct (IH (S i) p (Z.of_nat i)) as [E | E]; [rewrite E |]; lia.
  + destruct (IH (S i) best chosen) as [E | E]; [left; exact E | right; lia].
- destruct (IH (S i) best chosen) as [E | E]; [left; exact E | right; lia].
Qed.

(** What the seed step hands over when it does not fail. *)
Lemma seedStep_cases (env : Env) (cur : uint160) (wantTx : bool)
      (nd : CChainNotarizationData) :
  seedStep env cur wantTx = SeedReturn nd \/ seedStep env cur wantTx = SeedNext nd ->
  exists r nz,
    nd = singleFork r nz
    /\ (localGuard env cur = false -> valid nz = true)
    /\ (seedStep env cur wantTx = SeedReturn nd ->
        localGuard env cur = true \/ IsToken (GetCachedCurrency env cur) = true).
Proof.
unfold seedStep.
destruct (def_valid (GetCachedCurrency env cur));
  [change (negb true) with false | intros [E | E]; discriminate].
cbv beta iota zeta.
destruct (localGuard env cur).
- intros [E | E]; [| discriminate]. injection E as <-.
  eexists; eexists. split; [reflexivity |]. split; [discriminate | left; reflexivity].
- destruct (GetAddressUnspent env (confirmedNotarizationKey env cur))
    as [[| first rest] |]; try (intros [E | E]; discriminate).
  destruct (seedFromEntry env (GetCachedCurrency env cur) wantTx emptyData
              (latestConfirmed first (first :: rest))) as [| nd' | nd'] eqn:Hseed.
  + intros [E | E]; discriminate.
  + intros [E | E]; [| discriminate]. injection E as <-.
    destruct (seedFromEntry_sound env wantTx _ _ nd' (or_introl Hseed))
      as (legacy & r & nz & Hres & ->).
    destruct (seedFromEntry_resolves env wantTx (GetCachedCurrency env cur) _ _ _ _ Hres)
      as [Hrun Hv].
    exists r, nz. split; [reflexivity |]. split; [intros _; exact Hv |].
    intros _. right.
    destruct (IsToken (GetCachedCurrency env cur)); [reflexivity |].
    rewrite andb_false_r in Hrun.
    discriminate (eq_trans (eq_sym Hseed) Hrun).
  + destruct (length (vtx nd') =? 0)%nat eqn:Hlen; intros [E | E]; try discriminate.
    injection E as <-. apply length_zero_nil in Hlen.
    destruct (seedFromEntry_sound env wantTx _ _ nd' (or_intror (conj Hseed Hlen)))
      as (legacy & r & nz & Hres & ->).
    destruct (seedFromEntry_resolves env wantTx (GetCachedCurrency env cur) _ _ _ _ Hres)
      as [_ Hv].
    exists r, nz. split; [reflexivity |]. split; [intros _; exact Hv | discriminate].
Qed.

(** A successful query returns the seed alone or the expansion of the seed
    over a pending index that is not empty. *)
Lemma query_cases (env : Env) (cur : uint160) (wantTx : bool)
      (nd : CChainNotarizationData) :
  GetNotarizationData env cur wantTx = Some nd ->
  exists r nz,
    (localGuard env cur = false -> valid nz = true)
    /\ (nd = singleFork r nz
        /\ (pendingIndex env cur = []
            \/ localGuard env cur = true
            \/ IsToken (GetCachedCurrency env cur) = true)
        \/ pendingIndex env cur <> []
           /\ nd = resolvePendingForks env cur (singleFork r nz) (pendingIndex env cur)).
Proof.
unfold GetNotarizationData, pendingIndex.
destruct (seedStep env cur wantTx) as [| nd0 | nd0] eqn:Hseed; [discriminate | |].
- intros E; injection E as <-.
  destruct (seedStep_cases env cur wantTx nd0 (or_introl Hseed)) as (r & nz & -> & Hv & Hret).
  exists r, nz. split; [exact Hv |]. left. split; [reflexivity |]. right.
  exact (Hret Hseed).
- intros E.
  destruct (seedStep_cases env cur wantTx nd0 (or_intror Hseed)) as (r & nz & -> & Hv & _).
  exists r, nz. split; [exact Hv |].
  destruct (GetAddressUnspent env (pendingNotarizationKey env cur)) as [[| p1 ps] |].
  + simpl in E. injection E as <-. left. split; [reflexivity | left; reflexivity].
  + destruct (length (vtx (resolvePendingForks env cur (singleFork r nz) (p1 :: ps))) =? 0)%nat;
      [discriminate |].
    injection E as <-. right. split; [discriminate | reflexivity].
  + simpl in E. injection E as <-. left. split; [reflexivity | left; reflexivity].
Qed.

(** What the expansion of a seed holds, gathered for the theorems below. *)
Lemma expansion_facts (env : Env) (cur : uint160) (r : CUTXORef) (nz : CPBaaSNotarization)
      (pending : list UnspentEntry) :
  let nd := resolvePendingForks env cur (singleFork r nz) pending in
  lastConfirmed nd = 0
  /\ (exists extra leftover,
         vtx nd = (r, nz) :: extra
         /\ Permutation (extra ++ leftover) (resolvedPending env pending)
         /\ (forall e e', In e leftover -> In e' (vtx nd) ->
               fst e' <> prevNotarization (snd e)))
  /\ forks nd <> []
  /\ Forall (linkedFork (vtx nd)) (forks nd)
  /\ (length (forks nd) <= length (vtx nd))%nat
  /\ bestChain nd = selectBestChain cur (vtx nd) (forks nd).
Proof.
intros nd. subst nd. unfold resolvePendingForks.
cbn [lastConfirmed vtx forks bestChain singleFork].
set (refs0 := collectPending env pending).
set (g := growForks (singleFork r nz) refs0).
destruct (growForks_paths r nz env pending) as [_ Hk Hf Hcnt Hcont].
fold refs0 in Hk, Hf, Hcnt, Hcont. fold g in Hk, Hf, Hcnt, Hcont.
destruct (growForks_keepsSeed (singleFork r nz) refs0 ltac:(discriminate)
            ltac:(repeat constructor)) as ((extra & Hv) & Hne & _).
fold g in Hv, Hne. simpl in Hv.
split; [reflexivity |]. split; [| repeat split; assumption].
exists extra, (map snd (g_refs g)). split; [exact Hv |]. split.
- rewrite Hv in Hcont. simpl in Hcont. apply Permutation_cons_inv in Hcont.
  eapply Permutation_trans; [exact Hcont |]. apply collectPending_resolved.
- intros e e' He He' Heq. apply in_map_iff in He as (kv & <- & Hkv).
  pose proof (growForks_settled r nz env pending e' He') as Hch.
  unfold keyedByParent in Hk. rewrite Forall_forall in Hk.
  assert (Ekey : fst e' = fst kv) by exact (eq_trans Heq (eq_sym (Hk kv Hkv))).
  rewrite Ekey in Hch.
  pose proof (childless_has_child _ kv Hkv) as Hno.
  exact (eq_true_false_abs _ Hch Hno).
Qed.

(** X1.  Every index a successful query returns is in range:
    [lastConfirmed] points at an entry, [bestChain] at a fork, no fork is
    empty, every fork index points at an entry, and so does the last index
    of the fork designated as best.  The callers' unchecked accesses
    [vtx[lastConfirmed]] and [vtx[forks[bestChain].back()]] are then in
    bounds. *)
Theorem query_indexes_in_range (env : Env) (cur : uint160) (wantTx : bool)
        (nd : CChainNotarizationData) :
  GetNotarizationData env cur wantTx = Some nd ->
  0 <= lastConfirmed nd < Z.of_nat (length (vtx nd))
  /\ 0 <= bestChain nd < Z.of_nat (length (forks nd))
  /\ Forall (fun f => f <> [] /\ Forall (fun i => (i < length (vtx nd))%nat) f) (forks nd)
  /\ (last (nth (Z.to_nat (bestChain nd)) (forks nd) []) 0 < length (vtx nd))%nat.
Proof.
intros Hq.
assert (Hall : lastConfirmed nd = 0 /\ vtx nd <> [] /\ forks nd <> []
               /\ Forall (linkedFork (vtx nd)) (forks nd)
               /\ bestChain nd = selectBestChain cur (vtx nd) (forks nd)).
{ destruct (query_cases env cur wantTx nd Hq) as (r & nz & _ & [[-> _] | [_ ->]]).
  - cbn [lastConfirmed vtx forks bestChain singleFork].
    split; [reflexivity |]. split; [discriminate |]. split; [discriminate |]. split.
    + repeat constructor. exists []. split; [reflexivity | constructor; simpl; lia].
    + symmetry. apply selectBestChain_single.
  - destruct (expansion_facts env cur r nz (pendingIndex env cur))
      as (H0 & (extra & leftover & Hv & _ & _) & Hne & Hf & _ & Hb).
    split; [exact H0 |]. split; [rewrite Hv; discriminate |].
    split; [exact Hne |]. split; [exact Hf | exact Hb]. }
destruct Hall as (H0 & Hv & Hne & Hf & Hb).
assert (Hbest : 0 <= bestChain nd < Z.of_nat (length (forks nd))).
{ rewrite Hb. unfold selectBestChain.
  destruct (selectLoop_range cur (vtx nd) (forks nd) 0 defaultPower 0) as [E | E].
  - rewrite E. destruct (forks nd); [contradiction | simpl; lia].
  - simpl in E. exact E. }
split; [rewrite H0; destruct (vtx nd); [contradiction | simpl; lia] |].
split; [exact Hbest |]. split.
- eapply Forall_impl; [| exact Hf]. intros f Hl.
  destruct (linkedFork_bounds _ _ Hl) as (H1 & _ & _ & H4). split; assumption.
- rewrite Forall_forall in Hf.
  apply (linkedFork_bounds (vtx nd)). apply Hf. apply nth_In. lia.
Qed.

(** X2.  Every fork a successful query returns is a path through the
    entries that starts at entry 0, the confirmed seed, goes through
    strictly increasing entry numbers, and in which every entry names the
    output of the entry before it as its previous notarization. *)
Theorem query_forks_are_linked_paths (env : Env) (cur : uint160) (wantTx : bool)
        (nd : CChainNotarizationData) :
  GetNotarizationData env cur wantTx = Some nd ->
  Forall (linkedFork (vtx nd)) (forks nd).
Proof.
intros Hq.
destruct (query_cases env cur wantTx nd Hq) as (r & nz & _ & [[-> _] | [_ ->]]).
- simpl. repeat constructor. exists []. split; [reflexivity | constructor; simpl; lia].
- apply (expansion_facts env cur r nz (pendingIndex env cur)).
Qed.

(** X3.  The entries after the first come from the pending index: they
    are, counted with multiplicity, among the records the pending index
    entries resolve to, so that no pending finalization is placed twice and
    nothing is placed that the index does not hold.  There are never more
    forks than entries, nor more entries than pending index entries plus
    the seed. *)
Theorem query_records_from_pending_index (env : Env) (cur : uint160) (wantTx : bool)
        (nd : CChainNotarizationData) :
  GetNotarizationData env cur wantTx = Some nd ->
  (exists unplaced,
      Permutation (tl (vtx nd) ++ unplaced) (resolvedPending env (pendingIndex env cur)))
  /\ (length (forks nd) <= length (vtx nd) <= S (length (pendingIndex env cur)))%nat.
Proof.
intros Hq.
destruct (query_cases env cur wantTx nd Hq) as (r & nz & _ & [[-> _] | [_ ->]]).
- split; [exists (resolvedPending env (pendingIndex env cur)); apply Permutation_refl |].
  simpl. lia.
- destruct (expansion_facts env cur r nz (pendingIndex env cur))
    as (_ & (extra & leftover & Hv & Hperm & _) & _ & _ & Hcnt & _).
  split.
  + exists leftover. rewrite Hv. exact Hperm.
  + split; [exact Hcnt |]. rewrite Hv. simpl. apply le_n_S.
    pose proof (Permutation_length Hperm) as Hlen. rewrite length_app in Hlen.
    pose proof (resolvedPending_length env (pendingIndex env cur)) as Hres.
    unfold Entry in *. lia.
Qed.

(** X4.  For a currency that is not answered locally, every record of a
    successful query is a valid notarization: the seed is checked before it
    is stored and so is every pending record before it is collected. *)
Theorem query_records_valid (env : Env) (cur : uint160) (wantTx : bool)
        (nd : CChainNotarizationData) :
  localGuard env cur = false ->
  GetNotarizationData env cur wantTx = Some nd ->
  Forall (fun e : Entry => valid (snd e) = true) (vtx nd).
Proof.
intros Hloc Hq.
destruct (query_cases env cur wantTx nd Hq) as (r & nz & Hv & [[-> _] | [_ ->]]).
- simpl. constructor; [exact (Hv Hloc) | constructor].
- destruct (expansion_facts env cur r nz (pendingIndex env cur))
    as (_ & (extra & leftover & E & Hperm & _) & _).
  rewrite E. constructor; [exact (Hv Hloc) |].
  apply Forall_forall. intros e He.
  assert (Hin : In e (resolvedPending env (pendingIndex env cur))).
  { apply (Permutation_in e Hperm). apply in_or_app. left. exact He. }
  apply resolvedPending_In in Hin as (it & k & _ & Hres).
  apply (resolvePending_sound env it k e Hres).
Qed.

(** X5.  The expansion is complete.  When the query goes on to the pending
    index (the currency is neither answered locally nor a token), every
    pending record that resolves and names the output of a returned entry
    as its previous notarization is itself among the returned entries. *)
Theorem query_places_every_extension (env : Env) (cur : uint160) (wantTx : bool)
        (nd : CChainNotarizationData) (it : UnspentEntry) (k : CUTXORef) (e : Entry) :
  localGuard env cur = false ->
  IsToken (GetCachedCurrency env cur) = false ->
  GetNotarizationData env cur wantTx = Some nd ->
  In it (pendingIndex env cur) ->
  resolvePending env it = Some (k, e) ->
  (exists e', In e' (vtx nd) /\ fst e' = prevNotarization (snd e)) ->
  In e (vtx nd).
Proof.
intros Hloc Htok Hq Hit Hres (e' & He' & Hlink).
assert (Hin : In e (resolvedPending env (pendingIndex env cur)))
  by (apply resolvedPending_In; exists it, k; split; assumption).
destruct (query_cases env cur wantTx nd Hq) as (r & nz & _ & [[_ Hwhy] | [_ ->]]).
- destruct Hwhy as [Hnil | [Hl | Ht]].
  + rewrite Hnil in Hit. contradiction.
  + rewrite Hloc in Hl. discriminate.
  + rewrite Htok in Ht. discriminate.
- destruct (expansion_facts env cur r nz (pendingIndex env cur))
    as (_ & (extra & leftover & E & Hperm & Hsettled) & _).
  apply (Permutation_in e (Permutation_sym Hperm)) in Hin.
  apply in_app_or in Hin as [Hin | Hin].
  + rewrite E. right. exact Hin.
  + exfalso. exact (Hsettled e e' Hin He' Hlink).
Qed.
End QueryShape.

Lemma query_indexes_in_range_witness :
  0 <= lastConfirmed Samples.resultA < Z.of_nat (length (vtx Samples.resultA))
  /\ 0 <= bestChain Samples.resultA < Z.of_nat (length (forks Samples.resultA))
  /\ Forall (fun f => f <> []
                      /\ Forall (fun i => (i < length (vtx Samples.resultA))%nat) f)
            (forks Samples.resultA)
  /\ (last (nth (Z.to_nat (bestChain Samples.resultA)) (forks Samples.resultA) []) 0
      < length (vtx Samples.resultA))%nat.
Proof.
exact (query_indexes_in_range Samples.chainA 7 false Samples.resultA eq_refl).
Defined.

Lemma query_forks_are_linked_paths_witness :
  Forall (linkedFork (vtx Samples.resultA)) (forks Samples.resultA).
Proof.
exact (query_forks_are_linked_paths Samples.chainA 7 false Samples.resultA eq_refl).
Defined.

Lemma query_records_from_pending_index_witness :
  (exists unplaced,
      Permutation (tl (vtx Samples.resultA) ++ unplaced)
                  (resolvedPending Samples.chainA (pendingIndex Samples.chainA 7)))
  /\ (length (forks Samples.resultA) <= length (vtx Samples.resultA)
      <= S (length (pendingIndex Samples.chainA 7%Z)))%nat.
Proof.
exact (query_records_from_pending_index Samples.chainA 7 false Samples.resultA eq_refl).
Defined.

Lemma query_records_valid_witness :
  Forall (fun e : Entry => valid (snd e) = true) (vtx Samples.resultA).
Proof.
exact (query_records_valid Samples.chainA 7 false Samples.resultA eq_refl eq_refl).
Defined.

Lemma query_places_every_extension_witness :
  In (Samples.P3, Samples.notz Samples.P1 (Some 9)) (vtx Samples.resultA).
Proof.
apply (query_places_every_extension Samples.chainA 7 false Samples.resultA
         (Samples.finEntry 203 Samples.P3 12) Samples.P1
         (Samples.P3, Samples.notz Samples.P1 (Some 9)) eq_refl eq_refl eq_refl).
- right. right. left. reflexivity.
- reflexivity.
- exists (Samples.P1, Samples.notz Samples.R (Some 9)). split; [| reflexivity].
  vm_compute. right. left. reflexivity.
Defined.
(* ================================================================== *)
(** * What the transfer scans return *)
(* ================================================================== *)

Section ScanResults.
Variable env : Env.

Lemma mm_insert_perm_any {K V : Type} (ltb : K -> K -> bool) (k : K) (v : V)
      (m : list (K * V)) :
  Permutation (mm_insert ltb k v m) ((k, v) :: m).
Proof.
induction m as [| x m IH]; simpl; [apply Permutation_refl |].
destruct (ltb k (fst x)); [apply Permutation_refl |].
apply Permutation_trans with (x :: (k, v) :: m); [constructor; exact IH | apply perm_swap].
Qed.

(** The test of the unspent scan lets through valid transfers to a
    destination that is not null and that the filter accepts. *)
Lemma unspentTransferOf_sound (nofilter : bool) (chainFilter : uint160) (out : CTxOut)
      (destCID : uint160) (rt : CReserveTransfer) :
  unspentTransferOf env nofilter chainFilter out = Some (destCID, rt) ->
  rt_valid rt = true /\ destCID = transferDest env rt /\ IsNull destCID = false
  /\ (nofilter = false -> destCID = chainFilter).
Proof.
unfold unspentTransferOf.
destruct (IsPayToCryptoCondition (scriptPubKey out)) as [p |]; [| discriminate].
destruct (isTransferEval (evalCode p) && negb (length (vData p) =? 0)%nat
          && (VERSION_V3 env <=? version p) && asMasterValid (last (vData p) VRaw));
  [| discriminate].
cbv zeta.
destruct (rt_valid (asTransfer (nth 0 (vData p) VRaw))) eqn:Hv; [| discriminate].
destruct (IsNull (transferDest env (asTransfer (nth 0 (vData p) VRaw)))) eqn:Hn;
  [discriminate |].
destruct nofilter; simpl.
- intros E; injection E as <- <-. repeat split; try assumption. discriminate.
- destruct (Z.eqb_spec (transferDest env (asTransfer (nth 0 (vData p) VRaw))) chainFilter)
    as [Heq | _]; [| discriminate].
  intros E; injection E as <- <-. repeat split; try assumption. intros _; exact Heq.
Qed.

(** The test of the ranged scan. *)
Lemma rangeTransferOf_sound (nofilter : bool) (chainFilter : uint160) (flags : Z)
      (out : CTxOut) (rt : CReserveTransfer) :
  rangeTransferOf env nofilter chainFilter flags out = Some rt ->
  rt_valid rt = true /\ Z.land (rt_flags rt) flags = flags
  /\ (nofilter = false -> transferDest env rt = chainFilter).
Proof.
unfold rangeTransferOf.
destruct (IsPayToCryptoCondition (scriptPubKey out)) as [p |]; [| discriminate].
destruct (isTransferEval (evalCode p) && (1 <? length (vData p))%nat); [| discriminate].
cbv zeta.
destruct (rt_valid (asTransfer (nth 0 (vData p) VRaw))) eqn:Hv; [| discriminate].
destruct (asMasterValid (nth 1 (vData p) VRaw)); [| discriminate].
destruct (Z.eqb_spec (Z.land (rt_flags (asTransfer (nth 0 (vData p) VRaw))) flags) flags)
  as [Hf | _]; [| rewrite andb_false_r; discriminate].
destruct nofilter; simpl.
- intros E; injection E as <-. repeat split; try assumption. discriminate.
- destruct (Z.eqb_spec (transferDest env (asTransfer (nth 0 (vData p) VRaw))) chainFilter)
    as [Heq | _]; [| discriminate].
  intros E; injection E as <-. repeat split; try assumption. intros _; exact Heq.
Qed.

Lemma unspentAdded_more (chainFilter : uint160) (it : UnspentEntry) (l : list UnspentEntry)
      (kv : uint160 * ChainTransferData) :
  unspentAdded env chainFilter l kv -> unspentAdded env chainFilter (it :: l) kv.
Proof.
intros (H1 & H2 & H3 & H4 & it' & coins & Hin & H5).
repeat split; try assumption. exists it', coins. split; [right; exact Hin | exact H5].
Qed.

(** The loop of the unspent scan: what it adds and what it reports. *)
Lemma unspentLoop_result (chainFilter : uint160) (l : list UnspentEntry) :
  forall (ins : UnspentTransfers) (log : list Diagnostic),
    exists added,
      Permutation (fst (unspentTransfersLoop env (IsNull chainFilter) chainFilter l ins log))
                  (added ++ ins)
      /\ Forall (unspentAdded env chainFilter l) added
      /\ (length added <= length l)%nat
      /\ snd (unspentTransfersLoop env (IsNull chainFilter) chainFilter l ins log)
         = log ++ map (fun it => mkDiag Console (txhash (fst it)))
                      (filter (fun it => match GetCoins env (txhash (fst it)) with
                                         | Some _ => false
                                         | None => true
                                         end) l).
Proof.
induction l as [| it l IH]; intros ins log.
- exists []. simpl. rewrite app_nil_r.
  split; [apply Permutation_refl | split; [constructor | split; [lia | reflexivity]]].
- simpl. destruct (GetCoins env (txhash (fst it))) as [coins |] eqn:Hc.
  + destruct (IsAvailable coins (index (fst it))) eqn:Hav.
    * destruct (unspentTransferOf env (IsNull chainFilter) chainFilter
                  (voutAt (coins_vout coins) (index (fst it)))) as [[destCID rt] |] eqn:Ht.
      -- destruct (IH (mm_insert Z.ltb destCID
                         (nHeight coins,
                          mkInput (scriptPubKey (voutAt (coins_vout coins) (index (fst it))))
                                  (nValue (voutAt (coins_vout coins) (index (fst it))))
                                  (mkRef (txhash (fst it)) (index (fst it))),
                          rt) ins) log) as (added & Hp & Hall & Hlen & Hlog).
         exists (added ++ [(destCID,
                            (nHeight coins,
                             mkInput (scriptPubKey (voutAt (coins_vout coins) (index (fst it))))
                                     (nValue (voutAt (coins_vout coins) (index (fst it))))
                                     (mkRef (txhash (fst it)) (index (fst it))),
                             rt))]).
         split; [| split; [| split]].
         ++ eapply Permutation_trans; [exact Hp |].
            rewrite <- app_assoc. apply Permutation_app_head. simpl.
            apply mm_insert_perm_any.
         ++ apply Forall_app. split.
            ** eapply Forall_impl; [| exact Hall]. intros kv. apply unspentAdded_more.
            ** constructor; [| constructor].
               destruct (unspentTransferOf_sound _ _ _ _ _ Ht) as (H1 & H2 & H3 & H4).
               repeat split; try assumption.
               exists it, coins. repeat split; try assumption. left. reflexivity.
         ++ rewrite length_app. simpl. lia.
         ++ exact Hlog.
      -- destruct (IH ins log) as (added & Hp & Hall & Hlen & Hlog).
         exists added. split; [exact Hp |]. split; [| split; [lia | exact Hlog]].
         eapply Forall_impl; [| exact Hall]. intros kv. apply unspentAdded_more.
    * destruct (IH ins log) as (added & Hp & Hall & Hlen & Hlog).
      exists added. split; [exact Hp |]. split; [| split; [lia | exact Hlog]].
      eapply Forall_impl; [| exact Hall]. intros kv. apply unspentAdded_more.
  + destruct (IH ins (log ++ [mkDiag Console (txhash (fst it))]))
      as (added & Hp & Hall & Hlen & Hlog).
    exists added. split; [exact Hp |]. split; [| split; [lia |]].
    * eapply Forall_impl; [| exact Hall]. intros kv. apply unspentAdded_more.
    * rewrite Hlog, <- app_assoc. reflexivity.
Qed.

Lemma rangeAdded_more (chainFilter : uint160) (flags : Z) (it : CAddressIndexKey * Z)
      (l : list (CAddressIndexKey * Z))
      (kv : uint160 * (CInputDescriptor * CReserveTransfer)) :
  rangeAdded env chainFilter flags l kv -> rangeAdded env chainFilter flags (it :: l) kv.
Proof.
intros (H1 & H2 & H3 & H4 & it' & Hin & H5).
repeat split; try assumption. exists it'. split; [right; exact Hin | exact H5].
Qed.

(** The loop of the ranged scan: what it adds, whether it fails or not, and
    when it fails. *)
Lemma rangeLoop_result (chainFilter : uint160) (flags : Z)
      (l : list (CAddressIndexKey * Z)) :
  forall (ins : RangeTransfers) (log : list Diagnostic),
    let res := chainTransfersLoop env (IsNull chainFilter) chainFilter
                                  (effectiveFlags env flags) l ins log in
    (exists added,
        Permutation (snd (fst res)) (added ++ ins)
        /\ Forall (rangeAdded env chainFilter flags l) added)
    /\ fst (fst res) = forallb (rangeEntryReadable env) l.
Proof.
induction l as [| it l IH]; intros ins log; cbv zeta.
- simpl. split; [| reflexivity]. exists []. split; [apply Permutation_refl | constructor].
- simpl. unfold rangeEntryReadable at 1.
  destruct (spending (fst it)) eqn:Hsp; simpl.
  + destruct (IH ins log) as ((added & Hp & Hall) & Hok). split; [| exact Hok].
    exists added. split; [exact Hp |].
    eapply Forall_impl; [| exact Hall]. intros kv. apply rangeAdded_more.
  + destruct (myGetTransaction env (ik_txhash (fst it))) as [[ntx blk] |] eqn:Htx.
    * destruct (rangeTransferOf env (IsNull chainFilter) chainFilter
                  (effectiveFlags env flags) (voutAt (vout ntx) (ik_index (fst it))))
        as [rt |] eqn:Ht.
      -- destruct (IH (mm_insert Z.ltb (transferDest env rt)
                         (mkInput (scriptPubKey (voutAt (vout ntx) (ik_index (fst it))))
                                  (nValue (voutAt (vout ntx) (ik_index (fst it))))
                                  (mkRef (ik_txhash (fst it)) (ik_index (fst it))), rt)
                         ins) log) as ((added & Hp & Hall) & Hok).
         split; [| exact Hok].
         exists (added ++ [(transferDest env rt,
                            (mkInput (scriptPubKey (voutAt (vout ntx) (ik_index (fst it))))
                                     (nValue (voutAt (vout ntx) (ik_index (fst it))))
                                     (mkRef (ik_txhash (fst it)) (ik_index (fst it))), rt))]).
         split.
         ++ eapply Permutation_trans; [exact Hp |].
            rewrite <- app_assoc. apply Permutation_app_head. simpl.
            apply mm_insert_perm_any.
         ++ apply Forall_app. split.
            ** eapply Forall_impl; [| exact Hall]. intros kv. apply rangeAdded_more.
            ** constructor; [| constructor].
               destruct (rangeTransferOf_sound _ _ _ _ _ Ht) as (H1 & H2 & H3).
               repeat split; try assumption.
               exists it. repeat split; try assumption; [left; reflexivity |].
               rewrite Htx. discriminate.
      -- destruct (IH ins log) as ((added & Hp & Hall) & Hok). split; [| exact Hok].
         exists added. split; [exact Hp |].
         eapply Forall_impl; [| exact Hall]. intros kv. apply rangeAdded_more.
    * simpl. split; [| reflexivity].
      exists []. split; [apply Permutation_refl | constructor].
Qed.

(** Started on an empty multimap, the unspent scan returns checked
    entries only. *)
Lemma unspent_scan_entries (chainFilter : uint160) :
  Forall (unspentAdded env chainFilter
            (match GetAddressUnspent env (ReserveTransferKey env) with
             | Some l => l
             | None => []
             end))
         (snd (fst (GetUnspentChainTransfers env [] chainFilter))).
Proof.
unfold GetUnspentChainTransfers.
destruct (GetAddressUnspent env (ReserveTransferKey env)) as [l |]; [| constructor].
destruct (unspentLoop_result chainFilter l [] []) as (added & Hp & Hall & _).
destruct (unspentTransfersLoop env (IsNull chainFilter) chainFilter l [] [])
  as [outs log].
cbn [fst snd] in *. rewrite app_nil_r in Hp.
apply Forall_forall. intros kv Hin. rewrite Forall_forall in Hall.
apply Hall. apply (Permutation_in kv Hp). exact Hin.
Qed.

(** X6.  [GetUnspentChainTransfers] only adds to the multimap it is given:
    the entries present before the call are all still there, and every
    entry added holds a valid transfer, is keyed by the transfer's
    destination, which is never null, matches the filter when one is
    given, and stands for an output of the index whose coins were found and
    which is still available.  When the index lookup fails nothing is
    added. *)
Theorem unspent_scan_adds_checked_entries (ins : UnspentTransfers) (chainFilter : uint160) :
  let res := GetUnspentChainTransfers env ins chainFilter in
  let unspentOutputs := match GetAddressUnspent env (ReserveTransferKey env) with
                        | Some l => l
                        | None => []
                        end in
  exists added,
    Permutation (snd (fst res)) (added ++ ins)
    /\ Forall (unspentAdded env chainFilter unspentOutputs) added
    /\ (length added <= length unspentOutputs)%nat
    /\ (fst (fst res) = false -> added = []).
Proof.
cbv zeta. unfold GetUnspentChainTransfers.
destruct (GetAddressUnspent env (ReserveTransferKey env)) as [l |].
- destruct (unspentLoop_result chainFilter l ins []) as (added & Hp & Hall & Hlen & _).
  destruct (unspentTransfersLoop env (IsNull chainFilter) chainFilter l ins [])
    as [outs log].
  exists added. simpl in *. repeat split; try assumption. discriminate.
- exists []. simpl. repeat split; [apply Permutation_refl | constructor | lia].
Qed.

(** X7.  [GetUnspentChainTransfers] writes one console message for every
    index entry whose coins cannot be retrieved, in index order, and
    nothing else. *)
Theorem unspent_scan_reports_each_missing (ins : UnspentTransfers) (chainFilter : uint160)
        (l : list UnspentEntry) :
  GetAddressUnspent env (ReserveTransferKey env) = Some l ->
  snd (GetUnspentChainTransfers env ins chainFilter)
  = map (fun it => mkDiag Console (txhash (fst it)))
        (filter (fun it => match GetCoins env (txhash (fst it)) with
                           | Some _ => false
                           | None => true
                           end) l).
Proof.
intros Hl. unfold GetUnspentChainTransfers. rewrite Hl.
destruct (unspentLoop_result chainFilter l ins []) as (_ & _ & _ & _ & Hlog).
destruct (unspentTransfersLoop env (IsNull chainFilter) chainFilter l ins [])
  as [outs log].
exact Hlog.
Qed.

(** X8.  [GetChainTransfers] only adds to the multimap it is given, also
    when it fails part of the way: the entries present before the call are
    all still there, and every entry added holds a valid transfer that
    carries all the flags asked for ([VALID] when none are asked), is keyed
    by the transfer's destination, matches the filter when one is given,
    and stands for an index entry that is not marked as spending and whose
    transaction was retrieved. *)
Theorem range_scan_adds_checked_entries (ins : RangeTransfers) (chainFilter : uint160)
        (start end_ flags : Z) :
  let res := GetChainTransfers env ins chainFilter start end_ flags in
  let addressIndex := match GetAddressIndex env (ReserveTransferKey env) start end_ with
                      | Some l => l
                      | None => []
                      end in
  exists added,
    Permutation (snd (fst res)) (added ++ ins)
    /\ Forall (rangeAdded env chainFilter flags addressIndex) added.
Proof.
cbv zeta. unfold GetChainTransfers.
fold (effectiveFlags env flags).
destruct (GetAddressIndex env (ReserveTransferKey env) start end_) as [l |].
- exact (proj1 (rangeLoop_result chainFilter flags l ins [])).
- exists []. simpl. split; [apply Permutation_refl | constructor].
Qed.

(** X9.  [GetChainTransfers] succeeds exactly when the index lookup
    succeeds and every index entry it returns is marked as spending or has
    a transaction that can be retrieved; what an output holds never makes
    it fail. *)
Theorem range_scan_succeeds_iff (ins : RangeTransfers) (chainFilter : uint160)
        (start end_ flags : Z) :
  fst (fst (GetChainTransfers env ins chainFilter start end_ flags)) =
  match GetAddressIndex env (ReserveTransferKey env) start end_ with
  | Some l => forallb (rangeEntryReadable env) l
  | None => false
  end.
Proof.
unfold GetChainTransfers. fold (effectiveFlags env flags).
destruct (GetAddressIndex env (ReserveTransferKey env) start end_) as [l |];
  [| reflexivity].
exact (proj2 (rangeLoop_result chainFilter flags l ins [])).
Qed.
End ScanResults.

Lemma unspent_scan_reports_each_missing_witness :
  snd (GetUnspentChainTransfers Samples.chainA [] 0)
  = [mkDiag Console 301].
Proof.
exact (unspent_scan_reports_each_missing Samples.chainA [] 0 Samples.transferUnspent eq_refl).
Defined.
(* ================================================================== *)
(** * The scans return every valid entry *)
(* ================================================================== *)

Section ScanComplete.
Variable env : Env.
Variable chainFilter : uint160.

(** The test of the unspent scan, spelt out. *)
Lemma unspentTransferOf_iff (out : CTxOut) (d : uint160) (rt : CReserveTransfer) :
  unspentTransferOf env (IsNull chainFilter) chainFilter out = Some (d, rt)
  <-> unspentTransferOutput env chainFilter out d rt.
Proof.
unfold unspentTransferOf, unspentTransferOutput. split.
- destruct (IsPayToCryptoCondition (scriptPubKey out)) as [p |]; [| discriminate].
  destruct (isTransferEval (evalCode p)) eqn:He; [| discriminate].
  destruct (length (vData p) =? 0)%nat eqn:Hd; [discriminate |].
  destruct (Z.leb_spec (VERSION_V3 env) (version p)) as [Hver | _]; [| discriminate].
  destruct (asMasterValid (last (vData p) VRaw)) eqn:Hm; [| discriminate].
  cbn [negb andb]. cbv zeta.
  destruct (rt_valid (asTransfer (nth 0 (vData p) VRaw))) eqn:Hv; [| discriminate].
  destruct (IsNull (transferDest env (asTransfer (nth 0 (vData p) VRaw)))) eqn:Hn;
    [discriminate |].
  cbn [negb andb].
  destruct (IsNull chainFilter
            || (transferDest env (asTransfer (nth 0 (vData p) VRaw)) =? chainFilter))
    eqn:Hf; [| discriminate].
  intros E; injection E as <- <-. exists p.
  split; [reflexivity |].
  split; [destruct (evalCode p); try discriminate; reflexivity |].
  split; [intros E; rewrite E in Hd; discriminate |].
  split; [exact Hver |]. split; [exact Hm |]. split; [reflexivity |].
  split; [exact Hv |]. split; [reflexivity |]. split; [exact Hn |].
  apply orb_prop in Hf as [Hf | Hf]; [left; exact Hf | right; apply Z.eqb_eq; exact Hf].
- intros (p & Hp & He & Hd & Hver & Hm & -> & Hv & -> & Hn & Hf).
  rewrite Hp, He. cbn [isTransferEval].
  destruct (vData p) as [| v0 vs] eqn:Evd; [contradiction |].
  cbn [length Nat.eqb negb andb].
  destruct (Z.leb_spec (VERSION_V3 env) (version p)) as [_ | Hlt]; [| lia].
  rewrite Hm. cbn [andb]. cbv zeta. rewrite Hv, Hn. cbn [negb andb].
  destruct Hf as [Hf | Hf].
  + rewrite Hf. reflexivity.
  + apply Z.eqb_eq in Hf. rewrite Hf, orb_true_r. reflexivity.
Qed.

(** The test of the ranged scan, spelt out. *)
Lemma rangeTransferOf_iff (flags : Z) (out : CTxOut) (rt : CReserveTransfer) :
  rangeTransferOf env (IsNull chainFilter) chainFilter (effectiveFlags env flags) out
  = Some rt
  <-> rangeTransferOutput env chainFilter flags out rt.
Proof.
unfold rangeTransferOf, rangeTransferOutput. split.
- destruct (IsPayToCryptoCondition (scriptPubKey out)) as [p |]; [| discriminate].
  destruct (isTransferEval (evalCode p)) eqn:He; [| discriminate].
  destruct (Nat.ltb_spec 1 (length (vData p))) as [Hd | _]; [| discriminate].
  cbn [andb]. cbv zeta.
  destruct (rt_valid (asTransfer (nth 0 (vData p) VRaw))) eqn:Hv; [| discriminate].
  destruct (asMasterValid (nth 1 (vData p) VRaw)) eqn:Hm; [| discriminate].
  cbn [andb].
  destruct (IsNull chainFilter
            || (transferDest env (asTransfer (nth 0 (vData p) VRaw)) =? chainFilter))
    eqn:Hf; [| discriminate].
  cbn [andb].
  destruct (Z.eqb_spec (Z.land (rt_flags (asTransfer (nth 0 (vData p) VRaw)))
                               (effectiveFlags env flags))
                       (effectiveFlags env flags)) as [Hfl | _]; [| discriminate].
  intros E; injection E as <-. exists p.
  split; [reflexivity |].
  split; [destruct (evalCode p); try discriminate; reflexivity |].
  split; [exact Hd |]. split; [reflexivity |]. split; [exact Hv |].
  split; [exact Hm |]. split; [| exact Hfl].
  apply orb_prop in Hf as [Hf | Hf]; [left; exact Hf | right; apply Z.eqb_eq; exact Hf].
- intros (p & Hp & He & Hd & -> & Hv & Hm & Hf & Hfl).
  rewrite Hp, He. cbn [isTransferEval].
  destruct (Nat.ltb_spec 1 (length (vData p))) as [_ | Hle]; [| lia].
  cbn [andb]. cbv zeta. rewrite Hv, Hm. cbn [andb].
  apply Z.eqb_eq in Hfl. rewrite Hfl.
  destruct Hf as [Hf | Hf].
  + rewrite Hf. reflexivity.
  + apply Z.eqb_eq in Hf. rewrite Hf, orb_true_r. reflexivity.
Qed.

(** What an entry of the unspent index stands for, read off the three
    tests of the loop body. *)
Lemma validUnspentTransfer_iff (it : UnspentEntry) (kv : uint160 * ChainTransferData) :
  validUnspentTransfer env chainFilter it kv
  <-> exists coins d rt,
        GetCoins env (txhash (fst it)) = Some coins
        /\ IsAvailable coins (index (fst it)) = true
        /\ unspentTransferOf env (IsNull chainFilter) chainFilter
                             (voutAt (coins_vout coins) (index (fst it))) = Some (d, rt)
        /\ kv = (d, (nHeight coins,
                     mkInput (scriptPubKey (voutAt (coins_vout coins) (index (fst it))))
                             (nValue (voutAt (coins_vout coins) (index (fst it))))
                             (mkRef (txhash (fst it)) (index (fst it))),
                     rt)).
Proof.
unfold validUnspentTransfer. split.
- intros (coins & Hc & Hav & Hout & Hin).
  exists coins, (fst kv), (snd (snd kv)).
  split; [exact Hc |]. split; [exact Hav |].
  split; [apply unspentTransferOf_iff; exact Hout |].
  destruct kv as [d [hin rt]]. simpl in *. rewrite Hin. reflexivity.
- intros (coins & d & rt & Hc & Hav & Hof & ->).
  exists coins. split; [exact Hc |]. split; [exact Hav |].
  split; [apply unspentTransferOf_iff; exact Hof | reflexivity].
Qed.

Lemma validRangeTransfer_iff (flags : Z) (it : CAddressIndexKey * Z)
      (kv : uint160 * (CInputDescriptor * CReserveTransfer)) :
  validRangeTransfer env chainFilter flags it kv
  <-> spending (fst it) = false
      /\ exists ntx blk rt,
           myGetTransaction env (ik_txhash (fst it)) = Some (ntx, blk)
           /\ rangeTransferOf env (IsNull chainFilter) chainFilter
                              (effectiveFlags env flags)
                              (voutAt (vout ntx) (ik_index (fst it))) = Some rt
           /\ kv = (transferDest env rt,
                    (mkInput (scriptPubKey (voutAt (vout ntx) (ik_index (fst it))))
                             (nValue (voutAt (vout ntx) (ik_index (fst it))))
                             (mkRef (ik_txhash (fst it)) (ik_index (fst it))),
                     rt)).
Proof.
unfold validRangeTransfer. split.
- intros (Hsp & ntx & blk & Htx & Hout & Hk & Hin).
  split; [exact Hsp |]. exists ntx, blk, (snd (snd kv)).
  split; [exact Htx |]. split; [apply rangeTransferOf_iff; exact Hout |].
  destruct kv as [d [inp rt]]. simpl in *. rewrite Hk, Hin. reflexivity.
- intros (Hsp & ntx & blk & rt & Htx & Hof & ->).
  split; [exact Hsp |]. exists ntx, blk. split; [exact Htx |].
  split; [apply rangeTransferOf_iff; exact Hof |]. split; reflexivity.
Qed.

(** The loop of the unspent scan returns what it was given together with
    one entry for each valid entry of the index, and nothing else. *)
Lemma unspentLoop_exact (l : list UnspentEntry) :
  forall (ins : UnspentTransfers) (log : list Diagnostic),
    exists returned,
      Permutation (fst (unspentTransfersLoop env (IsNull chainFilter) chainFilter l ins log))
                  (returned ++ ins)
      /\ ValidEntries (validUnspentTransfer env chainFilter) l returned.
Proof.
induction l as [| it l IH]; intros ins log.
- exists []. simpl. split; [apply Permutation_refl | constructor].
- simpl. destruct (GetCoins env (txhash (fst it))) as [coins |] eqn:Hc.
  + destruct (IsAvailable coins (index (fst it))) eqn:Hav.
    * destruct (unspentTransferOf env (IsNull chainFilter) chainFilter
                  (voutAt (coins_vout coins) (index (fst it)))) as [[d rt] |] eqn:Ht.
      -- set (kv0 := (d, (nHeight coins,
                          mkInput (scriptPubKey (voutAt (coins_vout coins) (index (fst it))))
                                  (nValue (voutAt (coins_vout coins) (index (fst it))))
                                  (mkRef (txhash (fst it)) (index (fst it))),
                          rt)) : uint160 * ChainTransferData).
         destruct (IH (mm_insert Z.ltb (fst kv0) (snd kv0) ins) log)
           as (returned & Hp & Hval).
         exists (kv0 :: returned). split.
         ++ eapply Permutation_trans; [exact Hp |].
            eapply Permutation_trans;
              [| apply Permutation_sym, (Permutation_middle returned ins kv0)].
            apply Permutation_app_head. simpl. apply mm_insert_perm_any.
         ++ apply ValidEntries_keep; [| exact Hval].
            apply validUnspentTransfer_iff. exists coins, d, rt.
            repeat split; assumption.
      -- destruct (IH ins log) as (returned & Hp & Hval).
         exists returned. split; [exact Hp |].
         apply ValidEntries_skip; [| exact Hval]. intros kv Hv.
         apply validUnspentTransfer_iff in Hv as (coins' & d' & rt' & Hc' & _ & Ht' & _).
         rewrite Hc in Hc'. injection Hc' as <-. rewrite Ht in Ht'. discriminate.
    * destruct (IH ins log) as (returned & Hp & Hval).
      exists returned. split; [exact Hp |].
      apply ValidEntries_skip; [| exact Hval]. intros kv Hv.
      apply validUnspentTransfer_iff in Hv as (coins' & d' & rt' & Hc' & Hav' & _).
      rewrite Hc in Hc'. injection Hc' as <-. rewrite Hav in Hav'. discriminate.
  + destruct (IH ins (log ++ [mkDiag Console (txhash (fst it))]))
      as (returned & Hp & Hval).
    exists returned. split; [exact Hp |].
    apply ValidEntries_skip; [| exact Hval]. intros kv Hv.
    apply validUnspentTransfer_iff in Hv as (coins' & d' & rt' & Hc' & _).
    rewrite Hc in Hc'. discriminate.
Qed.

(** The loop of the ranged scan, when every entry can be read: it
    succeeds, logs nothing and returns what it was given together with one
    entry for each valid entry of the index. *)
Lemma rangeLoop_exact (flags : Z) (l : list (CAddressIndexKey * Z)) :
  forall (ins : RangeTransfers) (log : list Diagnostic),
    forallb (rangeEntryReadable env) l = true ->
    exists result returned,
      chainTransfersLoop env (IsNull chainFilter) chainFilter (effectiveFlags env flags)
                         l ins log = (true, result, log)
      /\ Permutation result (returned ++ ins)
      /\ ValidEntries (validRangeTransfer env chainFilter flags) l returned.
Proof.
induction l as [| it l IH]; intros ins log Hread.
- exists ins, []. simpl. split; [reflexivity |]. split; [apply Permutation_refl | constructor].
- simpl in Hread. apply andb_prop in Hread as [Hit Hrest].
  unfold rangeEntryReadable in Hit. simpl.
  destruct (spending (fst it)) eqn:Hsp.
  + destruct (IH ins log Hrest) as (result & returned & Hrun & Hp & Hval).
    exists result, returned. split; [exact Hrun |]. split; [exact Hp |].
    apply ValidEntries_skip; [| exact Hval]. intros kv [Hsp' _]. congruence.
  + destruct (myGetTransaction env (ik_txhash (fst it))) as [[ntx blk] |] eqn:Htx;
      [| discriminate].
    destruct (rangeTransferOf env (IsNull chainFilter) chainFilter
                (effectiveFlags env flags) (voutAt (vout ntx) (ik_index (fst it))))
      as [rt |] eqn:Ht.
    * set (kv0 := (transferDest env rt,
                   (mkInput (scriptPubKey (voutAt (vout ntx) (ik_index (fst it))))
                            (nValue (voutAt (vout ntx) (ik_index (fst it))))
                            (mkRef (ik_txhash (fst it)) (ik_index (fst it))), rt))
                  : uint160 * (CInputDescriptor * CReserveTransfer)).
      destruct (IH (mm_insert Z.ltb (fst kv0) (snd kv0) ins) log Hrest)
        as (result & returned & Hrun & Hp & Hval).
      exists result, (kv0 :: returned). split; [exact Hrun |]. split.
      -- eapply Permutation_trans; [exact Hp |].
         eapply Permutation_trans;
           [| apply Permutation_sym, (Permutation_middle returned ins kv0)].
         apply Permutation_app_head. simpl. apply mm_insert_perm_any.
      -- apply ValidEntries_keep; [| exact Hval].
         apply validRangeTransfer_iff. split; [exact Hsp |].
         exists ntx, blk, rt. repeat split; assumption.
    * destruct (IH ins log Hrest) as (result & returned & Hrun & Hp & Hval).
      exists result, returned. split; [exact Hrun |]. split; [exact Hp |].
      apply ValidEntries_skip; [| exact Hval]. intros kv Hv.
      apply validRangeTransfer_iff in Hv as (_ & ntx' & blk' & rt' & Htx' & Ht' & _).
      rewrite Htx in Htx'. injection Htx' as <- <-. rewrite Ht in Ht'. discriminate.
Qed.

End ScanComplete.

(** C4 (as amended).  The unspent scan succeeds whatever the indexed entries
    are: an entry whose coins cannot be retrieved is reported on the console
    and omitted, an entry whose payload is not a valid transfer is omitted
    without a diagnostic, and what is returned is what the caller passed in
    together with one entry for each valid entry of the rest of the index,
    and nothing else.  The height-ranged scan omits an entry with an
    invalid payload in the same silent way, and where the rest of the
    index can be read it succeeds, logs nothing and returns one entry for
    each valid entry of the rest; but an entry not marked as spending whose
    transaction cannot be retrieved makes it log the failure and return
    false. *)
Theorem transfer_scans_unresolved_entries (env : Env) (chainFilter : uint160) :
  (forall ins l1 bad l2,
      GetAddressUnspent env (ReserveTransferKey env) = Some (l1 ++ bad :: l2) ->
      (GetCoins env (txhash (fst bad)) = None ->
       exists result log returned,
         GetUnspentChainTransfers env ins chainFilter = (true, result, log)
         /\ In (mkDiag Console (txhash (fst bad))) log
         /\ result
            = fst (unspentTransfersLoop env (IsNull chainFilter) chainFilter (l1 ++ l2) ins [])
         /\ Permutation result (returned ++ ins)
         /\ ValidEntries (validUnspentTransfer env chainFilter) (l1 ++ l2) returned)
      /\ (forall coins,
             GetCoins env (txhash (fst bad)) = Some coins ->
             transferPayloadValid (voutAt (coins_vout coins) (index (fst bad))) = false ->
             exists result log returned,
               GetUnspentChainTransfers env ins chainFilter = (true, result, log)
               /\ (result, log)
                  = unspentTransfersLoop env (IsNull chainFilter) chainFilter (l1 ++ l2) ins []
               /\ Permutation result (returned ++ ins)
               /\ ValidEntries (validUnspentTransfer env chainFilter) (l1 ++ l2) returned))
  /\ (forall ins start end_ flags l1 bad l2,
         GetAddressIndex env (ReserveTransferKey env) start end_ = Some (l1 ++ bad :: l2) ->
         spending (fst bad) = false ->
         (myGetTransaction env (ik_txhash (fst bad)) = None ->
          exists ins' h,
            GetChainTransfers env ins chainFilter start end_ flags =
              (false, ins', [mkDiag DebugLog h; mkDiag Console h])
            /\ myGetTransaction env h = None)
         /\ (forall ntx blk,
                myGetTransaction env (ik_txhash (fst bad)) = Some (ntx, blk) ->
                transferPayloadValid (voutAt (vout ntx) (ik_index (fst bad))) = false ->
                GetChainTransfers env ins chainFilter start end_ flags =
                  chainTransfersLoop env (IsNull chainFilter) chainFilter
                    (if flags =? 0 then RT_VALID env else flags) (l1 ++ l2) ins []
                /\ (forallb (rangeEntryReadable env) (l1 ++ l2) = true ->
                    exists result returned,
                      GetChainTransfers env ins chainFilter start end_ flags
                      = (true, result, [])
                      /\ Permutation result (returned ++ ins)
                      /\ ValidEntries (validRangeTransfer env chainFilter flags)
                                      (l1 ++ l2) returned))).
Proof.
  split.
  - intros ins l1 bad l2 Hidx. unfold GetUnspentChainTransfers. rewrite Hidx. split.
    + intros Hbad.
      destruct (unspentLoop_skip_unretrievable env (IsNull chainFilter) chainFilter
                  l1 l2 bad Hbad ins) as [He Hl].
      destruct (unspentLoop_exact env chainFilter (l1 ++ l2) ins [])
        as (returned & Hp & Hval).
      destruct (unspentTransfersLoop env (IsNull chainFilter) chainFilter
                  (l1 ++ bad :: l2) ins []) as [ins' log] eqn:E.
      simpl in He, Hl. exists ins', log, returned.
      split; [reflexivity |]. split; [exact Hl |]. split; [exact He |].
      split; [rewrite He; exact Hp | exact Hval].
    + intros coins Hc Hbad.
      rewrite (unspentLoop_skip_invalid env (IsNull chainFilter) chainFilter
                 l1 l2 bad coins Hc Hbad ins).
      destruct (unspentLoop_exact env chainFilter (l1 ++ l2) ins [])
        as (returned & Hp & Hval).
      destruct (unspentTransfersLoop env (IsNull chainFilter) chainFilter (l1 ++ l2) ins [])
        as [ins' log] eqn:E.
      exists ins', log, returned.
      split; [reflexivity |]. split; [reflexivity |].
      split; [exact Hp | exact Hval].
  - intros ins start end_ flags l1 bad l2 Hidx Hsp. unfold GetChainTransfers.
    rewrite Hidx. split.
    + intros Hbad.
      destruct (rangeLoop_fails env (IsNull chainFilter) chainFilter
                  (if flags =? 0 then RT_VALID env else flags) (l1 ++ bad :: l2) bad
                  ltac:(apply in_or_app; right; left; reflexivity) Hsp Hbad ins [])
        as (ins' & h & E & Hh).
      exists ins', h. split; [exact E | exact Hh].
    + intros ntx blk Htx Hbad.
      assert (Hskip := rangeLoop_skip_invalid env (IsNull chainFilter) chainFilter
                         (if flags =? 0 then RT_VALID env else flags)
                         l1 l2 bad ntx blk Htx Hbad ins []).
      split; [exact Hskip |].
      intros Hread.
      destruct (rangeLoop_exact env chainFilter flags (l1 ++ l2) ins [] Hread)
        as (result & returned & Hrun & Hp & Hval).
      exists result, returned. split; [| split; [exact Hp | exact Hval]].
      exact (eq_trans Hskip Hrun).
Qed.

(** C4 as first stated fails on the height-ranged scan: with transaction 301
    missing, the scan returns false and the valid transfer of transaction
    300, indexed after it, is not returned, while the unspent scan over the
    same two outputs succeeds and returns it. *)
Lemma range_scan_aborts_on_missing_transaction :
  GetAddressIndex Samples.chainA (ReserveTransferKey Samples.chainA) 0 100
    = Some Samples.transferIndex
  /\ myGetTransaction Samples.chainA 301 = None
  /\ GetChainTransfers Samples.chainA [] 0 0 100 0
     = (false, [], [mkDiag DebugLog 301; mkDiag Console 301])
  /\ fst (fst (GetUnspentChainTransfers Samples.chainA [] 0)) = true
  /\ length (snd (fst (GetUnspentChainTransfers Samples.chainA [] 0))) = 1%nat.
Proof. vm_compute. repeat split; reflexivity. Qed.

(** On the sample chain the unspent index holds the output of transaction
    301, whose coins are missing, before that of transaction 300: the scan
    reports 301 and returns the transfer of 300, of height 20 and value 5,
    under its destination 8. *)
Lemma transfer_scans_unresolved_entries_witness :
  (exists result log returned,
      GetUnspentChainTransfers Samples.chainA [] 0 = (true, result, log)
      /\ In (mkDiag Console 301) log
      /\ result
         = fst (unspentTransfersLoop Samples.chainA (IsNull 0) 0
                  ([] ++ [(mkUnspentKey 300 0, mkUnspentValue 5 emptyScript 20)]) [] [])
      /\ Permutation result (returned ++ [])
      /\ ValidEntries (validUnspentTransfer Samples.chainA 0)
                      ([] ++ [(mkUnspentKey 300 0, mkUnspentValue 5 emptyScript 20)])
                      returned)
  /\ GetUnspentChainTransfers Samples.chainA [] 0
     = (true,
        [(8, (20, mkInput (scriptPubKey Samples.transferOut) 5 (mkRef 300 0),
              mkTransfer true 1 7 8))],
        [mkDiag Console 301]).
Proof.
  split.
  - exact (proj1 (proj1 (transfer_scans_unresolved_entries Samples.chainA 0)
                    [] [] (mkUnspentKey 301 0, mkUnspentValue 5 emptyScript 20)
                    [(mkUnspentKey 300 0, mkUnspentValue 5 emptyScript 20)]
                    eq_refl)
                 eq_refl).
  - reflexivity.
Defined.
(* ================================================================== *)
(** * More about the fractional price *)
(* ================================================================== *)

Section PriceRatio.

(** The scale cancels: the exact quotient is the floor of
    [numerator * 10^8 / denominator]. *)
Lemma exactQuotient_ratio (x d : Z) :
  exactQuotient x d = (x * SATOSHIDEN) / d.
Proof.
unfold exactQuotient.
destruct (Z.eq_dec d 0) as [-> | Hd]; [rewrite Z.mul_0_l, !Z.div_0_r; reflexivity |].
replace (x * (SATOSHIDEN * SATOSHIDEN)) with ((x * SATOSHIDEN) * SATOSHIDEN) by ring.
apply Z.div_mul_cancel_r; [exact Hd | unfold SATOSHIDEN; lia].
Qed.

Lemma exactRemainder_ratio (x d : Z) :
  exactRemainder x d = ((x * SATOSHIDEN) mod d) * SATOSHIDEN.
Proof.
unfold exactRemainder.
destruct (Z.eq_dec d 0) as [-> | Hd]; [rewrite Z.mul_0_l, !Z.mod_0_r; ring |].
replace (x * (SATOSHIDEN * SATOSHIDEN)) with ((x * SATOSHIDEN) * SATOSHIDEN) by ring.
rewrite Z.mul_mod_distr_r; [reflexivity | exact Hd | unfold SATOSHIDEN; lia].
Qed.

Lemma price_round_down_fits (x d : Z) :
  int64_nonneg x -> int64_nonneg d -> d <> 0 ->
  exactQuotient x d < Arith256.two63 ->
  CalculateFractionalPrice x d false = Some ((x * SATOSHIDEN) / d).
Proof.
intros Hx Hd Hd0 Hfit.
rewrite (CalculateFractionalPrice_exact x d false Hx Hd Hd0), andb_false_r.
rewrite to_int64_small; [rewrite exactQuotient_ratio; reflexivity |].
split; [| exact Hfit].
rewrite exactQuotient_ratio. apply Z.div_pos; unfold int64_nonneg, SATOSHIDEN in *; lia.
Qed.

(** X10.  [CalculateFractionalPrice] throws (the division of
    [arith_uint256] raises) exactly when the denominator is 0; for every
    other 64-bit denominator, negative ones included, and every numerator
    it returns a value. *)
Theorem price_throws_iff_zero_denominator (x d : Z) (roundup : bool) :
  - Arith256.two63 <= d < Arith256.two63 ->
  (CalculateFractionalPrice x d roundup = None <-> d = 0).
Proof.
intros Hd. unfold CalculateFractionalPrice, Arith256.div.
set (den := Arith256.mul (Arith256.of_int64 d) BigSatoshi).
assert (Hden : den = 0 <-> d = 0).
{ unfold den. rewrite BigSatoshi_value.
  unfold Arith256.mul, Arith256.of_int64, Arith256.modulus, Arith256.two64,
         Arith256.two63, SATOSHIDEN in *.
  pose proof (Z.mod_pos_bound d (2 ^ 64) ltac:(lia)) as Hb.
  pose proof (Z.div_mod d (2 ^ 64) ltac:(lia)) as Hdm.
  rewrite Z.mod_small by (split; [lia |];
    apply Z.le_lt_trans with (2 ^ 64 * 100000000); [nia | reflexivity]).
  split; intros E; [| subst d; reflexivity].
  assert (E0 : d mod 2 ^ 64 = 0) by lia. rewrite E0 in Hdm. lia. }
destruct (Z.eqb_spec den 0) as [E | E].
- split; [intros _; apply Hden; exact E | reflexivity].
- split; [| intros E0; apply Hden in E0; contradiction].
  destruct (negb _ && roundup); discriminate.
Qed.

(** X11.  Equal amounts are priced at exactly one unit, [SATOSHIDEN],
    whatever the rounding asked for. *)
Theorem price_of_equal_amounts (a : Z) (roundup : bool) :
  0 < a < Arith256.two63 ->
  CalculateFractionalPrice a a roundup = Some SATOSHIDEN.
Proof.
intros Ha.
assert (Hnn : int64_nonneg a) by (unfold int64_nonneg; lia).
rewrite (CalculateFractionalPrice_exact a a roundup Hnn Hnn ltac:(lia)).
assert (Hq : exactQuotient a a = SATOSHIDEN).
{ rewrite exactQuotient_ratio, Z.mul_comm. apply Z.div_mul. lia. }
assert (Hr : exactRemainder a a = 0).
{ rewrite exactRemainder_ratio.
  replace (a * SATOSHIDEN) with (SATOSHIDEN * a) by ring.
  rewrite Z.mod_mul by lia. reflexivity. }
rewrite Hq, Hr. reflexivity.
Qed.

(** X12.  Where the denominator times the scale stays below [2^64] and the
    quotient clear of [INT64_MAX], the two roundings bracket the exact
    ratio: the round-down price [q] is the floor and the round-up price
    [u] the ceiling of [numerator * 10^8 / denominator], and they differ by
    one at most. *)
Theorem price_roundings_bracket_ratio (x d : Z) :
  int64_nonneg x -> int64_nonneg d -> d <> 0 ->
  d * SATOSHIDEN < Arith256.two64 ->
  exactQuotient x d < Arith256.two63 - 1 ->
  exists q u,
    CalculateFractionalPrice x d false = Some q
    /\ CalculateFractionalPrice x d true = Some u
    /\ q * d <= x * SATOSHIDEN < (q + 1) * d
    /\ (u - 1) * d < x * SATOSHIDEN <= u * d
    /\ q <= u <= q + 1.
Proof.
intros Hx Hd Hd0 Hnarrow Hq.
destruct (CalculateFractionalPrice_roundup_narrow x d Hx Hd Hd0 Hnarrow Hq) as [Hup Hdown].
assert (Hdpos : 0 < d) by (unfold int64_nonneg in Hd; lia).
pose proof (Z.div_mod (x * SATOSHIDEN) d ltac:(lia)) as Hdm.
pose proof (Z.mod_pos_bound (x * SATOSHIDEN) d Hdpos) as Hb.
rewrite exactQuotient_ratio in Hup, Hdown. rewrite exactRemainder_ratio in Hup.
exists ((x * SATOSHIDEN) / d).
destruct (Z.eqb_spec ((x * SATOSHIDEN) mod d * SATOSHIDEN) 0) as [E | E].
- exists ((x * SATOSHIDEN) / d).
  assert (E0 : (x * SATOSHIDEN) mod d = 0) by (unfold SATOSHIDEN in *; lia).
  split; [exact Hdown |]. split; [exact Hup |]. nia.
- exists ((x * SATOSHIDEN) / d + 1).
  assert (E0 : (x * SATOSHIDEN) mod d <> 0) by (intros E0; rewrite E0 in E; lia).
  split; [exact Hdown |]. split; [exact Hup |]. nia.
Qed.

(** X13.  The round-down price is monotone: a numerator not smaller and a
    denominator not greater never give a lower price, as long as the
    greater price fits the signed 64-bit result. *)
Theorem price_round_down_monotone (x1 x2 d1 d2 : Z) :
  int64_nonneg x1 -> int64_nonneg x2 -> int64_nonneg d1 -> int64_nonneg d2 ->
  d2 <> 0 -> x1 <= x2 -> d2 <= d1 ->
  exactQuotient x2 d2 < Arith256.two63 ->
  exists p1 p2,
    CalculateFractionalPrice x1 d1 false = Some p1
    /\ CalculateFractionalPrice x2 d2 false = Some p2
    /\ p1 <= p2.
Proof.
intros Hx1 Hx2 Hd1 Hd2 Hd0 Hx Hd Hfit.
assert (Hd2pos : 0 < d2) by (unfold int64_nonneg in Hd2; lia).
assert (Hle : (x1 * SATOSHIDEN) / d1 <= (x2 * SATOSHIDEN) / d2).
{ apply Z.le_trans with ((x2 * SATOSHIDEN) / d1).
  - apply Z.div_le_mono; [lia | unfold SATOSHIDEN; lia].
  - apply Z.div_le_compat_l; [unfold int64_nonneg, SATOSHIDEN in *; lia | lia]. }
exists ((x1 * SATOSHIDEN) / d1), ((x2 * SATOSHIDEN) / d2).
split; [| split; [| exact Hle]].
- apply price_round_down_fits; [exact Hx1 | exact Hd1 | lia |].
  rewrite exactQuotient_ratio in *. lia.
- apply price_round_down_fits; assumption.
Qed.
End PriceRatio.

Lemma price_throws_iff_zero_denominator_witness :
  CalculateFractionalPrice 5 0 true = None <-> 0 = 0.
Proof.
apply (price_throws_iff_zero_denominator 5 0 true). vm_compute. split; congruence.
Defined.

Lemma price_of_equal_amounts_witness :
  CalculateFractionalPrice 12345 12345 true = Some SATOSHIDEN.
Proof.
apply (price_of_equal_amounts 12345 true). vm_compute. split; reflexivity.
Defined.

Lemma price_roundings_bracket_ratio_witness :
  exists q u,
    CalculateFractionalPrice 1 3 false = Some q
    /\ CalculateFractionalPrice 1 3 true = Some u
    /\ q * 3 <= 1 * SATOSHIDEN < (q + 1) * 3
    /\ (u - 1) * 3 < 1 * SATOSHIDEN <= u * 3
    /\ q <= u <= q + 1.
Proof.
apply (price_roundings_bracket_ratio 1 3);
  unfold int64_nonneg; vm_compute; try split; congruence.
Defined.

Lemma price_round_down_monotone_witness :
  exists p1 p2,
    CalculateFractionalPrice 10 7 false = Some p1
    /\ CalculateFractionalPrice 11 3 false = Some p2
    /\ p1 <= p2.
Proof.
apply (price_round_down_monotone 10 11 7 3);
  unfold int64_nonneg; vm_compute; try split; congruence.
Defined.
(* ================================================================== *)
(** * The retry loop of [WriteTxn] *)
(* ================================================================== *)

Section WriteTxnFacts.
Context {DB K T : Type}.
Variable ops : DbOps DB K T.
Variables (key : K) (value : T) (calling : std_string) (fOverwrite : bool).

(** One attempt either writes, and then runs as [writtenAttempt], or does
    not, and then runs as the first calls of [failedAttempt]. *)
Lemma writeAttempt_cases (run : DbRun) :
  (exists db' committed,
      writeAttempt ops key value calling fOverwrite run
      = (true, (db', snd run ++ writtenAttempt calling committed)))
  \/ (exists db' began,
         writeAttempt ops key value calling fOverwrite run
         = (false, (db', snd run ++ removelast (removelast (failedAttempt calling began))))).
Proof.
destruct run as [db trace]. unfold writeAttempt.
destruct (TxnBegin ops db) as [began db1]. destruct began; simpl.
- destruct (Write ops key value fOverwrite (TxnSetTimeout ops db1)) as [txnWrite db3].
  destruct txnWrite; simpl.
  + destruct (TxnCommit ops db3) as [committed db4]. left. exists db4, committed.
    unfold writtenAttempt. rewrite <- !app_assoc. destruct committed; reflexivity.
  + right. exists (TxnAbort ops db3), true. rewrite <- !app_assoc. reflexivity.
- right. exists (TxnAbort ops db1), false. rewrite <- !app_assoc. reflexivity.
Qed.

(** The loop entered with [retries] failed attempts behind it and enough
    unfoldings left: it returns, after more failed attempts and then either
    an attempt that writes or the fourth failure. *)
Lemma WriteTxnLoop_runs (fuel : nat) :
  forall (retries : Z) (run : DbRun),
    0 <= retries -> retries + Z.of_nat fuel = 4 -> (0 < fuel)%nat ->
    exists (ok : bool) (db' : DB) (fails : list bool) (last : list DbEvent),
      WriteTxnLoop ops fuel key value calling fOverwrite retries run
      = Some (ok, (db', snd run ++ concat (map (failedAttempt calling) fails) ++ last))
      /\ ((ok = true /\ retries + Z.of_nat (length fails) <= 3
           /\ exists committed, last = writtenAttempt calling committed)
          \/ (ok = false /\ retries + Z.of_nat (length fails) = 4
              /\ last = [EvLogPrintf calling (FailedRetry 3)])).
Proof.
induction fuel as [| fuel IH]; intros retries run Hr Hsum Hpos; [lia |].
cbn [WriteTxnLoop].
destruct (writeAttempt_cases run) as [(db1 & committed & E) | (db1 & began & E)];
  rewrite E; cbn [negb].
- destruct (Z.ltb_spec 3 retries) as [Hgt | _]; [lia |].
  exists true, db1, [], (writtenAttempt calling committed). simpl.
  split; [reflexivity |]. left. split; [reflexivity |]. split; [lia |].
  exists committed. reflexivity.
- assert (Etrace : (snd run ++ removelast (removelast (failedAttempt calling began)))
                   ++ [EvTxnAbort; EvMilliSleep 500]
                   = snd run ++ failedAttempt calling began).
  { rewrite <- app_assoc. destruct began; reflexivity. }
  rewrite Etrace.
  destruct (Z.ltb_spec 3 (retries + 1)) as [Hgt | Hle].
  + exists false, (TxnAbort ops db1), [began], [EvLogPrintf calling (FailedRetry 3)].
    split.
    * replace (retries + 1 - 1) with 3 by lia. simpl concat.
      rewrite app_nil_r, <- app_assoc. reflexivity.
    * right. split; [reflexivity |]. split; [simpl; lia | reflexivity].
  + destruct (IH (retries + 1) (TxnAbort ops db1, snd run ++ failedAttempt calling began)
                ltac:(lia) ltac:(lia) ltac:(lia))
      as (ok & db' & fails & last & Hrun & Hshape).
    exists ok, db', (began :: fails), last. split.
    * rewrite Hrun. cbn [snd map concat]. rewrite <- !app_assoc. reflexivity.
    * cbn [length]. destruct Hshape as [(H1 & H2 & H3) | (H1 & H2 & H3)];
        [left | right]; (split; [exact H1 |]); (split; [lia | exact H3]).
Qed.

Lemma slept_app (a b : list DbEvent) : slept (a ++ b) = slept a + slept b.
Proof.
induction a as [| e a IHa]; simpl; [reflexivity |].
destruct e; rewrite ?IHa; lia.
Qed.

Lemma failedAttempts_facts (fails : list bool) :
  let trace := concat (map (failedAttempt calling) fails) in
  ~ In (EvWrite true) trace
  /\ filter isCommit trace = []
  /\ length (filter isBegin trace) = length fails
  /\ slept trace = 500 * Z.of_nat (length fails).
Proof.
induction fails as [| began fails IH]; cbv zeta.
- simpl. repeat split; auto.
- destruct IH as (H1 & H2 & H3 & H4). cbn [map concat].
  split; [| split; [| split]].
  + intros Hin. apply in_app_or in Hin as [Hin | Hin]; [| exact (H1 Hin)].
    destruct began; simpl in Hin;
      repeat (destruct Hin as [Hin | Hin]; [discriminate |]); exact Hin.
  + rewrite filter_app, H2. destruct began; reflexivity.
  + rewrite filter_app, length_app, H3. destruct began; reflexivity.
  + rewrite slept_app, H4.
    replace (slept (failedAttempt calling began)) with 500 by (destruct began; reflexivity).
    cbn [length]. lia.
Qed.

(** X14.  [WriteTxn] always returns, whatever the database answers, after
    at most four attempts.  Its calls are those of some failed attempts
    (begin refused, or write refused; each aborts the transaction twice and
    sleeps 500 ms), followed either by one attempt that writes, and then
    the result is [true] with at most three failures before it, or by the
    final log line after exactly four failures, and then the result is
    [false]; that line reports 3 attempts. *)
Theorem WriteTxn_returns_within_four_attempts (run : DbRun) :
  exists (ok : bool) (db' : DB) (fails : list bool) (last : list DbEvent),
    WriteTxn ops key value calling fOverwrite run
    = Some (ok, (db', snd run ++ concat (map (failedAttempt calling) fails) ++ last))
    /\ ((ok = true /\ (length fails <= 3)%nat
         /\ exists committed, last = writtenAttempt calling committed)
        \/ (ok = false /\ length fails = 4%nat
            /\ last = [EvLogPrintf calling (FailedRetry 3)])).
Proof.
destruct (WriteTxnLoop_runs 4 0 run ltac:(lia) ltac:(reflexivity) ltac:(lia))
  as (ok & db' & fails & last & Hrun & Hshape).
exists ok, db', fails, last. split; [exact Hrun |].
destruct Hshape as [(H1 & H2 & H3) | (H1 & H2 & H3)]; [left | right];
  (split; [exact H1 |]); (split; [lia | exact H3]).
Qed.

(** X15.  The result of [WriteTxn] is that of the writes alone: started on
    a fresh trace it returns [true] exactly when a call of [Write] returned
    [true].  [TxnCommit] is then called once, and whether the commit
    succeeded has no part in the result; when the result is [false] no
    commit was ever tried, the transaction was begun four times and two
    seconds were slept. *)
Theorem WriteTxn_result_is_the_write (db : DB) (ok : bool) (db' : DB)
        (trace : list DbEvent) :
  WriteTxn ops key value calling fOverwrite (db, []) = Some (ok, (db', trace)) ->
  (ok = true <-> In (EvWrite true) trace)
  /\ (ok = true ->
      exists before committed,
        trace = before ++ EvTxnCommit committed
                       :: (if committed then [] else [EvLogPrintf calling FailedToCommit])
        /\ filter isCommit before = [])
  /\ (ok = false ->
      filter isCommit trace = []
      /\ length (filter isBegin trace) = 4%nat
      /\ slept trace = 2000).
Proof.
intros Hres.
destruct (WriteTxnLoop_runs 4 0 (db, []) ltac:(lia) ltac:(reflexivity) ltac:(lia))
  as (ok' & db'' & fails & last & Hrun & Hshape).
unfold WriteTxn in Hres. rewrite Hrun in Hres. injection Hres as <- <- <-.
cbn [snd app].
destruct (failedAttempts_facts fails) as (Hw & Hc & Hb & Hs). cbv zeta in Hw, Hc, Hb, Hs.
destruct Hshape as [(-> & Hlen & committed & ->) | (-> & Hlen & ->)].
- split; [| split; [| discriminate]].
  + split; [intros _ | reflexivity].
    apply in_or_app. right. right. right. left. reflexivity.
  + intros _.
    exists (concat (map (failedAttempt calling) fails)
              ++ [EvTxnBegin true; EvTxnSetTimeout; EvWrite true]), committed.
    split.
    * unfold writtenAttempt. rewrite <- app_assoc. reflexivity.
    * rewrite filter_app, Hc. reflexivity.
- split; [| split; [discriminate |]].
  + split; [discriminate |]. intros Hin. exfalso.
    apply in_app_or in Hin as [Hin | [Hin | []]]; [exact (Hw Hin) | discriminate].
  + intros _. split; [| split].
    * rewrite filter_app, Hc. reflexivity.
    * rewrite filter_app, length_app, Hb. simpl. lia.
    * rewrite slept_app, Hs. simpl slept. lia.
Qed.
End WriteTxnFacts.
(* ================================================================== *)
(** * Serialization of the wallet records *)
(* ================================================================== *)

Section RecordFacts.
Variable fc : FieldCodecs.

(** X16.  A [CKeyMetadata] whose version is at least
    [VERSION_WITH_HDDATA] survives serialization: the bytes written do not
    depend on the stream they are appended to, and reading them back, into
    any object and whatever follows them, yields the record written and
    leaves what follows. *)
Theorem CKeyMetadata_round_trip (m : CKeyMetadata.t) :
  codec_ok (int_codec fc) -> codec_ok (int64_codec fc) ->
  codec_ok (string_codec fc) -> codec_ok (uint256_codec fc) ->
  CKeyMetadata.VERSION_WITH_HDDATA <= CKeyMetadata.nVersion m ->
  exists bytes : Stream,
    (forall s, CKeyMetadata.SerializationOp fc CSerActionSerialize (s, m)
               = Some (s ++ bytes, m))
    /\ (forall o rest,
           CKeyMetadata.SerializationOp fc CSerActionUnserialize (bytes ++ rest, o)
           = Some (rest, m)).
Proof.
intros Hint Hint64 Hstr Hhash Hver.
apply Z.leb_le in Hver.
exists (Serialize (int_codec fc) (CKeyMetadata.nVersion m)
        ++ Serialize (int64_codec fc) (CKeyMetadata.nCreateTime m)
        ++ Serialize (string_codec fc) (CKeyMetadata.hdKeypath m)
        ++ Serialize (uint256_codec fc) (CKeyMetadata.seedFp m)).
split.
- intros s. unfold CKeyMetadata.SerializationOp, READWRITE, andThen. cbn [fst snd].
  rewrite Hver. rewrite <- !app_assoc. reflexivity.
- intros o rest. unfold CKeyMetadata.SerializationOp, READWRITE, andThen. cbn [fst snd].
  rewrite <- !app_assoc, Hint. cbn [fst snd CKeyMetadata.nVersion CKeyMetadata.nCreateTime
                                        CKeyMetadata.hdKeypath CKeyMetadata.seedFp].
  rewrite Hint64. cbn [fst snd CKeyMetadata.nVersion CKeyMetadata.nCreateTime
                          CKeyMetadata.hdKeypath CKeyMetadata.seedFp].
  rewrite Hver, Hstr. cbn [fst snd CKeyMetadata.nVersion CKeyMetadata.nCreateTime
                              CKeyMetadata.hdKeypath CKeyMetadata.seedFp].
  rewrite Hhash. cbn [fst snd CKeyMetadata.nVersion CKeyMetadata.nCreateTime
                         CKeyMetadata.hdKeypath CKeyMetadata.seedFp].
  destruct m; reflexivity.
Qed.

(** X17.  A [CKeyMetadata] whose version is below [VERSION_WITH_HDDATA] is
    written as its version and creation time only; its key path and seed
    fingerprint are not written, and reading the bytes back leaves the key
    path and seed fingerprint of the object read into as they were: read
    into a newly constructed object, the record comes back with its own
    version, an empty key path and a null seed fingerprint. *)
Theorem CKeyMetadata_basic_version_drops_hd (m : CKeyMetadata.t) :
  codec_ok (int_codec fc) -> codec_ok (int64_codec fc) ->
  CKeyMetadata.nVersion m < CKeyMetadata.VERSION_WITH_HDDATA ->
  let bytes := Serialize (int_codec fc) (CKeyMetadata.nVersion m)
               ++ Serialize (int64_codec fc) (CKeyMetadata.nCreateTime m) in
  (forall s, CKeyMetadata.SerializationOp fc CSerActionSerialize (s, m)
             = Some (s ++ bytes, m))
  /\ (forall o rest,
         CKeyMetadata.SerializationOp fc CSerActionUnserialize (bytes ++ rest, o)
         = Some (rest, CKeyMetadata.mk (CKeyMetadata.nVersion m)
                                       (CKeyMetadata.nCreateTime m)
                                       (CKeyMetadata.hdKeypath o)
                                       (CKeyMetadata.seedFp o)))
  /\ (forall rest,
         CKeyMetadata.SerializationOp fc CSerActionUnserialize
           (bytes ++ rest, CKeyMetadata.fresh)
         = Some (rest, CKeyMetadata.mk (CKeyMetadata.nVersion m)
                                       (CKeyMetadata.nCreateTime m) [] 0)).
Proof.
intros Hint Hint64 Hver bytes. subst bytes.
assert (Hlow : (CKeyMetadata.VERSION_WITH_HDDATA <=? CKeyMetadata.nVersion m) = false)
  by (apply Z.leb_gt; exact Hver).
assert (Hread : forall o rest,
          CKeyMetadata.SerializationOp fc CSerActionUnserialize
            ((Serialize (int_codec fc) (CKeyMetadata.nVersion m)
              ++ Serialize (int64_codec fc) (CKeyMetadata.nCreateTime m)) ++ rest, o)
          = Some (rest, CKeyMetadata.mk (CKeyMetadata.nVersion m)
                                        (CKeyMetadata.nCreateTime m)
                                        (CKeyMetadata.hdKeypath o)
                                        (CKeyMetadata.seedFp o))).
{ intros o rest. unfold CKeyMetadata.SerializationOp, READWRITE, andThen. cbn [fst snd].
  rewrite <- !app_assoc, Hint. cbn [fst snd CKeyMetadata.nVersion CKeyMetadata.nCreateTime
                                        CKeyMetadata.hdKeypath CKeyMetadata.seedFp].
  rewrite Hint64. cbn [fst snd CKeyMetadata.nVersion CKeyMetadata.nCreateTime
                          CKeyMetadata.hdKeypath CKeyMetadata.seedFp].
  rewrite Hlow. reflexivity. }
split; [| split; [exact Hread | intros rest; exact (Hread CKeyMetadata.fresh rest)]].
- intros s. unfold CKeyMetadata.SerializationOp, READWRITE, andThen. cbn [fst snd].
  rewrite Hlow. rewrite <- !app_assoc. reflexivity.
Qed.

(** X18.  A [CHDChain] survives serialization, whatever its version: the
    four fields are written in the order version, seed fingerprint,
    creation time, account counter, and reading them back into any object
    yields the record written and leaves what follows. *)
Theorem CHDChain_round_trip (c : CHDChain.t) :
  codec_ok (int_codec fc) -> codec_ok (uint256_codec fc) ->
  codec_ok (int64_codec fc) -> codec_ok (uint32_codec fc) ->
  let bytes := Serialize (int_codec fc) (CHDChain.nVersion c)
               ++ Serialize (uint256_codec fc) (CHDChain.seedFp c)
               ++ Serialize (int64_codec fc) (CHDChain.nCreateTime c)
               ++ Serialize (uint32_codec fc) (CHDChain.saplingAccountCounter c) in
  (forall s, CHDChain.SerializationOp fc CSerActionSerialize (s, c) = Some (s ++ bytes, c))
  /\ (forall o rest,
         CHDChain.SerializationOp fc CSerActionUnserialize (bytes ++ rest, o)
         = Some (rest, c)).
Proof.
intros Hint Hhash Hint64 Hu32 bytes. subst bytes. split.
- intros s. unfold CHDChain.SerializationOp, READWRITE, andThen. cbn [fst snd].
  rewrite <- !app_assoc. reflexivity.
- intros o rest. unfold CHDChain.SerializationOp, READWRITE, andThen. cbn [fst snd].
  rewrite <- !app_assoc, Hint.
  cbn [fst snd CHDChain.nVersion CHDChain.seedFp CHDChain.nCreateTime
           CHDChain.saplingAccountCounter].
  rewrite Hhash.
  cbn [fst snd CHDChain.nVersion CHDChain.seedFp CHDChain.nCreateTime
           CHDChain.saplingAccountCounter].
  rewrite Hint64.
  cbn [fst snd CHDChain.nVersion CHDChain.seedFp CHDChain.nCreateTime
           CHDChain.saplingAccountCounter].
  rewrite Hu32.
  cbn [fst snd CHDChain.nVersion CHDChain.seedFp CHDChain.nCreateTime
           CHDChain.saplingAccountCounter].
  destruct c; reflexivity.
Qed.
End RecordFacts.

Lemma wordCodec_ok : codec_ok WalletSamples.wordCodec.
Proof. intros x rest. reflexivity. Qed.

Lemma bytesCodec_ok : codec_ok WalletSamples.bytesCodec.
Proof.
intros x rest. unfold WalletSamples.bytesCodec. cbn [Serialize Unserialize app].
rewrite Nat2Z.id, length_app.
destruct (Nat.leb_spec (length x) (length x + length rest)) as [_ | Hlt]; [| lia].
rewrite firstn_app, Nat.sub_diag, firstn_all, firstn_O, app_nil_r.
rewrite skipn_app, Nat.sub_diag, skipn_all. reflexivity.
Qed.

Lemma WriteTxn_result_is_the_write_witness :
  (true = true <->
   In (EvWrite true)
      (failedAttempt [] true ++ failedAttempt [] true ++ writtenAttempt [] false))
  /\ (true = true ->
      exists before committed,
        failedAttempt [] true ++ failedAttempt [] true ++ writtenAttempt [] false
        = before ++ EvTxnCommit committed
                 :: (if committed then [] else [EvLogPrintf [] FailedToCommit])
        /\ filter isCommit before = [])
  /\ (true = false ->
      filter isCommit
             (failedAttempt [] true ++ failedAttempt [] true ++ writtenAttempt [] false) = []
      /\ length (filter isBegin
                   (failedAttempt [] true ++ failedAttempt [] true
                      ++ writtenAttempt [] false)) = 4%nat
      /\ slept (failedAttempt [] true ++ failedAttempt [] true ++ writtenAttempt [] false)
         = 2000).
Proof.
exact (WriteTxn_result_is_the_write WalletSamples.flakyDb 7 8 [] true 0%nat true 3%nat _
         eq_refl).
Defined.

Lemma CKeyMetadata_round_trip_witness :
  exists bytes : Stream,
    (forall s, CKeyMetadata.SerializationOp WalletSamples.codecs CSerActionSerialize
                 (s, CKeyMetadata.mk 10 1600000000 [109; 47; 48] 77)
               = Some (s ++ bytes, CKeyMetadata.mk 10 1600000000 [109; 47; 48] 77))
    /\ (forall o rest,
           CKeyMetadata.SerializationOp WalletSamples.codecs CSerActionUnserialize
             (bytes ++ rest, o)
           = Some (rest, CKeyMetadata.mk 10 1600000000 [109; 47; 48] 77)).
Proof.
apply (CKeyMetadata_round_trip WalletSamples.codecs
         (CKeyMetadata.mk 10 1600000000 [109; 47; 48] 77)
         wordCodec_ok wordCodec_ok bytesCodec_ok wordCodec_ok).
vm_compute. discriminate.
Defined.

Lemma CKeyMetadata_basic_version_drops_hd_witness :
  (forall s, CKeyMetadata.SerializationOp WalletSamples.codecs CSerActionSerialize
               (s, CKeyMetadata.mk 1 1600000000 [109; 47; 48] 77)
             = Some (s ++ [1; 1600000000], CKeyMetadata.mk 1 1600000000 [109; 47; 48] 77))
  /\ (forall o rest,
         CKeyMetadata.SerializationOp WalletSamples.codecs CSerActionUnserialize
           ([1; 1600000000] ++ rest, o)
         = Some (rest, CKeyMetadata.mk 1 1600000000 (CKeyMetadata.hdKeypath o)
                                       (CKeyMetadata.seedFp o)))
  /\ (forall rest,
         CKeyMetadata.SerializationOp WalletSamples.codecs CSerActionUnserialize
           ([1; 1600000000] ++ rest, CKeyMetadata.fresh)
         = Some (rest, CKeyMetadata.mk 1 1600000000 [] 0)).
Proof.
apply (CKeyMetadata_basic_version_drops_hd WalletSamples.codecs
         (CKeyMetadata.mk 1 1600000000 [109; 47; 48] 77) wordCodec_ok wordCodec_ok).
vm_compute. reflexivity.
Defined.

Lemma CHDChain_round_trip_witness :
  (forall s, CHDChain.SerializationOp WalletSamples.codecs CSerActionSerialize
               (s, CHDChain.mk 1 77 1600000000 2)
             = Some (s ++ [1; 77; 1600000000; 2], CHDChain.mk 1 77 1600000000 2))
  /\ (forall o rest,
         CHDChain.SerializationOp WalletSamples.codecs CSerActionUnserialize
           ([1; 77; 1600000000; 2] ++ rest, o)
         = Some (rest, CHDChain.mk 1 77 1600000000 2)).
Proof.
exact (CHDChain_round_trip WalletSamples.codecs (CHDChain.mk 1 77 1600000000 2)
         wordCodec_ok wordCodec_ok wordCodec_ok wordCodec_ok).
Defined.
(* ================================================================== *)
(** * The accessors of the key store *)
(* ================================================================== *)

Section ContainerFacts.
Context {K V : Type}.
Variable less : K -> K -> bool.

Lemma map_count_find (k : K) (m : list (K * V)) :
  (0 <? map_count less k m)%nat
  = match map_find less k m with Some _ => true | None => false end.
Proof.
unfold map_count. induction m as [| e m IH]; simpl; [reflexivity |].
destruct (equivalent less (fst e) k); simpl; [reflexivity | exact IH].
Qed.

Lemma map_find_In (k : K) (m : list (K * V)) (v : V) :
  map_find less k m = Some v ->
  exists k', In (k', v) m /\ equivalent less k' k = true.
Proof.
induction m as [| [k' v'] m IH]; simpl; [discriminate |].
destruct (equivalent less k' k) eqn:E.
- intros Ev; injection Ev as <-. exists k'. split; [left; reflexivity | exact E].
- intros Ev. destruct (IH Ev) as (k'' & Hin & Heq). exists k''. split; [right |]; assumption.
Qed.

Lemma map_count_In (k : K) (m : list (K * V)) :
  (0 <? map_count less k m)%nat = true <->
  exists e, In e m /\ equivalent less (fst e) k = true.
Proof.
unfold map_count. split.
- intros Hpos. apply Nat.ltb_lt in Hpos.
  destruct (filter (fun e => equivalent less (fst e) k) m) as [| e l] eqn:E;
    [simpl in Hpos; lia |].
  assert (Hin : In e (filter (fun e => equivalent less (fst e) k) m))
    by (rewrite E; left; reflexivity).
  apply filter_In in Hin. exists e. exact Hin.
- intros (e & Hin & Heq). apply Nat.ltb_lt.
  assert (Hf : In e (filter (fun e => equivalent less (fst e) k) m))
    by (apply filter_In; split; assumption).
  destruct (filter (fun e => equivalent less (fst e) k) m); [contradiction | simpl; lia].
Qed.

Hypothesis Hless : strictTotal less.

Lemma equivalent_eq (a b : K) : equivalent less a b = true <-> a = b.
Proof.
unfold equivalent. split.
- intros E. apply andb_prop in E as [E1 E2].
  apply negb_true_iff in E1, E2. apply (less_total less Hless); assumption.
- intros ->. rewrite (less_irrefl less Hless). reflexivity.
Qed.

Lemma set_insert_In (x a : K) (s : list K) :
  In a (set_insert less x s) <-> a = x \/ In a s.
Proof.
induction s as [| y s IH]; simpl; [intuition congruence |].
destruct (less x y) eqn:Exy; simpl; [intuition congruence |].
destruct (less y x) eqn:Eyx; simpl.
- rewrite IH. intuition congruence.
- assert (E : x = y) by (apply (less_total less Hless); assumption).
  subst y. intuition congruence.
Qed.

Lemma set_insert_isSet (x : K) (s : list K) :
  isSet less s -> isSet less (set_insert less x s).
Proof.
unfold isSet. induction 1 as [| y s Hs IH Hy]; simpl; [repeat constructor |].
destruct (less x y) eqn:Exy.
- constructor; [constructor; assumption |]. constructor; [exact Exy |].
  eapply Forall_impl; [| exact Hy]. intros z Hz.
  exact (less_trans less Hless x y z Exy Hz).
- destruct (less y x) eqn:Eyx; [| constructor; assumption].
  constructor; [exact IH |]. apply Forall_forall. intros z Hz.
  apply set_insert_In in Hz as [-> | Hz]; [exact Eyx |].
  rewrite Forall_forall in Hy. apply Hy. exact Hz.
Qed.

Lemma insertKeys_In (m : list (K * V)) :
  forall (s : list K) (a : K),
    In a (insertKeys less m s) <-> In a (map fst m) \/ In a s.
Proof.
unfold insertKeys. induction m as [| e m IH]; intros s a; simpl; [tauto |].
rewrite IH, set_insert_In. intuition congruence.
Qed.

Lemma insertKeys_isSet (m : list (K * V)) :
  forall s : list K, isSet less s -> isSet less (insertKeys less m s).
Proof.
unfold insertKeys. induction m as [| e m IH]; intros s Hs; simpl; [exact Hs |].
apply IH. apply set_insert_isSet. exact Hs.
Qed.

Lemma map_count_keys (k : K) (m : list (K * V)) :
  (0 <? map_count less k m)%nat = true <-> In k (map fst m).
Proof.
rewrite map_count_In. split.
- intros (e & Hin & Heq). apply equivalent_eq in Heq. subst k.
  apply in_map. exact Hin.
- intros Hin. apply in_map_iff in Hin as (e & <- & Hin).
  exists e. split; [exact Hin | apply equivalent_eq; reflexivity].
Qed.
End ContainerFacts.

Lemma Z_ltb_strictTotal : strictTotal Z.ltb.
Proof. constructor; intros; lia. Qed.

Section KeyStoreFacts.
Context `{KeyTypes}.
Variable ks : CBasicKeyStore.

Lemma getFrom_facts {K V : Type} (less : K -> K -> bool) (m : list (K * V))
      (k : K) (out : V) :
  fst (getFrom less m k out) = (0 <? map_count less k m)%nat
  /\ ((0 <? map_count less k m)%nat = false -> snd (getFrom less m k out) = out)
  /\ ((0 <? map_count less k m)%nat = true ->
      exists k', In (k', snd (getFrom less m k out)) m /\ equivalent less k' k = true).
Proof.
unfold getFrom. rewrite map_count_find.
destruct (map_find less k m) as [v |] eqn:E; simpl.
- split; [reflexivity |]. split; [discriminate |]. intros _. apply (map_find_In less k m v E).
- split; [reflexivity |]. split; [reflexivity | discriminate].
Qed.

(** X19.  Each getter of the key store agrees with the test that goes with
    it: [GetKey], [GetSproutSpendingKey] and [GetSaplingSpendingKey] return
    [true] exactly when [HaveKey], [HaveSproutSpendingKey] and
    [HaveSaplingSpendingKey] do; when they return [false] the out-parameter
    is left as it was, and when they return [true] it holds a value stored
    in the map under the key asked for.  [GetNoteDecryptor], which has no
    test of its own, treats its out-parameter in the same way. *)
Theorem keystore_getters_agree_with_tests :
  (forall address keyOut,
      fst (GetKey ks address keyOut) = HaveKey ks address
      /\ (HaveKey ks address = false -> snd (GetKey ks address keyOut) = keyOut)
      /\ (HaveKey ks address = true ->
          In (address, snd (GetKey ks address keyOut)) (mapKeys ks)))
  /\ (forall address skOut,
         fst (GetSproutSpendingKey ks address skOut) = HaveSproutSpendingKey ks address
         /\ (HaveSproutSpendingKey ks address = false ->
             snd (GetSproutSpendingKey ks address skOut) = skOut)
         /\ (HaveSproutSpendingKey ks address = true ->
             exists stored,
               In (stored, snd (GetSproutSpendingKey ks address skOut))
                  (mapSproutSpendingKeys ks)
               /\ equivalent sprout_less stored address = true))
  /\ (forall extfvk skOut,
         fst (GetSaplingSpendingKey ks extfvk skOut) = HaveSaplingSpendingKey ks extfvk
         /\ (HaveSaplingSpendingKey ks extfvk = false ->
             snd (GetSaplingSpendingKey ks extfvk skOut) = skOut)
         /\ (HaveSaplingSpendingKey ks extfvk = true ->
             exists stored,
               In (stored, snd (GetSaplingSpendingKey ks extfvk skOut))
                  (mapSaplingSpendingKeys ks)
               /\ equivalent extfvk_less stored extfvk = true))
  /\ (forall address decOut,
         (fst (GetNoteDecryptor ks address decOut) = false ->
          snd (GetNoteDecryptor ks address decOut) = decOut)
         /\ (fst (GetNoteDecryptor ks address decOut) = true ->
             exists stored,
               In (stored, snd (GetNoteDecryptor ks address decOut))
                  (mapNoteDecryptors ks)
               /\ equivalent sprout_less stored address = true)).
Proof.
split; [| split; [| split]].
- intros address keyOut. unfold GetKey, HaveKey.
  destruct (getFrom_facts Z.ltb (mapKeys ks) address keyOut) as (H1 & H2 & H3).
  split; [exact H1 |]. split; [exact H2 |]. intros Hhave.
  destruct (H3 Hhave) as (k' & Hin & Heq).
  apply (equivalent_eq Z.ltb Z_ltb_strictTotal) in Heq. subst k'. exact Hin.
- intros address skOut. apply getFrom_facts.
- intros extfvk skOut. apply getFrom_facts.
- intros address decOut. unfold GetNoteDecryptor.
  destruct (getFrom_facts sprout_less (mapNoteDecryptors ks) address decOut)
    as (H1 & H2 & H3).
  rewrite H1. split; assumption.
Qed.

(** X20.  [GetKeys] discards what the set held and fills it with exactly
    the addresses for which [HaveKey] holds, each once and in increasing
    order. *)
Theorem GetKeys_lists_the_stored_keys (setAddress : list CKeyID) :
  isSet Z.ltb (GetKeys ks setAddress)
  /\ forall address, In address (GetKeys ks setAddress) <-> HaveKey ks address = true.
Proof.
unfold GetKeys, HaveKey. cbv zeta. split.
- apply (insertKeys_isSet Z.ltb Z_ltb_strictTotal). constructor.
- intros address.
  rewrite (insertKeys_In Z.ltb Z_ltb_strictTotal),
          (map_count_keys Z.ltb Z_ltb_strictTotal).
  simpl. tauto.
Qed.

(** X21.  Given orders of the shielded addresses that are strict total
    ones, the two listings discard what the set held and fill it from the
    maps, each address once.  [GetSproutPaymentAddresses] lists the
    addresses that have a spending key together with those that have a
    viewing key: an address is listed exactly when [HaveSproutSpendingKey]
    holds of it or the viewing-key map has it, so that an address with a
    viewing key only is listed although no spending key can be had for it.
    [GetSaplingPaymentAddresses] lists exactly the addresses of the map of
    incoming viewing keys. *)
Theorem shielded_address_listings
        (setAddress : list SproutPaymentAddress)
        (saplingAddress : list SaplingPaymentAddress) :
  strictTotal sprout_less ->
  strictTotal sapling_less ->
  isSet sprout_less (GetSproutPaymentAddresses ks setAddress)
  /\ (forall address,
         In address (GetSproutPaymentAddresses ks setAddress) <->
         HaveSproutSpendingKey ks address = true
         \/ In address (map fst (mapSproutViewingKeys ks)))
  /\ (forall address skOut,
         In address (map fst (mapSproutViewingKeys ks)) ->
         ~ In address (map fst (mapSproutSpendingKeys ks)) ->
         In address (GetSproutPaymentAddresses ks setAddress)
         /\ GetSproutSpendingKey ks address skOut = (false, skOut))
  /\ isSet sapling_less (GetSaplingPaymentAddresses ks saplingAddress)
  /\ (forall address,
         In address (GetSaplingPaymentAddresses ks saplingAddress) <->
         In address (map fst (mapSaplingIncomingViewingKeys ks))).
Proof.
intros Hless Hsapling.
unfold GetSproutPaymentAddresses, GetSaplingPaymentAddresses, HaveSproutSpendingKey.
cbv zeta.
assert (Hmem : forall address,
           In address (insertKeys sprout_less (mapSproutViewingKeys ks)
                         (insertKeys sprout_less (mapSproutSpendingKeys ks) [])) <->
           (0 <? map_count sprout_less address (mapSproutSpendingKeys ks))%nat = true
           \/ In address (map fst (mapSproutViewingKeys ks))).
{ intros address.
  rewrite !(insertKeys_In sprout_less Hless), (map_count_keys sprout_less Hless).
  simpl. tauto. }
split; [| split; [| split; [| split]]].
- apply (insertKeys_isSet sprout_less Hless).
  apply (insertKeys_isSet sprout_less Hless). constructor.
- exact Hmem.
- intros address skOut Hview Hnospend. split; [apply Hmem; right; exact Hview |].
  destruct (getFrom_facts sprout_less (mapSproutSpendingKeys ks) address skOut)
    as (H1 & H2 & _).
  assert (Hcount : (0 <? map_count sprout_less address (mapSproutSpendingKeys ks))%nat
                   = false).
  { destruct (0 <? map_count sprout_less address (mapSproutSpendingKeys ks))%nat eqn:E;
      [| reflexivity].
    apply (map_count_keys sprout_less Hless) in E. contradiction. }
  unfold GetSproutSpendingKey.
  rewrite (surjective_pairing (getFrom sprout_less (mapSproutSpendingKeys ks) address skOut)).
  rewrite H1, Hcount, (H2 Hcount). reflexivity.
- apply (insertKeys_isSet sapling_less Hsapling). constructor.
- intros address. rewrite (insertKeys_In sapling_less Hsapling). simpl. tauto.
Qed.
End KeyStoreFacts.

Lemma shielded_address_listings_witness :
  In 22 (GetSproutPaymentAddresses KeySamples.store [99])
  /\ GetSproutSpendingKey KeySamples.store 22 0 = (false, 0).
Proof.
apply (proj1 (proj2 (proj2 (shielded_address_listings KeySamples.store [99] [98]
                              Z_ltb_strictTotal Z_ltb_strictTotal)))).
- left. reflexivity.
- simpl. intros [E | []]. discriminate.
Defined.
(* ================================================================== *)
(** * JSON objects through maps *)
(* ================================================================== *)

Section MapFacts.
Context {K V : Type}.
Variable less : K -> K -> bool.
Hypothesis Hless : strictTotal less.

Lemma less_asym (a b : K) : less a b = true -> less b a = false.
Proof.
intros Hab. destruct (less b a) eqn:Hba; [| reflexivity].
pose proof (less_trans less Hless a b a Hab Hba) as Haa.
rewrite (less_irrefl less Hless) in Haa. discriminate.
Qed.

Lemma map_find_none (k : K) (m : list (K * V)) :
  Forall (fun e => less k (fst e) = true) m -> map_find less k m = None.
Proof.
induction 1 as [| e m He _ IH]; simpl; [reflexivity |].
unfold equivalent. rewrite He, andb_false_r. exact IH.
Qed.

Lemma map_insert_keys (k a : K) (v : V) (m : list (K * V)) :
  In a (map fst (map_insert less k v m)) <-> a = k \/ In a (map fst m).
Proof.
induction m as [| e m IH]; simpl; [intuition congruence |].
destruct (less k (fst e)) eqn:E1; simpl; [intuition congruence |].
destruct (less (fst e) k) eqn:E2; simpl.
- rewrite IH. intuition congruence.
- assert (E : k = fst e) by (apply (less_total less Hless); assumption).
  intuition congruence.
Qed.

Lemma map_insert_isMap (k : K) (v : V) (m : list (K * V)) :
  isMap less m -> isMap less (map_insert less k v m).
Proof.
unfold isMap. induction 1 as [| e m Hm IH He]; simpl; [repeat constructor |].
destruct (less k (fst e)) eqn:E1.
- constructor; [constructor; assumption |]. constructor; [exact E1 |].
  eapply Forall_impl; [| exact He]. intros z Hz.
  exact (less_trans less Hless _ _ _ E1 Hz).
- destruct (less (fst e) k) eqn:E2; [| constructor; assumption].
  constructor; [exact IH |]. apply Forall_forall. intros z Hz.
  assert (Hk : In (fst z) (map fst (map_insert less k v m))) by (apply in_map; exact Hz).
  apply map_insert_keys in Hk as [-> | Hk]; [exact E2 |].
  apply in_map_iff in Hk as (z' & Ez & Hz'). rewrite <- Ez.
  rewrite Forall_forall in He. apply He. exact Hz'.
Qed.

(** Looking a key up after an insertion: a value already there stays, and
    the value inserted is found under its key only. *)
Lemma map_insert_find (k k' : K) (v : V) (m : list (K * V)) :
  isMap less m ->
  map_find less k (map_insert less k' v m)
  = match map_find less k m with
    | Some x => Some x
    | None => if equivalent less k' k then Some v else None
    end.
Proof.
unfold isMap. induction 1 as [| e m Hm IH He]; simpl; [reflexivity |].
destruct (less k' (fst e)) eqn:E1; simpl.
- destruct (equivalent less k' k) eqn:Ek.
  + apply (equivalent_eq less Hless) in Ek. subst k'.
    assert (Hne : equivalent less (fst e) k = false)
      by (unfold equivalent; rewrite E1, andb_false_r; reflexivity).
    rewrite Hne. rewrite map_find_none; [reflexivity |].
    eapply Forall_impl; [| exact He]. intros z Hz.
    exact (less_trans less Hless _ _ _ E1 Hz).
  + destruct (equivalent less (fst e) k); [reflexivity |].
    destruct (map_find less k m); reflexivity.
- destruct (less (fst e) k') eqn:E2; simpl.
  + destruct (equivalent less (fst e) k); [reflexivity | exact IH].
  + assert (E : k' = fst e) by (apply (less_total less Hless); assumption).
    destruct (equivalent less (fst e) k) eqn:Ek; [reflexivity |].
    rewrite E, Ek. destruct (map_find less k m); reflexivity.
Qed.

Lemma map_insert_last (k : K) (v : V) (m : list (K * V)) :
  Forall (fun e => less (fst e) k = true) m -> map_insert less k v m = m ++ [(k, v)].
Proof.
induction 1 as [| e m He _ IH]; simpl; [reflexivity |].
rewrite (less_asym _ _ He), He, IH. reflexivity.
Qed.

Lemma map_insert_new (k : K) (v : V) (m : list (K * V)) :
  ~ In k (map fst m) -> Permutation (map_insert less k v m) ((k, v) :: m).
Proof.
induction m as [| e m IH]; simpl; intros Hnew; [apply Permutation_refl |].
destruct (less k (fst e)) eqn:E1; [apply Permutation_refl |].
destruct (less (fst e) k) eqn:E2.
- apply Permutation_trans with (e :: (k, v) :: m); [| apply perm_swap].
  constructor. apply IH. tauto.
- exfalso. apply Hnew. left. symmetry. apply (less_total less Hless); assumption.
Qed.

Lemma isMap_keys_NoDup (m : list (K * V)) : isMap less m -> NoDup (map fst m).
Proof.
unfold isMap. induction 1 as [| e m Hm IH He]; simpl; constructor; [| exact IH].
intros Hin. apply in_map_iff in Hin as (z & Ez & Hz).
rewrite Forall_forall in He. specialize (He z Hz). rewrite Ez in He.
rewrite (less_irrefl less Hless) in He. discriminate.
Qed.

(** Inserting the entries of a map one after the other gives the map. *)
Lemma insert_all_isMap (m : list (K * V)) :
  forall acc : list (K * V),
    isMap less (acc ++ m) ->
    fold_left (fun r e => map_insert less (fst e) (snd e) r) m acc = acc ++ m.
Proof.
induction m as [| e m IH]; intros acc Hs; simpl; [rewrite app_nil_r; reflexivity |].
assert (Hlast : map_insert less (fst e) (snd e) acc = acc ++ [e]).
{ rewrite map_insert_last; [destruct e; reflexivity |].
  unfold isMap in Hs. clear IH. induction acc as [| a acc IHa]; [constructor |].
  simpl in Hs. inversion Hs as [| ? ? Hs' Ha]; subst. constructor.
  - rewrite Forall_forall in Ha. apply Ha. apply in_or_app. right. left. reflexivity.
  - apply IHa. exact Hs'. }
rewrite Hlast. replace (acc ++ e :: m) with ((acc ++ [e]) ++ m)
  by (rewrite <- app_assoc; reflexivity).
apply IH. rewrite <- app_assoc. exact Hs.
Qed.

(** Inserting any entries one after the other: the result is a map in
    which every key has the value it had first. *)
Lemma insert_all_find (es : list (K * V)) :
  forall acc : list (K * V),
    isMap less acc ->
    let r := fold_left (fun r e => map_insert less (fst e) (snd e) r) es acc in
    isMap less r
    /\ (forall k, map_find less k r
                  = match map_find less k acc with
                    | Some x => Some x
                    | None => map_find less k es
                    end)
    /\ (NoDup (map fst (acc ++ es)) -> Permutation r (acc ++ es)).
Proof.
induction es as [| e es IH]; intros acc Hacc; cbv zeta; simpl.
- split; [exact Hacc |]. split.
  + intros k. destruct (map_find less k acc); reflexivity.
  + intros _. rewrite app_nil_r. apply Permutation_refl.
- destruct (IH (map_insert less (fst e) (snd e) acc)
               (map_insert_isMap (fst e) (snd e) acc Hacc)) as (H1 & H2 & H3).
  cbv zeta in H1, H2, H3.
  split; [exact H1 |]. split.
  + intros k. rewrite H2, (map_insert_find k (fst e) (snd e) acc Hacc).
    destruct (map_find less k acc); [reflexivity |].
    destruct (equivalent less (fst e) k); reflexivity.
  + intros Hnd.
    assert (Hnew : ~ In (fst e) (map fst acc)).
    { rewrite map_app in Hnd. simpl in Hnd. apply NoDup_remove_2 in Hnd.
      intros Hin. apply Hnd. apply in_or_app. left. exact Hin. }
    pose proof (map_insert_new (fst e) (snd e) acc Hnew) as Hp.
    assert (Hp' : Permutation (map_insert less (fst e) (snd e) acc ++ es) (acc ++ e :: es)).
    { apply Permutation_trans with (((fst e, snd e) :: acc) ++ es).
      - apply Permutation_app_tail. exact Hp.
      - destruct e. simpl. apply Permutation_middle. }
    eapply Permutation_trans; [apply H3 | exact Hp'].
    apply (Permutation_NoDup (l := map fst (acc ++ e :: es))); [| exact Hnd].
    apply Permutation_map. apply Permutation_sym. exact Hp'.
Qed.
End MapFacts.

Section StringOrder.

Lemma string_less_irrefl (a : std_string) : string_less a a = false.
Proof.
induction a as [| x a IH]; simpl; [reflexivity |].
rewrite Z.ltb_irrefl, Z.eqb_refl, IH. reflexivity.
Qed.

Lemma string_less_trans (a : std_string) :
  forall b c, string_less a b = true -> string_less b c = true -> string_less a c = true.
Proof.
induction a as [| x a IH]; intros [| y b] [| z c]; simpl; try discriminate; try reflexivity.
intros Hab Hbc.
destruct (Z.ltb_spec x y), (Z.eqb_spec x y), (Z.ltb_spec y z), (Z.eqb_spec y z),
         (Z.ltb_spec x z), (Z.eqb_spec x z); simpl in *;
  try discriminate; try reflexivity; try lia.
exact (IH b c Hab Hbc).
Qed.

Lemma string_less_total (a : std_string) :
  forall b, string_less a b = false -> string_less b a = false -> a = b.
Proof.
induction a as [| x a IH]; intros [| y b]; simpl; try discriminate; [reflexivity |].
intros Hab Hba.
destruct (Z.ltb_spec x y), (Z.eqb_spec x y), (Z.ltb_spec y x), (Z.eqb_spec y x);
  simpl in *; try discriminate; try lia.
subst y. f_equal. exact (IH b Hab Hba).
Qed.

Lemma string_less_strictTotal : strictTotal string_less.
Proof.
constructor;
  [exact string_less_irrefl | exact string_less_trans | exact string_less_total].
Qed.

(** The loop over the indexes is the loop over the entries. *)
Lemma index_loop_entries (es : list (std_string * UniValue)) :
  forall (pre : list (std_string * UniValue)) (acc : UniMap),
    fold_left (fun retVal i =>
                 map_insert string_less (nth i (map fst (pre ++ es)) [])
                            (nth i (map snd (pre ++ es)) VNULL) retVal)
              (seq (length pre) (length es)) acc
    = fold_left (fun r e => map_insert string_less (fst e) (snd e) r) es acc.
Proof.
induction es as [| e es IH]; intros pre acc; [reflexivity |].
cbn [length seq fold_left].
assert (Hk : nth (length pre) (map fst (pre ++ e :: es)) [] = fst e).
{ rewrite map_app. cbn [map]. rewrite <- (length_map fst pre). apply nth_middle. }
assert (Hv : nth (length pre) (map snd (pre ++ e :: es)) VNULL = snd e).
{ rewrite map_app. cbn [map]. rewrite <- (length_map snd pre). apply nth_middle. }
rewrite Hk, Hv.
replace (pre ++ e :: es) with ((pre ++ [e]) ++ es)
  by (rewrite <- app_assoc; reflexivity).
replace (S (length pre)) with (length (pre ++ [e]))
  by (rewrite length_app; simpl; lia).
apply IH.
Qed.

Lemma UniObjectToMap_entries (entries : list (std_string * UniValue)) :
  UniObjectToMap (VOBJ entries)
  = fold_left (fun r e => map_insert string_less (fst e) (snd e) r) entries [].
Proof.
unfold UniObjectToMap. cbn [isObject getKeys getValues]. rewrite length_map.
exact (index_loop_entries entries [] []).
Qed.

(** X22.  [UniObjectToMap] gives the empty map for anything that is not an
    object; for an object it gives a map, in strictly increasing key order,
    in which every key of the object has the value that comes first under
    that key in the object: later values of a repeated key are dropped. *)
Theorem UniObjectToMap_keeps_first_value :
  (forall obj, isObject obj = false -> UniObjectToMap obj = [])
  /\ (forall entries,
         isMap string_less (UniObjectToMap (VOBJ entries))
         /\ (forall k, map_find string_less k (UniObjectToMap (VOBJ entries))
                       = map_find string_less k entries)).
Proof.
split.
- intros obj Hobj. unfold UniObjectToMap. rewrite Hobj. reflexivity.
- intros entries. rewrite UniObjectToMap_entries.
  destruct (insert_all_find string_less string_less_strictTotal entries []
              ltac:(constructor)) as (H1 & H2 & _).
  split; [exact H1 | exact H2].
Qed.

Variable pushKV : std_string -> UniValue -> UniValue -> UniValue.
Hypothesis HpushKV : pushKV_adds pushKV.

Lemma MapToUniObject_entries (m : UniMap) :
  forall acc : list (std_string * UniValue),
    NoDup (map fst (acc ++ m)) ->
    fold_left (fun retVal oneEl => pushKV (fst oneEl) (snd oneEl) retVal) m (VOBJ acc)
    = VOBJ (acc ++ m).
Proof.
induction m as [| e m IH]; intros acc Hnd; simpl; [rewrite app_nil_r; reflexivity |].
rewrite HpushKV.
- replace (acc ++ e :: m) with ((acc ++ [(fst e, snd e)]) ++ m)
    by (rewrite <- app_assoc; destruct e; reflexivity).
  apply IH. rewrite <- app_assoc. destruct e. exact Hnd.
- rewrite map_app in Hnd. simpl in Hnd. apply NoDup_remove_2 in Hnd.
  intros Hin. apply Hnd. apply in_or_app. left. exact Hin.
Qed.

(** X23.  For a [pushKV] that adds a key the object does not hold yet at
    its end, [MapToUniObject] turns a map into the object holding its
    entries in map order, and [UniObjectToMap] turns that object back into
    the map. *)
Theorem MapToUniObject_round_trip (uniMap : UniMap) :
  isMap string_less uniMap ->
  MapToUniObject pushKV uniMap = VOBJ uniMap
  /\ UniObjectToMap (MapToUniObject pushKV uniMap) = uniMap.
Proof.
intros Hmap.
assert (Hobj : MapToUniObject pushKV uniMap = VOBJ uniMap).
{ unfold MapToUniObject. rewrite (MapToUniObject_entries uniMap []); [reflexivity |].
  apply (isMap_keys_NoDup string_less string_less_strictTotal). exact Hmap. }
split; [exact Hobj |].
rewrite Hobj, UniObjectToMap_entries.
exact (insert_all_isMap string_less string_less_strictTotal uniMap [] Hmap).
Qed.

(** X24.  An object taken through [UniObjectToMap] and back through
    [MapToUniObject], as the identity updates do, comes back with its keys
    in strictly increasing order and each key once, holding the value that
    came first under it; when no key is repeated it holds the same entries,
    rearranged. *)
Theorem object_through_map_is_sorted (entries : list (std_string * UniValue)) :
  exists sorted : list (std_string * UniValue),
    MapToUniObject pushKV (UniObjectToMap (VOBJ entries)) = VOBJ sorted
    /\ isMap string_less sorted
    /\ (forall k, map_find string_less k sorted = map_find string_less k entries)
    /\ (NoDup (map fst entries) -> Permutation sorted entries).
Proof.
exists (UniObjectToMap (VOBJ entries)).
rewrite UniObjectToMap_entries.
destruct (insert_all_find string_less string_less_strictTotal entries []
            ltac:(constructor)) as (H1 & H2 & H3).
cbv zeta in H1, H2, H3. split; [| split; [exact H1 | split; [exact H2 | exact H3]]].
unfold MapToUniObject.
rewrite (MapToUniObject_entries _ []); [reflexivity |].
apply (isMap_keys_NoDup string_less string_less_strictTotal). exact H1.
Qed.
End StringOrder.

Lemma pushBack_adds : pushKV_adds JsonSamples.pushBack.
Proof. intros entries k v _. reflexivity. Qed.

Lemma MapToUniObject_round_trip_witness :
  MapToUniObject JsonSamples.pushBack JsonSamples.sorted = VOBJ JsonSamples.sorted
  /\ UniObjectToMap (MapToUniObject JsonSamples.pushBack JsonSamples.sorted)
     = JsonSamples.sorted.
Proof.
apply (MapToUniObject_round_trip JsonSamples.pushBack pushBack_adds JsonSamples.sorted).
repeat constructor.
Defined.

Lemma object_through_map_is_sorted_witness :
  exists sorted : list (std_string * UniValue),
    MapToUniObject JsonSamples.pushBack (UniObjectToMap JsonSamples.twice) = VOBJ sorted
    /\ isMap string_less sorted
    /\ (forall k, map_find string_less k sorted
                  = map_find string_less k
                             [([98], VNUM [49]); ([97], VNUM [50]); ([98], VNUM [51])])
    /\ (NoDup (map fst [([98], VNUM [49]); ([97], VNUM [50]); ([98], VNUM [51])]) ->
        Permutation sorted [([98], VNUM [49]); ([97], VNUM [50]); ([98], VNUM [51])]).
Proof.
exact (object_through_map_is_sorted JsonSamples.pushBack pushBack_adds
         [([98], VNUM [49]); ([97], VNUM [50]); ([98], VNUM [51])]).
Defined.
(* ================================================================== *)
(** * Validation of transfer destinations *)
(* ================================================================== *)

Section DestinationFacts.
Import Destinations.
Variable node : Node.

(** X25.  For a string with exactly one ['@'] whose clean name is not
    empty and names no identity, [ValidateTransferDestination] never gets
    to validate: whether the parent has a valid gateway definition and
    whether the converter accepts the name make no difference, and the
    name is returned as a gateway destination of the parent, converted by
    the converter (a null converter pointer is dereferenced). *)
Theorem transfer_destination_skips_gateway_validation
        (destStr str : std_string) (cleanParent destID parent : uint160) :
  count_occ Z.eq_dec destStr at_sign = 1%nat ->
  CleanName node destStr 0 = (str, cleanParent) ->
  str <> [] ->
  IdentityGetID node str cleanParent = (destID, parent) ->
  LookupIdentityValid node destID = false ->
  ValidateTransferDestination node destStr
  = match snd (GetGateway node parent) with
    | Some gateway => Returned (parent, gw_ToTransferDestination gateway str)
    | None => NullDereference
    end.
Proof.
intros Hcount Hclean Hstr Hid Hlook. unfold ValidateTransferDestination.
rewrite Hcount, Hclean. cbn [Nat.eqb].
destruct str as [| c str]; [contradiction |]. cbn [length Nat.eqb negb].
rewrite Hid, Hlook.
destruct (GetGateway node parent) as [def [gateway |]]; cbn [fst snd].
- destruct (def_valid def); reflexivity.
- destruct (def_valid def); reflexivity.
Qed.

(** X26.  [ValidateTransferDestination] returns a parent that is not null
    only on that path: the string has exactly one ['@'], its clean name is
    not empty and names no identity, and the parent returned is the one
    the name resolution left.  On every other path the first component
    returned is null. *)
Theorem transfer_destination_parent_only_for_gateway
        (destStr : std_string) (parent : uint160) (dest : CTransferDestination) :
  ValidateTransferDestination node destStr = Returned (parent, dest) ->
  parent <> 0 ->
  count_occ Z.eq_dec destStr at_sign = 1%nat
  /\ fst (CleanName node destStr 0) <> []
  /\ LookupIdentityValid node
       (fst (IdentityGetID node (fst (CleanName node destStr 0))
                           (snd (CleanName node destStr 0)))) = false
  /\ parent = snd (IdentityGetID node (fst (CleanName node destStr 0))
                                 (snd (CleanName node destStr 0)))
  /\ exists gateway,
       snd (GetGateway node parent) = Some gateway
       /\ dest = gw_ToTransferDestination gateway (fst (CleanName node destStr 0)).
Proof.
unfold ValidateTransferDestination.
destruct (Nat.eqb_spec (count_occ Z.eq_dec destStr at_sign) 1) as [Hcount | _].
- destruct (CleanName node destStr 0) as [str cleanParent]. cbn [fst snd].
  destruct str as [| c str]; cbn [length Nat.eqb negb].
  + intros E Hp. injection E as <- _. contradiction.
  + destruct (IdentityGetID node (c :: str) cleanParent) as [destID parent'].
    cbn [fst snd].
    destruct (LookupIdentityValid node destID) eqn:Hlook.
    * intros E Hp. injection E as <- _. contradiction.
    * destruct (GetGateway node parent') as [def [gateway |]] eqn:Hgw; cbn [fst snd].
      -- destruct (def_valid def); intros E Hp; injection E as <- <-;
           (split; [exact Hcount |]); (split; [discriminate |]);
           (split; [reflexivity |]); (split; [reflexivity |]);
           exists gateway; rewrite Hgw; split; reflexivity.
      -- destruct (def_valid def); discriminate.
- intros E Hp. injection E as <- _. contradiction.
Qed.

(** X27.  A string that does not hold exactly one ['@'] is validated as
    [ValidateDestination] validates it: [ValidateTransferDestination]
    returns a null parent and the transfer destination of what
    [ValidateDestination] returns, which is never an identity that cannot
    be looked up. *)
Theorem transfer_destination_plain_address (destStr : std_string) :
  count_occ Z.eq_dec destStr at_sign <> 1%nat ->
  ValidateTransferDestination node destStr
  = Returned (0, DestinationToTransferDestination node (ValidateDestination node destStr))
  /\ (forall id,
         ValidateDestination node destStr = IdentityIDDestination id ->
         LookupIdentityValid node (GetDestinationID node (IdentityIDDestination id)) = true).
Proof.
intros Hcount. unfold ValidateTransferDestination, ValidateDestination.
destruct (Nat.eqb_spec (count_occ Z.eq_dec destStr at_sign) 1) as [E | _];
  [contradiction |].
split; [reflexivity |]. intros id.
destruct (DecodeDestination node destStr) as [| k | i | i | i | i | i] eqn:Hd;
  cbn [isID]; try discriminate.
destruct (LookupIdentityValid node (GetDestinationID node (IdentityIDDestination i)))
  eqn:Hlook; cbn [negb]; [| discriminate].
intros E. injection E as <-. exact Hlook.
Qed.
End DestinationFacts.

Lemma transfer_destination_skips_gateway_validation_witness :
  Destinations.ValidateTransferDestination DestinationSamples.node DestinationSamples.name
  = Destinations.Returned (5, 2).
Proof.
exact (transfer_destination_skips_gateway_validation DestinationSamples.node
         DestinationSamples.name DestinationSamples.name 5 9 5
         eq_refl eq_refl ltac:(discriminate) eq_refl eq_refl).
Defined.

Lemma transfer_destination_parent_only_for_gateway_witness :
  count_occ Z.eq_dec DestinationSamples.name Destinations.at_sign = 1%nat
  /\ fst (Destinations.CleanName DestinationSamples.node DestinationSamples.name 0) <> []
  /\ Destinations.LookupIdentityValid DestinationSamples.node
       (fst (Destinations.IdentityGetID DestinationSamples.node
               (fst (Destinations.CleanName DestinationSamples.node
                       DestinationSamples.name 0))
               (snd (Destinations.CleanName DestinationSamples.node
                       DestinationSamples.name 0)))) = false
  /\ 5 = snd (Destinations.IdentityGetID DestinationSamples.node
                (fst (Destinations.CleanName DestinationSamples.node
                        DestinationSamples.name 0))
                (snd (Destinations.CleanName DestinationSamples.node
                        DestinationSamples.name 0)))
  /\ exists gateway,
       snd (Destinations.GetGateway DestinationSamples.node 5) = Some gateway
       /\ 2 = Destinations.gw_ToTransferDestination gateway
                (fst (Destinations.CleanName DestinationSamples.node
                        DestinationSamples.name 0)).
Proof.
apply (transfer_destination_parent_only_for_gateway DestinationSamples.node
         DestinationSamples.name 5 2 eq_refl).
discriminate.
Defined.

Lemma transfer_destination_plain_address_witness :
  Destinations.ValidateTransferDestination DestinationSamples.node [97]
  = Destinations.Returned
      (0, Destinations.DestinationToTransferDestination DestinationSamples.node
            (Destinations.ValidateDestination DestinationSamples.node [97]))
  /\ (forall id,
         Destinations.ValidateDestination DestinationSamples.node [97]
         = Destinations.IdentityIDDestination id ->
         Destinations.LookupIdentityValid DestinationSamples.node
           (Destinations.GetDestinationID DestinationSamples.node
              (Destinations.IdentityIDDestination id)) = true).
Proof.
apply (transfer_destination_plain_address DestinationSamples.node [97]).
simpl. discriminate.
Defined.
(* ================================================================== *)
(** * The out-parameter of the query and the callers that read it *)
(* ================================================================== *)

Section OutParameter.
Context {P : Type} `{ChainPowerOps P}.

(** The seed step over the out-parameter is the seed step. *)
Lemma seedFromEntryOut_agrees (env : Env) (chainDef : CCurrencyDefinition) (wantTx : bool)
      (nd : CChainNotarizationData) (bestIt : UnspentEntry) :
  seedFromEntry env chainDef wantTx nd bestIt
  = match seedFromEntryOut env chainDef wantTx nd bestIt with
    | (Return true, nd') => SeedReturn nd'
    | (Return false, _) => SeedFailed
    | (Continue, nd') => SeedNext nd'
    end.
Proof.
unfold seedFromEntry, seedFromEntryOut.
destruct (IsPayToCryptoCondition (script (snd bestIt))) as [p |]; [| reflexivity].
destruct (negb (cc_valid p)
          || negb (isFinalizeEval (evalCode p) || isNotarizationEval (evalCode p))
          || (length (vData p) =? 0)%nat); [reflexivity |].
cbv zeta.
destruct (isFinalizeEval (evalCode p)).
- destruct (myGetTransaction env _) as [[nTx blk] |]; [| reflexivity].
  destruct (sizeGt (vout nTx) _); [| reflexivity].
  destruct (negb (valid _)); reflexivity.
- destruct (negb (valid (asNotarization (nth 0 (vData p) VRaw)))); [reflexivity |].
  destruct (negb (if wantTx then _ else true)); [reflexivity |].
  destruct (IsToken chainDef); reflexivity.
Qed.

(** Where the seed step leaves an out-parameter that was empty: empty, or
    holding the seed alone; it holds the seed on a [false] return only
    when the transactions were asked for. *)
Lemma seedFromEntryOut_state (env : Env) (chainDef : CCurrencyDefinition) (wantTx : bool)
      (bestIt : UnspentEntry) :
  let out := seedFromEntryOut env chainDef wantTx emptyData bestIt in
  (snd out = emptyData /\ fst out <> Return true)
  \/ (exists r nz, snd out = singleFork r nz /\ valid nz = true
                   /\ (fst out = Return false -> wantTx = true)).
Proof.
cbv zeta. unfold seedFromEntryOut.
destruct (IsPayToCryptoCondition (script (snd bestIt))) as [p |];
  [| left; split; [reflexivity | discriminate]].
destruct (negb (cc_valid p)
          || negb (isFinalizeEval (evalCode p) || isNotarizationEval (evalCode p))
          || (length (vData p) =? 0)%nat); [left; split; [reflexivity | discriminate] |].
cbv zeta.
destruct (isFinalizeEval (evalCode p)).
- destruct (myGetTransaction env _) as [[nTx blk] |];
    [| left; split; [reflexivity | discriminate]].
  destruct (sizeGt (vout nTx) _); [| left; split; [reflexivity | discriminate]].
  destruct (valid (notarizationOfScript _)) eqn:Hv; cbn [negb];
    [| left; split; [reflexivity | discriminate]].
  right. eexists; eexists. split; [reflexivity |]. split; [exact Hv | discriminate].
- destruct (valid (asNotarization (nth 0 (vData p) VRaw))) eqn:Hv; cbn [negb];
    [| left; split; [reflexivity | discriminate]].
  right. eexists; eexists.
  destruct wantTx.
  + destruct (negb _); [| destruct (IsToken chainDef)];
      (split; [reflexivity |]); (split; [exact Hv |]); intros _; reflexivity.
  + cbn [negb]. destruct (IsToken chainDef);
      (split; [reflexivity |]); (split; [exact Hv |]); discriminate.
Qed.

(** The query over the out-parameter is the query, and the shapes the
    out-parameter can have on return. *)
Lemma GetNotarizationDataOut_facts (env : Env) (cur : uint160) (wantTx : bool) :
  let out := GetNotarizationDataOut env cur wantTx in
  GetNotarizationData env cur wantTx = (if fst out then Some (snd out) else None)
  /\ (fst out = false ->
      (snd out = emptyData \/ exists r nz, snd out = singleFork r nz /\ valid nz = true)
      /\ (wantTx = false -> snd out = emptyData)).
Proof.
cbv zeta. unfold GetNotarizationData, seedStep, GetNotarizationDataOut.
destruct (def_valid (GetCachedCurrency env cur)); cbn [negb];
  [| split; [reflexivity | intros _; split; [left; reflexivity | reflexivity]]].
cbv zeta.
destruct (localGuard env cur); [split; [reflexivity | discriminate] |].
destruct (GetAddressUnspent env (confirmedNotarizationKey env cur)) as [[| first rest] |];
  try (split; [reflexivity | intros _; split; [left; reflexivity | reflexivity]]).
rewrite seedFromEntryOut_agrees.
pose proof (seedFromEntryOut_state env (GetCachedCurrency env cur) wantTx
              (latestConfirmed first (first :: rest))) as Hstate.
cbv zeta in Hstate.
destruct (seedFromEntryOut env (GetCachedCurrency env cur) wantTx emptyData
            (latestConfirmed first (first :: rest))) as [[[|] |] nd'];
  cbn [fst snd] in Hstate |- *.
- split; [reflexivity | discriminate].
- split; [reflexivity |]. intros _.
  destruct Hstate as [[-> _] | (r & nz & -> & Hv & Hw)].
  + split; [left; reflexivity | reflexivity].
  + split; [right; exists r, nz; split; [reflexivity | exact Hv] |].
    intros Hno. rewrite (Hw eq_refl) in Hno. discriminate.
- destruct Hstate as [[-> _] | (r & nz & -> & Hv & _)].
  + split; [reflexivity | intros _; split; [left; reflexivity | reflexivity]].
  + change ((length (vtx (singleFork r nz)) =? 0)%nat) with false. cbv iota.
    destruct (GetAddressUnspent env (pendingNotarizationKey env cur)) as [[| p1 ps] |].
    * split; [reflexivity | discriminate].
    * destruct (resolvePendingForks_keepsSeed env cur r nz (p1 :: ps))
        as ((extra & Hx) & _).
      cbv zeta in Hx. rewrite Hx. cbn [length Nat.eqb negb fst snd].
      split; [reflexivity | discriminate].
    * split; [reflexivity | discriminate].
Qed.

Lemma last_cons_default {A : Type} (l : list A) :
  forall x d : A, last (x :: l) d = last l x.
Proof.
induction l as [| a l IH]; intros x d; [reflexivity |].
change (last (x :: a :: l) d) with (last (a :: l) d).
rewrite (IH a d), (IH a x). reflexivity.
Qed.

(** The reads a caller makes of a successful result are in bounds. *)
Lemma result_reads_in_bounds (env : Env) (cur : uint160) (wantTx : bool)
      (nd : CChainNotarizationData) :
  GetNotarizationData env cur wantTx = Some nd ->
  vtx nd <> []
  /\ lastConfirmed nd <> -1 /\ bestChain nd <> -1
  /\ exists e fork i e',
       vectorAt (vtx nd) (lastConfirmed nd) = Some e
       /\ vectorAt (forks nd) (bestChain nd) = Some fork
       /\ vectorBack fork = Some i
       /\ vectorAt (vtx nd) (Z.of_nat i) = Some e'.
Proof.
intros Hq.
assert (Hall : lastConfirmed nd = 0 /\ vtx nd <> [] /\ forks nd <> []
               /\ Forall (linkedFork (vtx nd)) (forks nd)
               /\ bestChain nd = selectBestChain cur (vtx nd) (forks nd)).
{ destruct (query_cases env cur wantTx nd Hq) as (r & nz & _ & [[-> _] | [_ ->]]).
  - cbn [lastConfirmed vtx forks bestChain singleFork].
    split; [reflexivity |]. split; [discriminate |]. split; [discriminate |]. split.
    + repeat constructor. exists []. split; [reflexivity | constructor; simpl; lia].
    + symmetry. apply selectBestChain_single.
  - destruct (expansion_facts env cur r nz (pendingIndex env cur))
      as (H0 & (extra & leftover & Hv & _ & _) & Hne & Hf & _ & Hb).
    split; [exact H0 |]. split; [rewrite Hv; discriminate |].
    split; [exact Hne |]. split; [exact Hf | exact Hb]. }
destruct Hall as (H0 & Hv & Hne & Hf & Hb).
assert (Hbest : 0 <= bestChain nd < Z.of_nat (length (forks nd))).
{ rewrite Hb. unfold selectBestChain.
  destruct (selectLoop_range cur (vtx nd) (forks nd) 0 defaultPower 0) as [E | E].
  - rewrite E. destruct (forks nd); [contradiction | simpl; lia].
  - simpl in E. exact E. }
split; [exact Hv |]. split; [lia |]. split; [lia |].
assert (Hread : forall (A : Type) (v : list A) (i : Z),
          0 <= i < Z.of_nat (length v) ->
          exists x, vectorAt v i = Some x /\ In x v).
{ intros A v i Hi. unfold vectorAt.
  destruct (Z.leb_spec 0 i); [| lia]. destruct (Z.ltb_spec i (Z.of_nat (length v))); [| lia].
  cbn [andb].
  destruct (nth_error v (Z.to_nat i)) as [x |] eqn:E.
  - exists x. split; [reflexivity | exact (nth_error_In _ _ E)].
  - apply nth_error_None in E. lia. }
destruct (Hread _ (vtx nd) (lastConfirmed nd)) as (e & He & _).
{ rewrite H0. destruct (vtx nd); [contradiction | simpl; lia]. }
destruct (Hread _ (forks nd) (bestChain nd) Hbest) as (fork & Hfork & Hin).
rewrite Forall_forall in Hf.
destruct (linkedFork_bounds _ _ (Hf fork Hin)) as (Hne' & _ & Hlast & _).
destruct fork as [| i0 fork]; [contradiction |].
destruct (Hread _ (vtx nd) (Z.of_nat (last fork i0))) as (e' & He' & _).
{ rewrite <- (last_cons_default fork i0 0%nat). lia. }
exists e, (i0 :: fork), (last fork i0), e'.
split; [exact He |]. split; [exact Hfork |]. split; [reflexivity | exact He'].
Qed.

(** X28.  The out-parameter of [GetNotarizationData] when it returns
    [false]: it is the empty structure it was reset to on entry (no
    entries, no forks, both indexes -1), except that, when the caller asks
    for the transactions, it may hold the confirmed seed alone, stored
    before the seed's transaction failed to be retrieved or to hold a
    valid notarization.  When it returns [true] the out-parameter is the
    result. *)
Theorem query_out_parameter_on_failure (env : Env) (cur : uint160) (wantTx : bool) :
  let out := GetNotarizationDataOut env cur wantTx in
  GetNotarizationData env cur wantTx = (if fst out then Some (snd out) else None)
  /\ (fst out = false ->
      (snd out = emptyData \/ exists r nz, snd out = singleFork r nz /\ valid nz = true)
      /\ (wantTx = false -> snd out = emptyData)).
Proof.
cbv zeta.
destruct (GetNotarizationDataOut_facts env cur wantTx) as [Hagree Hfail].
cbv zeta in Hagree, Hfail. split; [exact Hagree |].
intros Hfalse. destruct (Hfail Hfalse) as [Hshape Hplain].
split; [exact Hshape | exact Hplain].
Qed.

(** X29.  [listcurrencies] reads the out-parameter of
    [GetNotarizationData] without looking at the result of the call, behind
    the guards [vtx.size()] and index [!= -1]: none of its reads
    [vtx[lastConfirmed]], [forks[bestChain]], [.back()] and
    [vtx[forks[bestChain].back()]] is out of bounds, whether the call
    succeeded or not, and after a failed call both heights are -1. *)
Theorem listcurrencies_reads_in_bounds (env : Env) (cur : uint160) :
  listedHeights env cur <> None
  /\ (fst (GetNotarizationDataOut env cur false) = false ->
      listedHeights env cur = Some (-1, -1)).
Proof.
destruct (GetNotarizationDataOut_facts env cur false) as [Hagree Hfail].
cbv zeta in Hagree, Hfail. unfold listedHeights.
destruct (GetNotarizationDataOut env cur false) as [ok cnd]. cbn [fst snd] in *.
destruct ok.
- split; [| discriminate].
  destruct (result_reads_in_bounds env cur false cnd Hagree)
    as (Hv & Hc & Hb & e & fork & i & e' & He & Hfork & Hi & He').
  rewrite He, Hfork, Hi, He'.
  destruct (negb (length (vtx cnd) =? 0)%nat && negb (lastConfirmed cnd =? -1));
    destruct (negb (length (vtx cnd) =? 0)%nat && negb (bestChain cnd =? -1));
    discriminate.
- destruct (Hfail eq_refl) as [_ Hempty]. rewrite (Hempty eq_refl).
  split; [discriminate | reflexivity].
Qed.
End OutParameter.

Section PendingTransfersFacts.
Context {Param : Type}.
Variables (env : Env) (node : RpcNode Param).

(** X30.  [getpendingtransfers] never returns an empty array: it returns
    the null value instead.  When it returns an array, exactly one
    parameter was passed and the currency it names is not null and is
    defined, and every object of the array is a transfer to that currency:
    its [currencyid] is the id asked for, which is the destination of its
    reserve transfer, and the reserve transfer is valid. *)
Theorem getpendingtransfers_lists_the_currency (params : list Param) (fHelp : bool)
        (ret : list PendingTransfer) :
  getpendingtransfers env node params fHelp = RpcValue ret ->
  ret <> []
  /\ exists param,
       params = [param]
       /\ IsNull (GetChainIDFromParam node param) = false
       /\ GetCurrencyDefinition node (GetChainIDFromParam node param) = true
       /\ Forall (fun t => pt_currencyid t = GetChainIDFromParam node param
                           /\ transferDest env (pt_reservetransfer t)
                              = GetChainIDFromParam node param
                           /\ rt_valid (pt_reservetransfer t) = true) ret.
Proof.
unfold getpendingtransfers.
destruct params as [| param [| more rest]]; try discriminate.
destruct fHelp; [discriminate |].
destruct (PBaaSAPIsValid node); cbn [negb]; [| discriminate].
destruct (IsNull (GetChainIDFromParam node param)) eqn:Hnull; [discriminate |].
destruct (GetCurrencyDefinition node (GetChainIDFromParam node param)) eqn:Hdef;
  [| discriminate].
pose proof (unspent_scan_entries env (GetChainIDFromParam node param)) as Hscan.
destruct (GetUnspentChainTransfers env [] (GetChainIDFromParam node param))
  as [[ok ins] log].
cbn [fst snd] in Hscan.
destruct ok; [| discriminate].
destruct (length (map _ ins) =? 0)%nat eqn:Hlen; cbn [negb]; [discriminate |].
intros E; injection E as <-.
split; [intros Hnil; rewrite Hnil in Hlen; discriminate |].
exists param. split; [reflexivity |]. split; [exact Hnull |]. split; [exact Hdef |].
apply Forall_forall. intros t Ht. apply in_map_iff in Ht as (desc & <- & Hdesc).
cbn [pt_currencyid pt_reservetransfer].
rewrite Forall_forall in Hscan.
destruct (Hscan desc Hdesc) as (Hv & Hk & _ & Hf & _).
specialize (Hf Hnull). split; [exact Hf |]. split; [| exact Hv].
rewrite <- Hk. exact Hf.
Qed.
End PendingTransfersFacts.

Lemma getpendingtransfers_lists_the_currency_witness :
  RpcSamples.pendingFor8 <> []
  /\ exists param,
       [8] = [param]
       /\ IsNull (GetChainIDFromParam RpcSamples.node param) = false
       /\ GetCurrencyDefinition RpcSamples.node (GetChainIDFromParam RpcSamples.node param)
          = true
       /\ Forall (fun t => pt_currencyid t = GetChainIDFromParam RpcSamples.node param
                           /\ transferDest Samples.chainA (pt_reservetransfer t)
                              = GetChainIDFromParam RpcSamples.node param
                           /\ rt_valid (pt_reservetransfer t) = true)
                 RpcSamples.pendingFor8.
Proof.
exact (getpendingtransfers_lists_the_currency Samples.chainA RpcSamples.node [8] false
         RpcSamples.pendingFor8 eq_refl).
Defined.
